(** * Quaternion operations of [quaternionops.py]: a shallow embedding

    The module is a thin layer of Python over torch tensors and numpy
    arrays.  A tensor is modelled the way torch stores a contiguous one: a
    shape ([size]) and the elements in row-major order ([data]).  The torch
    primitives the module calls ([narrow], [cat], [mm], [permute], [sum],
    ...) are written once, for every rank, on that representation; the
    functions of the module are then transcribed statement by statement on
    top of them, in an error monad for Python's exceptions.  The
    initialisers thread the state of the global [np.random] explicitly.

    Scalars are a parameter ([Scalar]): the structural results hold for
    any interpretation of the arithmetic, IEEE binary64 included
    ([float_scalar]); the algebraic ones assume the laws of real arithmetic
    they use ([ScalarLaws]).  The integers ([Z_scalar]) serve for exact
    evaluation. *)

From Stdlib Require Import List Arith ZArith Lia Bool Floats Ring.
From Stdlib Require String.
Import String.StringSyntax.
Delimit Scope string_scope with string.
Import ListNotations.

Set Implicit Arguments.

(** ** Scalars *)

Class Scalar (R : Type) : Type := {
  szero : R;
  sone : R;
  sadd : R -> R -> R;
  ssub : R -> R -> R;
  smul : R -> R -> R;
  sdiv : R -> R -> R;
  sneg : R -> R;
  ssqrt : R -> R;
  sof_Z : Z -> R
}.

(** The laws of real arithmetic that the identity property of the Hamilton
    product rests on. *)
Class ScalarLaws (R : Type) (SR : Scalar R) : Prop := {
  smul_one_r : forall x, smul x sone = x;
  smul_zero_r : forall x, smul x szero = szero;
  sadd_zero_r : forall x, sadd x szero = x;
  sadd_zero_l : forall x, sadd szero x = x;
  ssub_zero_r : forall x, ssub x szero = x
}.

(** Exact integer arithmetic, with truncated division and square root: the
    instance the properties below are evaluated at. *)
#[export] Instance Z_scalar : Scalar Z := {|
  szero := 0%Z;
  sone := 1%Z;
  sadd := Z.add;
  ssub := Z.sub;
  smul := Z.mul;
  sdiv := Z.div;
  sneg := Z.opp;
  ssqrt := Z.sqrt;
  sof_Z := fun z => z
|}.

(** IEEE binary64 arithmetic, the [float64] of numpy ([sof_Z] on the range
    of unsigned 63-bit integers). *)
#[export] Instance float_scalar : Scalar float := {|
  szero := 0%float;
  sone := 1%float;
  sadd := PrimFloat.add;
  ssub := PrimFloat.sub;
  smul := PrimFloat.mul;
  sdiv := PrimFloat.div;
  sneg := PrimFloat.opp;
  ssqrt := PrimFloat.sqrt;
  sof_Z := fun z => PrimFloat.of_uint63 (Uint63.of_Z z)
|}.


(** ** Exceptions *)

Inductive exn : Type :=
| DimError (d : nat)
    (* RuntimeError: quaternion linear accepts only input of dimension 2 or 3. *)
| Div4Error (nb_hidden : nat)
    (* RuntimeError: Quaternion Tensors must be divisible by 4. *)
| TorchError
    (* RuntimeError raised inside a torch primitive that rejects its operands *)
| ValueError (criterion : String.string)
    (* ValueError: Invalid criterion *)
| UnpackError
    (* ValueError: not enough values to unpack *).

Inductive result (A : Type) : Type :=
| Ok (a : A)
| Raise (e : exn).

Arguments Ok {A} a.
Arguments Raise {A} e.

Definition bind {A B : Type} (m : result A) (k : A -> result B) : result B :=
  match m with
  | Ok a => k a
  | Raise e => Raise e
  end.

Notation "x <- m ;; k" := (bind m (fun x => k))
  (at level 61, m at next level, right associativity).
Notation "m ;;; k" := (bind m (fun _ => k))
  (at level 61, right associativity).

(** The two errors of [check_input] are the spec's ShapeError. *)
Definition is_shape_error (e : exn) : bool :=
  match e with
  | DimError _ | Div4Error _ => true
  | _ => false
  end.

(** ** Lists as row-major storage *)

Section Storage.
Variable A : Type.

(** [chunks k n l]: the first [k] consecutive blocks of [n] elements. *)
Fixpoint chunks (k n : nat) (l : list A) : list (list A) :=
  match k with
  | 0 => []
  | S k' => firstn n l :: chunks k' n (skipn n l)
  end.

(** Position-wise append of two lists of blocks. *)
Definition zip_app (a b : list (list A)) : list (list A) :=
  map (fun p => fst p ++ snd p) (combine a b).

(** [interleave k parts]: block [o] of the result is the concatenation of
    block [o] of every part, in order. *)
Definition interleave (k : nat) (parts : list (list (list A))) : list (list A) :=
  fold_right zip_app (repeat [] k) parts.

Definition map2 (f : A -> A -> A) (x y : list A) : list A :=
  map (fun p => f (fst p) (snd p)) (combine x y).

Fixpoint list_eqb (eqb : A -> A -> bool) (x y : list A) : bool :=
  match x, y with
  | [], [] => true
  | a :: x', b :: y' => eqb a b && list_eqb eqb x' y'
  | _, _ => false
  end.
End Storage.

Definition numel (s : list nat) : nat := fold_right Nat.mul 1 s.

(** Shapes are right-aligned for broadcasting: pad with ones on the left. *)
Definition pad (n : nat) (s : list nat) : list nat :=
  repeat 1 (n - length s) ++ s.

Fixpoint bshape (s1 s2 : list nat) : option (list nat) :=
  match s1, s2 with
  | [], [] => Some []
  | a :: s1', b :: s2' =>
      match bshape s1' s2' with
      | None => None
      | Some r =>
          if a =? b then Some (a :: r)
          else if a =? 1 then Some (b :: r)
          else if b =? 1 then Some (a :: r)
          else None
      end
  | _, _ => None
  end.

Fixpoint expandable (s tgt : list nat) : bool :=
  match s, tgt with
  | [], [] => true
  | a :: s', b :: tgt' => ((a =? b) || (a =? 1)) && expandable s' tgt'
  | _, _ => false
  end.

(** ** Tensors and the torch primitives *)

Section Tensors.
Context {R : Type} {SR : Scalar R}.

Record tensor : Type := mkT { size : list nat; data : list R }.

Definition dim (t : tensor) : nat := length (size t).

(** The storage holds exactly the elements the shape announces. *)
Definition wf (t : tensor) : Prop := length (data t) = numel (size t).

Definition has_shape (s : list nat) (t : tensor) : Prop :=
  size t = s /\ wf t.

(** [expand_data s tgt d]: the storage of shape [s] viewed at shape [tgt],
    every axis of length 1 in [s] being repeated. *)
Fixpoint expand_data (s tgt : list nat) (d : list R) : list R :=
  match s, tgt with
  | a :: s', b :: tgt' =>
      let sub := concat (map (expand_data s' tgt') (chunks a (numel s') d)) in
      if a =? b then sub else concat (repeat sub b)
  | _, _ => d
  end.

(** [tile_data s reps d]: axis [i] of the storage repeated [reps_i] times. *)
Fixpoint tile_data (s reps : list nat) (d : list R) : list R :=
  match s, reps with
  | a :: s', r :: reps' =>
      concat (repeat (concat (map (tile_data s' reps') (chunks a (numel s') d))) r)
  | _, _ => d
  end.

(** [Tensor.narrow(dim, start, length)]. *)
Definition narrow (t : tensor) (d start len : nat) : result tensor :=
  match nth_error (size t) d with
  | None => Raise TorchError
  | Some m =>
      if start + len <=? m then
        let outer := numel (firstn d (size t)) in
        let inner := numel (skipn (S d) (size t)) in
        Ok (mkT (firstn d (size t) ++ len :: skipn (S d) (size t))
                (concat (map (fun c => firstn (len * inner) (skipn (start * inner) c))
                             (chunks outer (m * inner) (data t)))))
      else Raise TorchError
  end.

Definition same_except (d : nat) (s1 s2 : list nat) : bool :=
  list_eqb Nat.eqb (firstn d s1) (firstn d s2)
  && list_eqb Nat.eqb (skipn (S d) s1) (skipn (S d) s2)
  && (length s1 =? length s2).

(** [torch.cat(tensors, dim)]: the tensors agree on every axis but [dim].
    (The legacy exemption of empty rank-1 tensors is left out.) *)
Definition cat (ts : list tensor) (d : nat) : result tensor :=
  match ts with
  | [] => Raise TorchError
  | t0 :: rest =>
      if (d <? dim t0) && forallb (fun t => same_except d (size t0) (size t)) rest then
        let outer := numel (firstn d (size t0)) in
        let inner := numel (skipn (S d) (size t0)) in
        let parts := map (fun t => chunks outer (nth d (size t) 0 * inner) (data t)) ts in
        Ok (mkT (firstn d (size t0)
                   ++ list_sum (map (fun t => nth d (size t) 0) ts)
                   :: skipn (S d) (size t0))
                (concat (interleave outer parts)))
      else Raise TorchError
  end.

(** Unary minus and [torch.sqrt]. *)
Definition neg (t : tensor) : tensor := mkT (size t) (map sneg (data t)).
Definition sqrt (t : tensor) : tensor := mkT (size t) (map ssqrt (data t)).

(** Binary element-wise operators, with torch's broadcasting. *)
Definition pointwise (f : R -> R -> R) (a b : tensor) : result tensor :=
  let n := Nat.max (dim a) (dim b) in
  let sa := pad n (size a) in
  let sb := pad n (size b) in
  match bshape sa sb with
  | Some s => Ok (mkT s (map2 f (expand_data sa s (data a)) (expand_data sb s (data b))))
  | None => Raise TorchError
  end.

Definition add := pointwise sadd.
Definition sub := pointwise ssub.
Definition mul := pointwise smul.
Definition div := pointwise sdiv.

(** [tensor + c] for a Python number [c]. *)
Definition add_scalar (t : tensor) (c : R) : tensor :=
  mkT (size t) (map (fun x => sadd x c) (data t)).

(** [Tensor.expand_as(other)]. *)
Definition expand_as (t other : tensor) : result tensor :=
  let s := pad (dim other) (size t) in
  if (dim t <=? dim other) && expandable s (size other) then
    Ok (mkT (size other) (expand_data s (size other) (data t)))
  else Raise TorchError.

(** [Tensor.repeat(sizes)]. *)
Definition repeat_ (t : tensor) (reps : list nat) : result tensor :=
  if dim t <=? length reps then
    let s := pad (length reps) (size t) in
    Ok (mkT (map (fun p => fst p * snd p) (combine s reps)) (tile_data s reps (data t)))
  else Raise TorchError.

Definition rows (t : tensor) : list (list R) :=
  chunks (nth 0 (size t) 0) (nth 1 (size t) 0) (data t).

Definition columns (n : nat) (rs : list (list R)) : list (list R) :=
  map (fun j => map (fun r => nth j r szero) rs) (seq 0 n).

(** [Tensor.permute(1, 0)]: defined on matrices only. *)
Definition permute10 (t : tensor) : result tensor :=
  match size t with
  | [b; n] => Ok (mkT [n; b] (concat (columns n (rows t))))
  | _ => Raise TorchError
  end.

Definition dot (x y : list R) : R := fold_left sadd (map2 smul x y) szero.

Definition matprod (q r : nat) (xs : list (list R)) (b : tensor) : list R :=
  concat (map (fun x => map (dot x) (columns r (chunks q r (data b)))) xs).

(** [torch.mm]: both operands are matrices whose inner sizes agree. *)
Definition mm (a b : tensor) : result tensor :=
  match size a, size b with
  | [p; q], [q'; r] =>
      if q =? q' then Ok (mkT [p; r] (matprod q r (chunks p q (data a)) b))
      else Raise TorchError
  | _, _ => Raise TorchError
  end.

(** [torch.matmul] with a matrix on the right: the leading axes of the left
    operand are batch axes.  (The other operand ranks of [matmul] are not
    reached with matrix weights and are left out.) *)
Definition matmul (a b : tensor) : result tensor :=
  match size b with
  | [q'; r] =>
      match rev (size a) with
      | q :: p :: lead =>
          if q =? q' then
            Ok (mkT (rev (r :: p :: lead))
                    (matprod q r (chunks (numel (p :: lead)) q (data a)) b))
          else Raise TorchError
      | _ => Raise TorchError
      end
  | _ => Raise TorchError
  end.

(** [torch.addmm(bias, a, b)]: [bias], expanded to the product's shape,
    plus [a @ b]. *)
Definition addmm (bias a b : tensor) : result tensor :=
  p <- mm a b ;;
  e <- expand_as bias p ;;
  Ok (mkT (size p) (map2 sadd (data e) (data p))).

(** [Tensor.sum(0)] (also written [sum(dim=0)]). *)
Definition sum0 (t : tensor) : tensor :=
  match size t with
  | [] => t
  | d0 :: rest =>
      mkT rest (fold_left (map2 sadd) (chunks d0 (numel rest) (data t))
                          (repeat szero (numel rest)))
  end.

(** [Tensor.squeeze(0)]: drops the first axis when its length is 1. *)
Definition squeeze0 (t : tensor) : tensor :=
  match size t with
  | 1 :: rest => mkT rest (data t)
  | _ => t
  end.

End Tensors.

(** ** The functions of [quaternionops.py] *)

Section QuaternionOps.
Context {R : Type} {SR : Scalar R}.

Local Abbreviation tensor := (@tensor R).

(** [input.size()[-1]]. *)
Definition last_size (t : tensor) : nat := last (size t) 0.

Definition check_input (input : tensor) : result unit :=
  if negb ((dim input =? 2) || (dim input =? 3)) then
    Raise (DimError (dim input))
  else
    let nb_hidden := last_size input in
    if negb (nb_hidden mod 4 =? 0) then Raise (Div4Error nb_hidden)
    else Ok tt.

(** *** Getters

    After [check_input] the rank is 2 or 3, so the second test of each
    getter ([elif input.dim() == 3] in [get_r], [if input.dim() == 3] in
    the others) is the other branch of the first. *)

Definition get_r (input : tensor) : result tensor :=
  check_input input ;;;
  let nb_hidden := last_size input in
  if dim input =? 2 then narrow input 1 0 (nb_hidden / 4)
  else narrow input 2 0 (nb_hidden / 4).

Definition get_i (input : tensor) : result tensor :=
  check_input input ;;;
  let nb_hidden := last_size input in
  if dim input =? 2 then narrow input 1 (nb_hidden / 4) (nb_hidden / 4)
  else narrow input 2 (nb_hidden / 4) (nb_hidden / 4).

Definition get_j (input : tensor) : result tensor :=
  check_input input ;;;
  let nb_hidden := last_size input in
  if dim input =? 2 then narrow input 1 (nb_hidden / 2) (nb_hidden / 4)
  else narrow input 2 (nb_hidden / 2) (nb_hidden / 4).

Definition get_k (input : tensor) : result tensor :=
  check_input input ;;;
  let nb_hidden := last_size input in
  if dim input =? 2 then narrow input 1 (nb_hidden - nb_hidden / 4) (nb_hidden / 4)
  else narrow input 2 (nb_hidden - nb_hidden / 4) (nb_hidden / 4).

(** [r * r + i * i + j * j + k * k], in Python's order of evaluation. *)
Definition sum_of_squares (r i j k : tensor) : result tensor :=
  rr <- mul r r ;;
  ii <- mul i i ;;
  s1 <- add rr ii ;;
  jj <- mul j j ;;
  s2 <- add s1 jj ;;
  kk <- mul k k ;;
  add s2 kk.

Definition get_modulus (input : tensor) (vector_form : bool) : result tensor :=
  check_input input ;;;
  r <- get_r input ;;
  i <- get_i input ;;
  j <- get_j input ;;
  k <- get_k input ;;
  if vector_form then
    s <- sum_of_squares r i j k ;;
    Ok (sqrt s)
  else
    s <- sum_of_squares r i j k ;;
    Ok (sqrt (sum0 s)).

Definition get_normalized (input : tensor) (eps : R) : result tensor :=
  check_input input ;;;
  data_modulus <- get_modulus input false ;;
  data_modulus_repeated <-
    (if dim input =? 2 then repeat_ data_modulus [1; 4]
     else repeat_ data_modulus [1; 1; 4]) ;;
  e <- expand_as data_modulus_repeated input ;;
  div input (add_scalar e eps).

(** *** The linear operator *)

Definition quaternion_linear (input r_weight i_weight j_weight k_weight : tensor)
    (bias : option tensor) : result tensor :=
  cat_kernels_4_r <- cat [r_weight; neg i_weight; neg j_weight; neg k_weight] 0 ;;
  cat_kernels_4_i <- cat [i_weight; r_weight; neg k_weight; j_weight] 0 ;;
  cat_kernels_4_j <- cat [j_weight; k_weight; r_weight; neg i_weight] 0 ;;
  cat_kernels_4_k <- cat [k_weight; neg j_weight; i_weight; r_weight] 0 ;;
  cat_kernels_4_quaternion <-
    cat [cat_kernels_4_r; cat_kernels_4_i; cat_kernels_4_j; cat_kernels_4_k] 1 ;;
  if dim input =? 2 then
    match bias with
    | Some b => addmm b input cat_kernels_4_quaternion
    | None => mm input cat_kernels_4_quaternion
    end
  else
    output <- matmul input cat_kernels_4_quaternion ;;
    match bias with
    | Some b => add output b
    | None => Ok output
    end.

(** The six inputs of the operator, in the order of [forward]'s arguments
    and of [backward]'s returned tuple. *)
Inductive slot : Type :=
| SInput | SRWeight | SIWeight | SJWeight | SKWeight | SBias.

(** [ctx.needs_input_grad], a tuple of six booleans. *)
Record needs : Type := mkNeeds {
  need0 : bool; need1 : bool; need2 : bool;
  need3 : bool; need4 : bool; need5 : bool
}.

Definition needs_of (n : needs) (s : slot) : bool :=
  match s with
  | SInput => need0 n
  | SRWeight => need1 n
  | SIWeight => need2 n
  | SJWeight => need3 n
  | SKWeight => need4 n
  | SBias => need5 n
  end.

Definition saved : Type :=
  (tensor * tensor * tensor * tensor * tensor * option tensor)%type.

Record context : Type := mkCtx {
  needs_input_grad : needs;
  saved_tensors : option saved
}.

Definition save_for_backward (ctx : context) (s : saved) : context :=
  mkCtx (needs_input_grad ctx) (Some s).

(** [QuaternionLinearFunction.forward]: the context after the call, and the
    value returned or the exception raised. *)
Definition forward (ctx : context)
    (input r_weight i_weight j_weight k_weight : tensor) (bias : option tensor)
    : context * result tensor :=
  let ctx := save_for_backward ctx (input, r_weight, i_weight, j_weight, k_weight, bias) in
  (ctx,
   check_input input ;;;
   cat_kernels_4_r <- cat [r_weight; neg i_weight; neg j_weight; neg k_weight] 0 ;;
   cat_kernels_4_i <- cat [i_weight; r_weight; neg k_weight; j_weight] 0 ;;
   cat_kernels_4_j <- cat [j_weight; k_weight; r_weight; neg i_weight] 0 ;;
   cat_kernels_4_k <- cat [k_weight; neg j_weight; i_weight; r_weight] 0 ;;
   cat_kernels_4_quaternion <-
     cat [cat_kernels_4_r; cat_kernels_4_i; cat_kernels_4_j; cat_kernels_4_k] 1 ;;
   if dim input =? 2 then
     match bias with
     | Some b => addmm b input cat_kernels_4_quaternion
     | None => mm input cat_kernels_4_quaternion
     end
   else
     output <- matmul input cat_kernels_4_quaternion ;;
     match bias with
     | Some b => add output b
     | None => Ok output
     end).

(** The tuple [backward] returns; [None] is Python's [None]. *)
Record grads : Type := mkGrads {
  grad_input : option tensor;
  grad_weight_r : option tensor;
  grad_weight_i : option tensor;
  grad_weight_j : option tensor;
  grad_weight_k : option tensor;
  grad_bias : option tensor
}.

Definition grad_of (g : grads) (s : slot) : option tensor :=
  match s with
  | SInput => grad_input g
  | SRWeight => grad_weight_r g
  | SIWeight => grad_weight_i g
  | SJWeight => grad_weight_j g
  | SKWeight => grad_weight_k g
  | SBias => grad_bias g
  end.

Definition is_tensor (o : option tensor) : bool :=
  match o with Some _ => true | None => false end.

(** [QuaternionLinearFunction.backward].  Unpacking [ctx.saved_tensors]
    fails when no forward call filled it. *)
Definition backward (ctx : context) (grad_output : tensor) : result grads :=
  match saved_tensors ctx with
  | None => Raise UnpackError
  | Some (input, r_weight, i_weight, j_weight, k_weight, bias) =>
      input_r <- cat [r_weight; neg i_weight; neg j_weight; neg k_weight] 0 ;;
      input_i <- cat [i_weight; r_weight; neg k_weight; j_weight] 0 ;;
      input_j <- cat [j_weight; k_weight; r_weight; neg i_weight] 0 ;;
      input_k <- cat [k_weight; neg j_weight; i_weight; r_weight] 0 ;;
      kernels <- cat [input_r; input_i; input_j; input_k] 1 ;;
      cat_kernels_4_quaternion_T <- permute10 kernels ;;

      r <- get_r input ;;
      i <- get_i input ;;
      j <- get_j input ;;
      k <- get_k input ;;
      input_r <- cat [r; neg i; neg j; neg k] 0 ;;
      input_i <- cat [i; r; neg k; j] 0 ;;
      input_j <- cat [j; k; r; neg i] 0 ;;
      input_k <- cat [k; neg j; i; r] 0 ;;
      input_mat <- cat [input_r; input_i; input_j; input_k] 1 ;;

      r <- get_r grad_output ;;
      i <- get_i grad_output ;;
      j <- get_j grad_output ;;
      k <- get_k grad_output ;;
      input_r <- cat [r; i; j; k] 1 ;;
      input_i <- cat [neg i; r; k; neg j] 1 ;;
      input_j <- cat [neg j; neg k; r; i] 1 ;;
      input_k <- cat [neg k; j; neg i; r] 1 ;;
      grad_mat <- cat [input_r; input_i; input_j; input_k] 0 ;;

      grad_input <-
        (if need0 (needs_input_grad ctx) then
           g <- mm grad_output cat_kernels_4_quaternion_T ;; Ok (Some g)
         else Ok None) ;;
      grad_weights <-
        (if need1 (needs_input_grad ctx) then
           grad_mat_T <- permute10 grad_mat ;;
           prod <- mm grad_mat_T input_mat ;;
           grad_weight <- permute10 prod ;;
           let unit_size_x := nth 0 (size r_weight) 0 in
           let unit_size_y := nth 1 (size r_weight) 0 in
           top <- narrow grad_weight 0 0 unit_size_x ;;
           grad_weight_r <- narrow top 1 0 unit_size_y ;;
           top <- narrow grad_weight 0 0 unit_size_x ;;
           grad_weight_i <- narrow top 1 unit_size_y unit_size_y ;;
           top <- narrow grad_weight 0 0 unit_size_x ;;
           grad_weight_j <- narrow top 1 (unit_size_y * 2) unit_size_y ;;
           top <- narrow grad_weight 0 0 unit_size_x ;;
           grad_weight_k <- narrow top 1 (unit_size_y * 3) unit_size_y ;;
           Ok (Some grad_weight_r, Some grad_weight_i, Some grad_weight_j, Some grad_weight_k)
         else Ok (None, None, None, None)) ;;
      grad_bias <-
        (if need5 (needs_input_grad ctx) then
           Ok (Some (squeeze0 (sum0 grad_output)))
         else Ok None) ;;
      let '(gr, gi, gj, gk) := grad_weights in
      Ok (mkGrads grad_input gr gi gj gk grad_bias)
  end.

(** *** Hamilton product *)

Definition hamilton_product (q0 q1 : tensor) : result tensor :=
  q1_r <- get_r q1 ;;
  q1_i <- get_i q1 ;;
  q1_j <- get_j q1 ;;
  q1_k <- get_k q1 ;;

  r_base <- mul q0 q1 ;;
  a <- get_r r_base ;;
  b <- get_i r_base ;;
  ab <- sub a b ;;
  c <- get_j r_base ;;
  abc <- sub ab c ;;
  d <- get_k r_base ;;
  r <- sub abc d ;;

  perm <- cat [q1_i; q1_r; q1_k; q1_j] 1 ;;
  i_base <- mul q0 perm ;;
  a <- get_r i_base ;;
  b <- get_i i_base ;;
  ab <- add a b ;;
  c <- get_j i_base ;;
  abc <- add ab c ;;
  d <- get_k i_base ;;
  i <- sub abc d ;;

  perm <- cat [q1_j; q1_k; q1_r; q1_i] 1 ;;
  j_base <- mul q0 perm ;;
  a <- get_r j_base ;;
  b <- get_i j_base ;;
  ab <- sub a b ;;
  c <- get_j j_base ;;
  abc <- add ab c ;;
  d <- get_k j_base ;;
  j <- add abc d ;;

  perm <- cat [q1_k; q1_j; q1_i; q1_r] 1 ;;
  k_base <- mul q0 perm ;;
  a <- get_r k_base ;;
  b <- get_i k_base ;;
  ab <- add a b ;;
  c <- get_j k_base ;;
  abc <- sub ab c ;;
  d <- get_k k_base ;;
  k <- add abc d ;;

  cat [r; i; j; k] 1.

End QuaternionOps.

(** ** Weight initialisers *)

(** A source of random numbers: numpy's [RandomState]. *)
Class Generator (R : Type) : Type := {
  rng_state : Type;
  (** [RandomState(seed)] *)
  seeded : nat -> rng_state;
  (** one draw from the half-open unit interval, and the state after it *)
  random_sample : rng_state -> R * rng_state
}.

Section Initialisers.
Context {R : Type} {SR : Scalar R} {GR : Generator R}.
Variables (scos ssin : R -> R) (spi : R).

Local Abbreviation tensor := (@tensor R).

(** [uniform(low, high, n)]: [n] draws, each [low + (high - low) * sample]. *)
Fixpoint uniform (low high : R) (n : nat) (st : rng_state) : list R * rng_state :=
  match n with
  | 0 => ([], st)
  | S n' =>
      let (u, st1) := random_sample st in
      let (rest, st2) := uniform low high n' st1 in
      (sadd low (smul (ssub high low) u) :: rest, st2)
  end.

(** The literal [0.0001]: the double nearest to 1/10000, which the
    correctly rounded division returns. *)
Definition literal_1e_4 : R := sdiv sone (sof_Z 10000).

(** [v[i] /= norm]. *)
Fixpoint div_at (i : nat) (norm : R) (v : list R) : list R :=
  match v, i with
  | [], _ => []
  | x :: v', 0 => sdiv x norm :: v'
  | x :: v', S i' => x :: div_at i' norm v'
  end.

Definition square (x : R) : R := smul x x.

Definition unitary_init (in_features out_features : nat) (rng : rng_state)
    (criterion : String.string) (np_random : rng_state)
    : result (tensor * tensor * tensor * tensor) * rng_state :=
  match
    (if String.eqb criterion "glorot"%string then
       Ok (sdiv sone (ssqrt (sof_Z (Z.of_nat (2 * (in_features + out_features))))))
     else if String.eqb criterion "he"%string then
       Ok (sdiv sone (ssqrt (sof_Z (Z.of_nat (2 * in_features)))))
     else Raise (ValueError criterion))
  with
  | Raise e => (Raise e, np_random)
  | Ok s =>
      let kernel_shape := [in_features; out_features] in
      let number_of_weights := numel kernel_shape in
      let (v_r, st1) := uniform szero sone number_of_weights np_random in
      let (v_i, st2) := uniform szero sone number_of_weights st1 in
      let (v_j, st3) := uniform szero sone number_of_weights st2 in
      let (v_k, st4) := uniform szero sone number_of_weights st3 in
      let '(v_r, v_i, v_j, v_k) :=
        fold_left
          (fun '(v_r, v_i, v_j, v_k) i =>
             let norm :=
               sadd (ssqrt (sadd (sadd (sadd (square (nth i v_r szero))
                                             (square (nth i v_i szero)))
                                       (square (nth i v_j szero)))
                                 (square (nth i v_k szero))))
                    literal_1e_4 in
             (div_at i norm v_r, div_at i norm v_i,
              div_at i norm v_j, div_at i norm v_k))
          (seq 0 number_of_weights) (v_r, v_i, v_j, v_k) in
      let weight_r := mkT kernel_shape (map (fun x => smul x s) v_r) in
      let weight_i := mkT kernel_shape (map (fun x => smul x s) v_i) in
      let weight_j := mkT kernel_shape (map (fun x => smul x s) v_j) in
      let weight_k := mkT kernel_shape (map (fun x => smul x s) v_k) in
      (Ok (weight_r, weight_i, weight_j, weight_k), st4)
  end.

Definition quaternion_init (in_features out_features : nat) (rng : rng_state)
    (criterion : String.string) (np_random : rng_state)
    : result (tensor * tensor * tensor * tensor) * rng_state :=
  match
    (if String.eqb criterion "glorot"%string then
       Ok (sdiv sone (ssqrt (sof_Z (Z.of_nat (2 * (in_features + out_features))))))
     else if String.eqb criterion "he"%string then
       Ok (sdiv sone (ssqrt (sof_Z (Z.of_nat (2 * in_features)))))
     else Raise (ValueError criterion))
  with
  | Raise e => (Raise e, np_random)
  | Ok s =>
      let rng := seeded 123 in
      let kernel_shape := [in_features; out_features] in
      let number_of_weights := numel kernel_shape in
      let (v_i, st1) := uniform szero sone number_of_weights np_random in
      let (v_j, st2) := uniform szero sone number_of_weights st1 in
      let (v_k, st3) := uniform szero sone number_of_weights st2 in
      let '(v_i, v_j, v_k) :=
        fold_left
          (fun '(v_i, v_j, v_k) i =>
             let norm :=
               sadd (ssqrt (sadd (sadd (square (nth i v_i szero))
                                       (square (nth i v_j szero)))
                                 (square (nth i v_k szero))))
                    literal_1e_4 in
             (div_at i norm v_i, div_at i norm v_j, div_at i norm v_k))
          (seq 0 number_of_weights) (v_i, v_j, v_k) in
      let (modulus, rng1) := uniform (sneg s) s number_of_weights rng in
      let (phase, rng2) := uniform (sneg spi) spi number_of_weights rng1 in
      let weight_r := mkT kernel_shape (map2 smul modulus (map scos phase)) in
      let weight_i :=
        mkT kernel_shape (map2 smul (map2 smul modulus v_i) (map ssin phase)) in
      let weight_j :=
        mkT kernel_shape (map2 smul (map2 smul modulus v_j) (map ssin phase)) in
      let weight_k :=
        mkT kernel_shape (map2 smul (map2 smul modulus v_k) (map ssin phase)) in
      (Ok (weight_r, weight_i, weight_j, weight_k), st3)
  end.

End Initialisers.

(** A linear congruential generator standing for numpy's Mersenne Twister. *)
#[export] Instance lcg : Generator float := {|
  rng_state := Z;
  seeded := Z.of_nat;
  random_sample := fun x =>
    let x' := ((1103515245 * x + 12345) mod 2147483648)%Z in
    (PrimFloat.div (PrimFloat.of_uint63 (Uint63.of_Z x')) 2147483648%float, x')
|}.

(** ** The torch primitives of [LinearFunction] *)

Section MoreTensors.
Context {R : Type} {SR : Scalar R}.

Local Abbreviation tensor := (@tensor R).

(** [Tensor.t()]: the transpose of a matrix; a tensor of rank 0 or 1 is
    returned as it is. *)
Definition t_ (x : tensor) : result tensor :=
  match size x with
  | [] | [_] => Ok x
  | [_; _] => permute10 x
  | _ => Raise TorchError
  end.

(** [Tensor.unsqueeze(0)]. *)
Definition unsqueeze0 (x : tensor) : tensor := mkT (1 :: size x) (data x).

(** [Tensor.sum(1)].  (Below rank 2 torch raises an IndexError, filed here
    with the other errors of the primitives.) *)
Definition sum1 (x : tensor) : result tensor :=
  match size x with
  | d0 :: d1 :: rest =>
      Ok (mkT (d0 :: rest)
              (concat (map (fun c => fold_left (map2 sadd) (chunks d1 (numel rest) c)
                                               (repeat szero (numel rest)))
                           (chunks d0 (d1 * numel rest) (data x)))))
  | _ => Raise TorchError
  end.

(** [Tensor.permute(0, 2, 1)]: defined at rank 3 only. *)
Definition permute021 (x : tensor) : result tensor :=
  match size x with
  | [b; m; n] =>
      Ok (mkT [b; n; m]
              (concat (map (fun c => concat (columns n (chunks m n c)))
                           (chunks b (m * n) (data x)))))
  | _ => Raise TorchError
  end.

(** [Tensor.matmul] at every rank: a vector on the left is a row, one on
    the right a column, and that axis is dropped from the result; the axes
    before the last two are batch axes and broadcast. *)
Definition matmul_nd (a b : tensor) : result tensor :=
  match size a, size b with
  | [], _ | _, [] => Raise TorchError
  | _, _ =>
      let sa := if dim a =? 1 then 1 :: size a else size a in
      let sb := if dim b =? 1 then size b ++ [1] else size b in
      match rev sa, rev sb with
      | q :: p :: batch_a, r :: q' :: batch_b =>
          let n := Nat.max (length batch_a) (length batch_b) in
          let ba := pad n (rev batch_a) in
          let bb := pad n (rev batch_b) in
          match bshape ba bb with
          | Some bs =>
              if q =? q' then
                let da := expand_data (ba ++ [p * q]) (bs ++ [p * q]) (data a) in
                let db := expand_data (bb ++ [q * r]) (bs ++ [q * r]) (data b) in
                Ok (mkT (bs ++ (if dim a =? 1 then [] else [p])
                            ++ (if dim b =? 1 then [] else [r]))
                        (concat (map (fun xy => matprod q r (chunks p q (fst xy))
                                                        (mkT [q; r] (snd xy)))
                                     (combine (chunks (numel bs) (p * q) da)
                                              (chunks (numel bs) (q * r) db)))))
              else Raise TorchError
          | None => Raise TorchError
          end
      | _, _ => Raise TorchError
      end
  end.

(** [output += x]: the sum, which must keep the shape of [output]. *)
Definition iadd (output x : tensor) : result tensor :=
  r <- add output x ;;
  if list_eqb Nat.eqb (size r) (size output) then Ok r else Raise TorchError.

End MoreTensors.

(** ** [LinearFunction] *)

Module LinearFunction.
Section Embedding.
Context {R : Type} {SR : Scalar R}.

Local Abbreviation tensor := (@tensor R).

(** [ctx.needs_input_grad], a tuple of three booleans. *)
Record needs : Type := mkNeeds { need0 : bool; need1 : bool; need2 : bool }.

Definition saved : Type := (tensor * tensor * option tensor)%type.

Record context : Type := mkCtx {
  needs_input_grad : needs;
  saved_tensors : option saved
}.

Definition save_for_backward (ctx : context) (s : saved) : context :=
  mkCtx (needs_input_grad ctx) (Some s).

Definition forward (ctx : context) (input weight : tensor) (bias : option tensor)
    : context * result tensor :=
  let ctx := save_for_backward ctx (input, weight, bias) in
  (ctx,
   if dim input =? 3 then
     weight_t <- t_ weight ;;
     output <- matmul_nd input weight_t ;;
     match bias with
     | Some b => e <- expand_as (unsqueeze0 b) output ;; iadd output e
     | None => Ok output
     end
   else
     weight_t <- t_ weight ;;
     output <- mm input weight_t ;;
     match bias with
     | Some b => e <- expand_as (unsqueeze0 b) output ;; iadd output e
     | None => Ok output
     end).

Record grads : Type := mkGrads {
  grad_input : option tensor;
  grad_weight : option tensor;
  grad_bias : option tensor
}.

Definition backward (ctx : context) (grad_output : tensor) : result grads :=
  match saved_tensors ctx with
  | None => Raise UnpackError
  | Some (input, weight, bias) =>
      if dim input =? 3 then
        grad_input <-
          (if need0 (needs_input_grad ctx) then
             p <- matmul_nd grad_output weight ;; Ok (Some (sum0 p))
           else Ok None) ;;
        grad_weight <-
          (if need1 (needs_input_grad ctx) then
             g <- permute021 grad_output ;;
             p <- matmul_nd g input ;;
             Ok (Some (sum0 p))
           else Ok None) ;;
        grad_bias <-
          (if is_tensor bias && need2 (needs_input_grad ctx) then
             s <- sum1 grad_output ;; Ok (Some (squeeze0 (sum0 s)))
           else Ok None) ;;
        Ok (mkGrads grad_input grad_weight grad_bias)
      else
        grad_input <-
          (if need0 (needs_input_grad ctx) then
             p <- mm grad_output weight ;; Ok (Some p)
           else Ok None) ;;
        grad_weight <-
          (if need1 (needs_input_grad ctx) then
             g <- t_ grad_output ;;
             p <- mm g input ;;
             Ok (Some p)
           else Ok None) ;;
        grad_bias <-
          (if is_tensor bias && need2 (needs_input_grad ctx) then
             Ok (Some (squeeze0 (sum0 grad_output)))
           else Ok None) ;;
        Ok (mkGrads grad_input grad_weight grad_bias)
  end.

End Embedding.
End LinearFunction.

(** ** Dropout helpers and [affect_init] *)

(** The exceptions of these functions: those of [exn], and the ones Python
    raises for a name the module never defines, for a list index out of
    range, and for the [raise] statements of the helpers. *)
Inductive pyexn : Type :=
| Earlier (e : exn)
| NameError (name : String.string)
    (* NameError: name ... is not defined *)
| IndexError
    (* IndexError: list index out of range *)
| OperationError (operation : String.string)
    (* Exception: create_dropout_mask accepts only 'linear'. *)
| DropoutTypeError (dropout_type : String.string)
    (* Exception: dropout_type accepts only ... *)
| BinomialError
    (* ValueError of [rng.binomial] on a probability outside [0, 1] *)
| SizeError (r i j k : list nat)
    (* ValueError: The real and imaginary weights should have the same size. *)
| MatrixError (d : nat)
    (* Exception: affect_init accepts only matrices. *).

Inductive outcome (A : Type) : Type :=
| Return (a : A)
| Throw (e : pyexn).

Arguments Return {A} a.
Arguments Throw {A} e.

Definition lift {A : Type} (m : result A) : outcome A :=
  match m with
  | Ok a => Return a
  | Raise e => Throw (Earlier e)
  end.

(** [rng.binomial(n=1, p, size)]: the draws, or [None] where numpy rejects
    [p], and the state of [rng] after the call. *)
Class Binomial (R : Type) {GR : Generator R} : Type := {
  binomial : R -> nat -> rng_state -> option (list Z) * rng_state
}.

Section Dropout.
Context {R : Type} {SR : Scalar R} {GR : Generator R} {BR : @Binomial R GR}.

Local Abbreviation tensor := (@tensor R).

(** [as_type] only selects the element type of the mask, which the model
    does not distinguish. *)
Definition create_dropout_mask (dropout_p : R) (size : list nat) (rng : rng_state)
    (operation : String.string) : outcome tensor * rng_state :=
  if String.eqb operation "linear"%string then
    match binomial (ssub sone dropout_p) (numel size) rng with
    | (Some mask, rng') => (Return (mkT size (map sof_Z mask)), rng')
    | (None, rng') => (Throw BinomialError, rng')
    end
  else (Throw (OperationError operation), rng).

(** [get_real] and [get_imag] are defined nowhere in the module. *)
Definition apply_quaternion_mask (input mask : tensor)
    (dropout_type operation : String.string) : outcome tensor :=
  if String.eqb dropout_type "quaternion"%string then Throw (NameError "get_real"%string)
  else if String.eqb dropout_type "regular"%string then lift (mul input mask)
  else Throw (DropoutTypeError dropout_type).

(** [apply_complex_mask] is defined nowhere in the module either. *)
Definition apply_quaternion_dropout (input : tensor) (dropout_p : R) (rng : rng_state)
    (do_dropout : bool) (dropout_type operation : String.string)
    : outcome tensor * rng_state :=
  let s := size input in
  match
    (if String.eqb dropout_type "quaternion"%string then
       match s with
       | s0 :: s1 :: rest => Return (s0 :: s1 / 4 :: rest)
       | _ => Throw IndexError
       end
     else if negb (String.eqb dropout_type "regular"%string) then
       Throw (DropoutTypeError dropout_type)
     else Return s)
  with
  | Throw e => (Throw e, rng)
  | Return s =>
      match create_dropout_mask dropout_p s rng operation with
      | (Throw e, rng') => (Throw e, rng')
      | (Return mask, rng') =>
          if do_dropout then (Throw (NameError "apply_complex_mask"%string), rng')
          else (Return input, rng')
      end
  end.

End Dropout.

(** [t.type_as(other)] converts the elements of [t] to the element type of
    [other] and keeps the shape; it is a no-op when the two types agree.
    [convert] is the conversion of one element, from the element type of
    the arrays the initialisers return (numpy's float64) to the element
    type of the weights. *)
Class TypeAs (R W : Type) : Type := {
  convert : R -> W
}.

Definition type_as {R W : Type} {C : TypeAs R W} (t : @tensor R) (other : @tensor W)
    : @tensor W :=
  mkT (size t) (map convert (data t)).

(** Weights of the element type of the arrays: nothing to convert. *)
Definition same_type (R : Type) : TypeAs R R := {| convert := fun x => x |}.

(** The binary32 value nearest to a binary64 one (ties to even, overflow to
    an infinity), written as the binary64 value equal to it. *)
Definition float32_of (x : float) : float :=
  match Prim2SF x with
  | S754_finite s m e =>
      SF2Prim (binary_normalize 24 128 (if s then Z.neg m else Z.pos m) e s)
  | _ => x
  end.

(** [torch.FloatTensor] weights. *)
Definition to_float32 : TypeAs float float := {| convert := float32_of |}.

Section Initialisation.
Context {R W : Type} {GR : Generator R} {C : TypeAs R W}.

(** [affect_init]: the new [data] of the four weights, and the state of the
    global [np.random] after the call.  [torch.from_numpy] keeps shape and
    elements. *)
Definition affect_init (r_weight i_weight j_weight k_weight : @tensor W)
    (init_func : nat -> nat -> rng_state -> String.string -> rng_state
                 -> result (@tensor R * @tensor R * @tensor R * @tensor R) * rng_state)
    (rng : rng_state) (init_criterion : String.string) (np_random : rng_state)
    : outcome (@tensor W * @tensor W * @tensor W * @tensor W) * rng_state :=
  if negb (list_eqb Nat.eqb (size r_weight) (size i_weight))
     || negb (list_eqb Nat.eqb (size r_weight) (size j_weight))
     || negb (list_eqb Nat.eqb (size r_weight) (size k_weight)) then
    (Throw (SizeError (size r_weight) (size i_weight) (size j_weight) (size k_weight)),
     np_random)
  else if negb (dim r_weight =? 2) then (Throw (MatrixError (dim r_weight)), np_random)
  else
    match init_func (nth 0 (size r_weight) 0) (nth 1 (size r_weight) 0)
                    rng init_criterion np_random with
    | (Raise e, st) => (Throw (Earlier e), st)
    | (Ok (r, i, j, k), st) =>
        (Return (type_as r r_weight, type_as i i_weight,
                 type_as j j_weight, type_as k k_weight), st)
    end.

End Initialisation.

(** Bernoulli draws from the stand-in generator: 1 when the sample is
    below [p]. *)
#[export] Instance coin : @Binomial float lcg := {|
  binomial := fun p n st =>
    if (PrimFloat.leb 0 p && PrimFloat.leb p 1)%bool then
      let (us, st') := uniform 0%float 1%float n st in
      (Some (map (fun u => if PrimFloat.ltb u p then 1%Z else 0%Z) us), st')
    else (None, st)
|}.

(** * Vocabulary of the properties *)

Unset Implicit Arguments.

Section Vocabulary.
Context {R : Type} {SR : Scalar R}.

Local Abbreviation tensor := (@tensor R).

(** The shapes [check_input] accepts. *)
Definition valid_shape (t : tensor) : Prop :=
  (dim t = 2 \/ dim t = 3) /\ last_size t mod 4 = 0.

(** A quaternion tensor: rank 2 or 3, last axis of length [4 * H]. *)
Definition quaternion_shape (pre : list nat) (H : nat) (t : tensor) : Prop :=
  size t = pre ++ [4 * H] /\ (length pre = 1 \/ length pre = 2).

(** [slice start len]: the part of a row a component keeps. *)
Definition slice (start len : nat) (c : list R) : list R :=
  firstn len (skipn start c).

(** Component number [q] (0 for r, ..., 3 for k) of a quaternion tensor:
    from every row, the [H] elements at offset [q * H]. *)
Definition component (pre : list nat) (H q : nat) (t : tensor) : tensor :=
  mkT (pre ++ [H])
      (concat (map (slice (q * H) H) (chunks (numel pre) (4 * H) (data t)))).

(** [ew f a b]: [f] applied position by position. *)
Definition ew (f : R -> R -> R) (a b : tensor) : tensor :=
  mkT (size a) (map2 f (data a) (data b)).

(** [join4 pre H a b c d]: the tensor whose four components, of width [H],
    are [a], [b], [c] and [d]. *)
Definition join4 (pre : list nat) (H : nat) (a b c d : tensor) : tensor :=
  mkT (pre ++ [4 * H])
      (concat (interleave (numel pre)
         [chunks (numel pre) H (data a); chunks (numel pre) H (data b);
          chunks (numel pre) H (data c); chunks (numel pre) H (data d)])).

(** The four component formulas of the product, as the specification writes
    them, [x * y] and [x + y] being element-wise. *)
Definition spec_hamilton_r (r0 i0 j0 k0 r1 i1 j1 k1 : tensor) : tensor :=
  ew ssub (ew ssub (ew ssub (ew smul r0 r1) (ew smul i0 i1)) (ew smul j0 j1))
          (ew smul k0 k1).

Definition spec_hamilton_i (r0 i0 j0 k0 r1 i1 j1 k1 : tensor) : tensor :=
  ew ssub (ew sadd (ew sadd (ew smul r0 i1) (ew smul i0 r1)) (ew smul j0 k1))
          (ew smul k0 j1).

Definition spec_hamilton_j (r0 i0 j0 k0 r1 i1 j1 k1 : tensor) : tensor :=
  ew sadd (ew sadd (ew ssub (ew smul r0 j1) (ew smul i0 k1)) (ew smul j0 r1))
          (ew smul k0 i1).

Definition spec_hamilton_k (r0 i0 j0 k0 r1 i1 j1 k1 : tensor) : tensor :=
  ew sadd (ew ssub (ew sadd (ew smul r0 k1) (ew smul i0 j1)) (ew smul j0 i1))
          (ew smul k0 r1).

(** The identity quaternion at shape [B, 4H]: in every row, [H] ones
    followed by [3H] zeros. *)
Definition identity_row (H : nat) : list R :=
  repeat sone H ++ repeat szero H ++ repeat szero H ++ repeat szero H.

Definition identity_quaternion (B H : nat) : tensor :=
  mkT [B; 4 * H] (concat (repeat (identity_row H) B)).

(** [full B H v]: the [B x H] matrix whose entries all are [v]. *)
Definition full (B H : nat) (v : R) : tensor :=
  mkT ([B] ++ [H]) (concat (repeat (repeat v H) B)).

(** [r * r + i * i + j * j + k * k] for the components of a matrix. *)
Definition squares (B H : nat) (t : tensor) : tensor :=
  ew sadd (ew sadd (ew sadd
     (ew smul (component [B] H 0 t) (component [B] H 0 t))
     (ew smul (component [B] H 1 t) (component [B] H 1 t)))
     (ew smul (component [B] H 2 t) (component [B] H 2 t)))
     (ew smul (component [B] H 3 t) (component [B] H 3 t)).

(** The modulus reduced over the batch axis, as [get_modulus] computes it. *)
Definition batch_modulus (B H : nat) (t : tensor) : list R :=
  map ssqrt (fold_left (map2 sadd) (chunks B H (data (squares B H t)))
                       (repeat szero H)).

(** The divisor tensor of [get_normalized]: the batch modulus plus [eps],
    four times in every row. *)
Definition divisors (B H : nat) (t : tensor) (eps : R) : tensor :=
  mkT [B; 4 * H]
      (map (fun x => sadd x eps)
           (concat (repeat (concat (repeat (batch_modulus B H t) 4)) B))).

(** Element [b, c] of a matrix with rows of length [W]. *)
Definition entry (W : nat) (t : tensor) (b c : nat) : R :=
  nth (b * W + c) (data t) szero.

(** The specification's divisor for feature position [h]: over the rows [b]
    of the batch, the sum of r^2 + i^2 + j^2 + k^2 at position [h], its
    square root, plus [eps]. *)
Definition spec_quad (H : nat) (t : tensor) (b h : nat) : R :=
  sadd (sadd (sadd
    (smul (entry (4 * H) t b h) (entry (4 * H) t b h))
    (smul (entry (4 * H) t b (H + h)) (entry (4 * H) t b (H + h))))
    (smul (entry (4 * H) t b (2 * H + h)) (entry (4 * H) t b (2 * H + h))))
    (smul (entry (4 * H) t b (3 * H + h)) (entry (4 * H) t b (3 * H + h))).

Definition spec_divisor (B H : nat) (t : tensor) (eps : R) (h : nat) : R :=
  sadd (ssqrt (fold_left sadd (map (fun b => spec_quad H t b h) (seq 0 B)) szero))
       eps.

(** A matrix given by four rows of four blocks, in the specification's
    words: every row is concatenated horizontally, and the four rows are
    stacked vertically. *)
Definition stack_rows (row_r row_i row_j row_k : list tensor) : result tensor :=
  a <- cat row_r 1 ;;
  b <- cat row_i 1 ;;
  c <- cat row_j 1 ;;
  d <- cat row_k 1 ;;
  cat [a; b; c; d] 0.

(** The blocks of the two layouts, by block row [p] and block column [q]:
    the specification's, and the one [forward] builds, which is its block
    transpose. *)
Definition spec_blocks (r i j k : tensor) : list (list tensor) :=
  [[r; neg i; neg j; neg k];
   [i; r; neg k; j];
   [j; k; r; neg i];
   [k; neg j; i; r]].

Definition code_blocks (r i j k : tensor) : list (list tensor) :=
  [[r; i; j; k];
   [neg i; r; k; neg j];
   [neg j; neg k; r; i];
   [neg k; j; neg i; r]].

Definition block (table : list (list tensor)) (p q : nat) (d : tensor) : tensor :=
  nth q (nth p table []) d.

Definition stack_table (table : list (list tensor)) : result tensor :=
  stack_rows (nth 0 table []) (nth 1 table []) (nth 2 table []) (nth 3 table []).

(** The encoding as the specification lays it out, and as the code does. *)
Definition spec_encoding (r i j k : tensor) : result tensor :=
  stack_table (spec_blocks r i j k).

Definition code_encoding (r i j k : tensor) : result tensor :=
  stack_table (code_blocks r i j k).

(** Lines 122-126 of the source ([forward]), 93-97 ([quaternion_linear])
    and 152-156 ([backward]): four vertical concatenations, then a
    horizontal one. *)
Definition cat_kernels (r i j k : tensor) : result tensor :=
  cat_kernels_4_r <- cat [r; neg i; neg j; neg k] 0 ;;
  cat_kernels_4_i <- cat [i; r; neg k; j] 0 ;;
  cat_kernels_4_j <- cat [j; k; r; neg i] 0 ;;
  cat_kernels_4_k <- cat [k; neg j; i; r] 0 ;;
  cat [cat_kernels_4_r; cat_kernels_4_i; cat_kernels_4_j; cat_kernels_4_k] 1.

(** Row [n] of a storage of rows of length [W], and column [c] of a matrix
    with [K] rows of length [W]. *)
Definition row (W : nat) (t : tensor) (n : nat) : list R :=
  firstn W (skipn (n * W) (data t)).

Definition column (W K : nat) (t : tensor) (c : nat) : list R :=
  map (fun k => entry W t k c) (seq 0 K).

(** The last statements of [forward] and of [quaternion_linear]. *)
Definition apply_encoding (input E : tensor) (bias : option tensor) : result tensor :=
  if dim input =? 2 then
    match bias with
    | Some b => addmm b input E
    | None => mm input E
    end
  else
    output <- matmul input E ;;
    match bias with
    | Some b => add output b
    | None => Ok output
    end.

Definition bias_shaped (W : nat) (bias : option tensor) : Prop :=
  match bias with
  | Some b => has_shape [W] b
  | None => True
  end.

(** The bias term of element [c] of an output row: in front of the product
    when the input is a matrix ([addmm]), behind it when it has rank 3
    ([output + bias]). *)
Definition with_bias (batch_axes : nat) (bias : option tensor) (c : nat) (v : R) : R :=
  match bias with
  | None => v
  | Some b =>
      if batch_axes =? 1 then sadd (nth c (data b) szero) v
      else sadd v (nth c (data b) szero)
  end.

(** Lines 158-166 of the source: the matrix built from the saved input. *)
Definition input_encoding (input : tensor) : result tensor :=
  r <- get_r input ;;
  i <- get_i input ;;
  j <- get_j input ;;
  k <- get_k input ;;
  input_r <- cat [r; neg i; neg j; neg k] 0 ;;
  input_i <- cat [i; r; neg k; j] 0 ;;
  input_j <- cat [j; k; r; neg i] 0 ;;
  input_k <- cat [k; neg j; i; r] 0 ;;
  cat [input_r; input_i; input_j; input_k] 1.

(** Lines 168-176: the matrix built from the incoming gradient. *)
Definition grad_encoding (grad_output : tensor) : result tensor :=
  r <- get_r grad_output ;;
  i <- get_i grad_output ;;
  j <- get_j grad_output ;;
  k <- get_k grad_output ;;
  input_r <- cat [r; i; j; k] 1 ;;
  input_i <- cat [neg i; r; k; neg j] 1 ;;
  input_j <- cat [neg j; neg k; r; i] 1 ;;
  input_k <- cat [neg k; j; neg i; r] 1 ;;
  cat [input_r; input_i; input_j; input_k] 0.

(** Lines 180-187: the four weight gradients. *)
Definition weight_gradients (grad_mat input_mat r_weight : tensor)
    : result (tensor * tensor * tensor * tensor) :=
  grad_mat_T <- permute10 grad_mat ;;
  prod <- mm grad_mat_T input_mat ;;
  grad_weight <- permute10 prod ;;
  let unit_size_x := nth 0 (size r_weight) 0 in
  let unit_size_y := nth 1 (size r_weight) 0 in
  top <- narrow grad_weight 0 0 unit_size_x ;;
  grad_weight_r <- narrow top 1 0 unit_size_y ;;
  top <- narrow grad_weight 0 0 unit_size_x ;;
  grad_weight_i <- narrow top 1 unit_size_y unit_size_y ;;
  top <- narrow grad_weight 0 0 unit_size_x ;;
  grad_weight_j <- narrow top 1 (unit_size_y * 2) unit_size_y ;;
  top <- narrow grad_weight 0 0 unit_size_x ;;
  grad_weight_k <- narrow top 1 (unit_size_y * 3) unit_size_y ;;
  Ok (grad_weight_r, grad_weight_i, grad_weight_j, grad_weight_k).

(** The flag that gates each slot of the returned tuple: the four weight
    gradients are computed together, under the flag of [r_weight]. *)
Definition gate (s : slot) : slot :=
  match s with
  | SInput => SInput
  | SRWeight | SIWeight | SJWeight | SKWeight => SRWeight
  | SBias => SBias
  end.

End Vocabulary.

(** Outside [check_input], the module raises nothing of its own: every other
    exception comes from a torch primitive. *)
Definition torch_only {A : Type} (m : result A) : Prop :=
  forall e, m = Raise e -> e = TorchError.

Definition all_needed : needs := mkNeeds true true true true true true.

(** A batch of two quaternions, and one sequence of two quaternions. *)
Definition sample_matrix : @tensor Z := mkT [2; 4] [1; 2; 3; 4; 5; 6; 7; 8]%Z.

Definition sample_sequence : @tensor Z := mkT [1; 2; 4] [1; 2; 3; 4; 5; 6; 7; 8]%Z.

(** A single quaternion weight [r + i i + j j + k k], bias-free. *)
Definition saved_after_forward (flags : needs) (input : @tensor Z) : context :=
  fst (forward (mkCtx flags None) input
         (mkT [1; 1] [1%Z]) (mkT [1; 1] [10%Z])
         (mkT [1; 1] [100%Z]) (mkT [1; 1] [1000%Z]) None).

(** The gradient of the bias as the specification defines it. *)
Definition spec_grad_bias {R : Type} {SR : Scalar R} (grad_output : @tensor R)
    : @tensor R :=
  if dim grad_output =? 2 then sum0 grad_output else sum0 (sum0 grad_output).

(** ** Further vocabulary *)

(** The laws of a commutative ring, for the algebra of the Hamilton product
    and of the matrix products. *)
Class ScalarRing (R : Type) (SR : Scalar R) : Prop :=
  scalar_ring : ring_theory szero sone sadd smul ssub sneg (@eq R).

#[export] Instance Z_ring : @ScalarRing Z Z_scalar.
Proof. exact Zth. Qed.

Section FurtherVocabulary.
Context {R : Type} {SR : Scalar R}.

Local Abbreviation tensor := (@tensor R).

(** The tensor of shape [s] whose element at flat position [n] is [g n]. *)
Definition tab (s : list nat) (g : nat -> R) : tensor :=
  mkT s (map g (seq 0 (numel s))).

(** The matrix of quaternions whose every entry is [a + b i + c j + d k]. *)
Definition constant_quaternion (B H : nat) (a b c d : R) : tensor :=
  join4 [B] H (full B H a) (full B H b) (full B H c) (full B H d).

(** The modulus [get_modulus] reduces over the batch axis of a rank-3
    tensor: one value per sequence position and feature position. *)
Definition sequence_modulus (B S H : nat) (t : tensor) : list R :=
  map ssqrt (fold_left (map2 sadd) (chunks B (S * H) (data (squares (B * S) H t)))
                       (repeat szero (S * H))).

(** The divisor tensor of [get_normalized] on a rank-3 input. *)
Definition sequence_divisors (B S H : nat) (t : tensor) (eps : R) : tensor :=
  mkT [B; S; 4 * H]
      (map (fun x => sadd x eps)
           (concat (repeat (concat (map (fun row => concat (repeat row 4))
                                        (chunks S H (sequence_modulus B S H t)))) B))).

(** Matrix [b] of a batch of [m x n] matrices stored one after the other. *)
Definition batch (m n : nat) (t : tensor) (b : nat) : tensor :=
  mkT [m; n] (firstn (m * n) (skipn (b * (m * n)) (data t))).

(** The bias term of element [c] of an output row of [LinearFunction]:
    added behind the product. *)
Definition plus_bias (bias : option tensor) (c : nat) (v : R) : R :=
  match bias with
  | None => v
  | Some b => sadd v (nth c (data b) szero)
  end.

(** Element [n, c] of the product of [x], with rows of length [Q], and the
    [Q x W] matrix [w]. *)
Definition mdot (Q W : nat) (x w : tensor) (n c : nat) : R :=
  dot (row Q x n) (column W Q w c).

(** The dot product of column [g] of [a] and column [f] of [b], two
    matrices of [K] rows, of widths [G] and [F]: element [g, f] of
    [a^T . b]. *)
Definition cdot (K G F : nat) (a b : tensor) (g f : nat) : R :=
  dot (column G K a g) (column F K b f).

(** The dot product of row [n] of [a] and row [f] of [w], of width [G]:
    element [n, f] of [a . w^T]. *)
Definition rdot (G : nat) (a w : tensor) (n f : nat) : R :=
  dot (row G a n) (row G w f).

(** The divisor of [unitary_init] for one quadruple of draws: its norm plus
    the literal [0.0001]. *)
Definition unit_norm (a b c d : R) : R :=
  sadd (ssqrt (sadd (sadd (sadd (square a) (square b)) (square c)) (square d)))
       literal_1e_4.

(** The divisor of [quaternion_init] for one triple of draws. *)
Definition imaginary_norm (b c d : R) : R :=
  sadd (ssqrt (sadd (sadd (square b) (square c)) (square d))) literal_1e_4.

(** The state of an array [u] after the first [m] rounds of a
    normalisation loop: the elements below [m] are divided by their
    divisor, the others are the draws. *)
Definition normalised (norm : nat -> R) (m : nat) (u : list R) : list R :=
  map (fun idx => if idx <? m then sdiv (nth idx u szero) (norm idx)
                  else nth idx u szero)
      (seq 0 (length u)).

(** The scale [s] of a valid criterion. *)
Definition scale (criterion : String.string) (in_features out_features : nat) : R :=
  if String.eqb criterion "glorot"%string then
    sdiv sone (ssqrt (sof_Z (Z.of_nat (2 * (in_features + out_features)))))
  else sdiv sone (ssqrt (sof_Z (Z.of_nat (2 * in_features)))).

End FurtherVocabulary.

Definition valid_criterion (criterion : String.string) : Prop :=
  criterion = "glorot"%string \/ criterion = "he"%string.

(** The shape of the mask [apply_quaternion_dropout] draws. *)
Definition mask_shape (dropout_type : String.string) (s : list nat) : list nat :=
  if String.eqb dropout_type "quaternion"%string then
    match s with
    | s0 :: s1 :: rest => s0 :: s1 / 4 :: rest
    | _ => s
    end
  else s.

(** Three single quaternions, as 1 x 4 matrices, and a rank-4 input of one
    quaternion. *)
Definition sample_q0 : @tensor Z := mkT [1; 4] [1; 2; 3; 4]%Z.
Definition sample_q1 : @tensor Z := mkT [1; 4] [5; 6; 7; 8]%Z.
Definition sample_q2 : @tensor Z := mkT [1; 4] [1; 0; 2; 1]%Z.

Definition sample_rank4 : @tensor Z := mkT [1; 1; 1; 4] [1; 2; 3; 4]%Z.

(** For [LinearFunction]: a weight of two outputs over three inputs, a
    bias, a batch of two sequences of two inputs and a matrix of two
    inputs, and gradients of the matching shapes. *)
Definition sample_weight : @tensor Z := mkT [2; 3] [1; 0; 2; 0; 1; 1]%Z.

Definition sample_bias : @tensor Z := mkT [2] [100; 200]%Z.

Definition sample_inputs : @tensor Z :=
  mkT [2; 2; 3] [1; 2; 3; 4; 5; 6; 7; 8; 9; 10; 11; 12]%Z.

Definition sample_rows : @tensor Z := mkT [2; 3] [1; 2; 3; 4; 5; 6]%Z.

Definition sample_grads : @tensor Z := mkT [2; 2; 2] [1; 2; 3; 4; 5; 6; 7; 8]%Z.

Definition sample_grad_rows : @tensor Z := mkT [2; 2] [1; 2; 3; 4]%Z.

(** A context of [LinearFunction] after a forward call with
    [sample_weight] and [sample_bias]. *)
Definition linear_context (flags : LinearFunction.needs) (input : @tensor Z)
    : LinearFunction.context :=
  fst (LinearFunction.forward (LinearFunction.mkCtx flags None) input
         sample_weight (Some sample_bias)).

(** * Properties *)

(** ** Row-major storage *)

Section StorageFacts.
Context {A : Type}.
Implicit Types (l : list A) (cs : list (list A)).

Lemma chunks_length k n l : length (chunks k n l) = k.
Proof. revert l; induction k; intros; simpl; auto. Qed.

Lemma concat_chunks k n l : length l = k * n -> concat (chunks k n l) = l.
Proof.
  revert l; induction k as [|k IH]; intros l Hl; simpl in *.
  - destruct l; [reflexivity | discriminate].
  - rewrite IH.
    + apply firstn_skipn.
    + rewrite length_skipn; lia.
Qed.

Lemma chunks_concat n cs :
  Forall (fun c => length c = n) cs -> chunks (length cs) n (concat cs) = cs.
Proof.
  induction 1 as [|c cs Hc _ IH]; simpl; [reflexivity|].
  rewrite firstn_app, skipn_app, Hc, Nat.sub_diag.
  rewrite <- Hc at 1 3. rewrite firstn_all, skipn_all. simpl.
  rewrite app_nil_r, IH. reflexivity.
Qed.

Lemma chunks_Forall k n l :
  length l = k * n -> Forall (fun c => length c = n) (chunks k n l).
Proof.
  revert l; induction k as [|k IH]; intros l Hl; simpl in *; constructor.
  - rewrite length_firstn; lia.
  - apply IH. rewrite length_skipn; lia.
Qed.

Lemma chunks_app k1 k2 n l1 l2 :
  length l1 = k1 * n ->
  chunks (k1 + k2) n (l1 ++ l2) = chunks k1 n l1 ++ chunks k2 n l2.
Proof.
  revert l1; induction k1 as [|k1 IH]; intros l1 Hl; simpl in *.
  - destruct l1; [reflexivity | discriminate].
  - rewrite firstn_app, skipn_app.
    replace (n - length l1) with 0 by lia. simpl. rewrite app_nil_r.
    rewrite <- IH by (rewrite length_skipn; lia). reflexivity.
Qed.

Lemma chunks_one n l : length l = n -> chunks 1 n l = [l].
Proof. intros <-. simpl. rewrite firstn_all. reflexivity. Qed.

Lemma length_concat_uniform n cs :
  Forall (fun c => length c = n) cs -> length (concat cs) = length cs * n.
Proof.
  induction 1 as [|c cs Hc _ IH]; simpl; [reflexivity|].
  rewrite length_app; lia.
Qed.

Lemma zip_app_map (B : Type) (f g : B -> list A) (xs : list B) :
  zip_app (map f xs) (map g xs) = map (fun x => f x ++ g x) xs.
Proof.
  unfold zip_app. induction xs as [|x xs IH]; simpl; [reflexivity|].
  f_equal. exact IH.
Qed.

Lemma repeat_nil_map (B : Type) (xs : list B) :
  repeat (@nil A) (length xs) = map (fun _ => []) xs.
Proof. induction xs; simpl; congruence. Qed.

Lemma zip_app_cons c1 c2 cs1 cs2 :
  zip_app (c1 :: cs1) (c2 :: cs2) = (c1 ++ c2) :: zip_app cs1 cs2.
Proof. reflexivity. Qed.

Lemma zip_app_app (a1 a2 b1 b2 : list (list A)) :
  length a1 = length b1 ->
  zip_app (a1 ++ a2) (b1 ++ b2) = zip_app a1 b1 ++ zip_app a2 b2.
Proof.
  unfold zip_app. intros Hl.
  revert b1 Hl; induction a1 as [|x a1 IH]; intros [|y b1] Hl; try discriminate;
    simpl; [reflexivity|].
  f_equal. apply IH. simpl in Hl. lia.
Qed.

(** Interleaving four views of the same blocks is a block-wise append. *)
Lemma interleave_map4 (B : Type) (f1 f2 f3 f4 : B -> list A) (xs : list B) :
  interleave (length xs) [map f1 xs; map f2 xs; map f3 xs; map f4 xs]
  = map (fun x => f1 x ++ f2 x ++ f3 x ++ f4 x) xs.
Proof.
  unfold interleave; simpl. rewrite repeat_nil_map.
  rewrite !zip_app_map. apply map_ext. intros x.
  rewrite app_nil_r. reflexivity.
Qed.

Lemma list_eqb_refl (eqb : A -> A -> bool) l :
  (forall a, eqb a a = true) -> list_eqb eqb l l = true.
Proof. intros He; induction l; simpl; [reflexivity|]. rewrite He; auto. Qed.

Lemma map2_length f (x y : list A) :
  length (map2 f x y) = Nat.min (length x) (length y).
Proof. unfold map2. rewrite length_map, length_combine. reflexivity. Qed.

Lemma map2_app f (x1 x2 y1 y2 : list A) :
  length x1 = length y1 ->
  map2 f (x1 ++ x2) (y1 ++ y2) = map2 f x1 y1 ++ map2 f x2 y2.
Proof.
  unfold map2. revert y1; induction x1 as [|a x1 IH]; intros [|b y1] Hl;
    try discriminate; simpl; [reflexivity|].
  f_equal. apply IH. simpl in Hl. lia.
Qed.

Lemma map2_firstn f n (x y : list A) :
  firstn n (map2 f x y) = map2 f (firstn n x) (firstn n y).
Proof.
  unfold map2. revert x y; induction n as [|n IH]; intros [|a x] [|b y];
    simpl; try reflexivity.
  f_equal. apply IH.
Qed.

Lemma map2_skipn f n (x y : list A) :
  skipn n (map2 f x y) = map2 f (skipn n x) (skipn n y).
Proof.
  unfold map2. revert x y; induction n as [|n IH]; intros [|a x] [|b y];
    simpl; try reflexivity.
  - destruct (skipn n x); reflexivity.
  - apply IH.
Qed.
End StorageFacts.

Lemma numel_app (a b : list nat) : numel (a ++ b) = numel a * numel b.
Proof.
  induction a as [|x a IH]; simpl; [lia|]. rewrite IH. lia.
Qed.

Lemma nth_error_middle (pre post : list nat) m :
  nth_error (pre ++ m :: post) (length pre) = Some m.
Proof. rewrite nth_error_app2, Nat.sub_diag by lia. reflexivity. Qed.

Lemma nth_middle_nat (pre post : list nat) m :
  nth (length pre) (pre ++ m :: post) 0 = m.
Proof. rewrite app_nth2, Nat.sub_diag by lia. reflexivity. Qed.

Lemma firstn_prefix (pre rest : list nat) : firstn (length pre) (pre ++ rest) = pre.
Proof.
  rewrite firstn_app, firstn_all, Nat.sub_diag. simpl. apply app_nil_r.
Qed.

Lemma skipn_suffix (pre post : list nat) m :
  skipn (S (length pre)) (pre ++ m :: post) = post.
Proof.
  rewrite skipn_app, skipn_all2 by lia.
  replace (S (length pre) - length pre) with 1 by lia. reflexivity.
Qed.

Lemma last_snoc (pre : list nat) m : last (pre ++ [m]) 0 = m.
Proof. apply last_last. Qed.

(** The four quarters of a block of length [4 * H]. *)
Lemma quarters {A : Type} (H : nat) (c : list A) :
  length c = 4 * H ->
  firstn H (skipn 0 c) ++ firstn H (skipn H c)
    ++ firstn H (skipn (2 * H) c) ++ firstn H (skipn (3 * H) c) = c.
Proof.
  intros Hc. change (skipn 0 c) with c.
  transitivity (firstn H c ++ skipn H c); [|apply firstn_skipn].
  f_equal.
  transitivity (firstn H (skipn H c) ++ skipn H (skipn H c)); [|apply firstn_skipn].
  f_equal. rewrite skipn_skipn. replace (H + H) with (2 * H) by lia.
  transitivity (firstn H (skipn (2 * H) c) ++ skipn H (skipn (2 * H) c));
    [|apply firstn_skipn].
  f_equal. rewrite skipn_skipn. replace (H + 2 * H) with (3 * H) by lia.
  apply firstn_all2. rewrite length_skipn. lia.
Qed.

(** ** The torch primitives on well-formed operands *)

Section TensorFacts.
Context {R : Type} {SR : Scalar R}.

Local Abbreviation tensor := (@tensor R).

Lemma tensor_eta (t : tensor) : mkT (size t) (data t) = t.
Proof. destruct t; reflexivity. Qed.

(** [narrow] along an inner axis of length [m]. *)
Lemma narrow_axis (t : tensor) pre post m start len :
  size t = pre ++ m :: post ->
  start + len <= m ->
  narrow t (length pre) start len
  = Ok (mkT (pre ++ len :: post)
            (concat (map (fun c => firstn (len * numel post) (skipn (start * numel post) c))
                         (chunks (numel pre) (m * numel post) (data t))))).
Proof.
  intros Hs Hle. unfold narrow.
  rewrite Hs, nth_error_middle, firstn_prefix, skipn_suffix.
  destruct (Nat.leb_spec (start + len) m); [reflexivity | lia].
Qed.

(** [narrow] along the last axis: every row keeps [len] elements from
    position [start]. *)
Lemma narrow_last (t : tensor) pre m start len :
  size t = pre ++ [m] ->
  start + len <= m ->
  narrow t (length pre) start len
  = Ok (mkT (pre ++ [len])
            (concat (map (fun c => firstn len (skipn start c))
                         (chunks (numel pre) m (data t))))).
Proof.
  intros Hs Hle. rewrite (narrow_axis t pre [] m start len Hs Hle). simpl numel.
  rewrite !Nat.mul_1_r. reflexivity.
Qed.

Lemma same_except_middle pre post m m' :
  same_except (length pre) (pre ++ m :: post) (pre ++ m' :: post) = true.
Proof.
  unfold same_except.
  rewrite !firstn_prefix, !skipn_suffix, !length_app. simpl.
  rewrite !list_eqb_refl by apply Nat.eqb_refl.
  rewrite Nat.eqb_refl. reflexivity.
Qed.

(** [cat] of four tensors that agree outside the axis of concatenation. *)
Lemma cat4_axis (a b c d : tensor) pre post ma mb mc md :
  size a = pre ++ ma :: post ->
  size b = pre ++ mb :: post ->
  size c = pre ++ mc :: post ->
  size d = pre ++ md :: post ->
  cat [a; b; c; d] (length pre)
  = Ok (mkT (pre ++ (ma + (mb + (mc + (md + 0)))) :: post)
            (concat (interleave (numel pre)
               [chunks (numel pre) (ma * numel post) (data a);
                chunks (numel pre) (mb * numel post) (data b);
                chunks (numel pre) (mc * numel post) (data c);
                chunks (numel pre) (md * numel post) (data d)]))).
Proof.
  intros Ha Hb Hc Hd. unfold cat, dim. cbn [forallb map list_sum].
  rewrite Ha, Hb, Hc, Hd, !same_except_middle, !nth_middle_nat.
  rewrite firstn_prefix, skipn_suffix, length_app. cbn [length andb].
  rewrite (proj2 (Nat.ltb_lt _ _)) by lia.
  reflexivity.
Qed.

Lemma cat4_last (a b c d : tensor) pre ma mb mc md :
  size a = pre ++ [ma] ->
  size b = pre ++ [mb] ->
  size c = pre ++ [mc] ->
  size d = pre ++ [md] ->
  cat [a; b; c; d] (length pre)
  = Ok (mkT (pre ++ [ma + (mb + (mc + (md + 0)))])
            (concat (interleave (numel pre)
               [chunks (numel pre) ma (data a);
                chunks (numel pre) mb (data b);
                chunks (numel pre) mc (data c);
                chunks (numel pre) md (data d)]))).
Proof.
  intros Ha Hb Hc Hd. rewrite (cat4_axis a b c d pre [] ma mb mc md Ha Hb Hc Hd).
  simpl numel. rewrite !Nat.mul_1_r. reflexivity.
Qed.

(** The blocks of a well-formed tensor along its last axis. *)
Lemma rows_of_wf (t : tensor) pre m :
  size t = pre ++ [m] -> wf t ->
  length (data t) = numel pre * m.
Proof.
  unfold wf. intros -> ->. rewrite numel_app. simpl. lia.
Qed.

End TensorFacts.

(** ** Quaternion view: validation and components *)

Section QuaternionView.
Context {R : Type} {SR : Scalar R}.

Local Abbreviation tensor := (@tensor R).

Lemma check_input_cases (t : tensor) :
  (valid_shape t /\ check_input t = Ok tt)
  \/ (~ (dim t = 2 \/ dim t = 3) /\ check_input t = Raise (DimError (dim t)))
  \/ ((dim t = 2 \/ dim t = 3) /\ last_size t mod 4 <> 0
      /\ check_input t = Raise (Div4Error (last_size t))).
Proof.
  unfold valid_shape, check_input.
  destruct (Nat.eqb_spec (dim t) 2) as [E2|E2];
    [|destruct (Nat.eqb_spec (dim t) 3) as [E3|E3]]; cbn [orb negb].
  3: { right; left. split; [lia | reflexivity]. }
  all: destruct (Nat.eqb_spec (last_size t mod 4) 0) as [E4|E4]; cbn [negb];
    [left | right; right]; repeat split; auto.
Qed.

Lemma check_input_ok (t : tensor) : valid_shape t -> check_input t = Ok tt.
Proof.
  intros [Hd Hm].
  destruct (check_input_cases t) as [[_ E]|[[Hn _]|[_ [Hn _]]]]; tauto.
Qed.

Lemma check_input_raises (t : tensor) e :
  check_input t = Raise e -> is_shape_error e = true /\ ~ valid_shape t.
Proof.
  intros He.
  destruct (check_input_cases t) as [[_ E]|[[Hn E]|[_ [Hn E]]]];
    rewrite E in He; inversion He; subst; split; try reflexivity;
    unfold valid_shape; tauto.
Qed.

Lemma quaternion_shape_valid pre H (t : tensor) :
  quaternion_shape pre H t -> valid_shape t.
Proof.
  intros [Hs Hp]. unfold valid_shape, dim, last_size.
  rewrite Hs, length_app, last_snoc. simpl length. split; [lia|].
  rewrite Nat.mul_comm. apply Nat.Div0.mod_mul.
Qed.

Lemma quaternion_shape_dim pre H (t : tensor) :
  quaternion_shape pre H t -> dim t = S (length pre).
Proof. intros [Hs _]. unfold dim. rewrite Hs, length_app. simpl. lia. Qed.

Lemma getter_axis pre H (t : tensor) start len :
  quaternion_shape pre H t ->
  (if dim t =? 2 then narrow t 1 start len else narrow t 2 start len)
  = narrow t (length pre) start len.
Proof.
  intros Hq. rewrite (quaternion_shape_dim pre H t Hq).
  destruct Hq as [_ [-> | ->]]; reflexivity.
Qed.

Lemma quaternion_last pre H (t : tensor) :
  quaternion_shape pre H t -> last_size t = 4 * H.
Proof. intros [Hs _]. unfold last_size. rewrite Hs. apply last_snoc. Qed.

Lemma quarter_of H : 4 * H / 4 = H.
Proof. rewrite Nat.mul_comm. apply Nat.div_mul. discriminate. Qed.

Lemma half_of H : 4 * H / 2 = 2 * H.
Proof.
  replace (4 * H) with (2 * H * 2) by lia. apply Nat.div_mul. discriminate.
Qed.

Lemma offset_bound q H : q < 4 -> q * H + H <= 4 * H.
Proof.
  intros Hq. assert (q * H <= 3 * H) by (apply Nat.mul_le_mono_r; lia). lia.
Qed.

Lemma narrow_component pre H q (t : tensor) :
  quaternion_shape pre H t -> q < 4 ->
  narrow t (length pre) (q * H) H = Ok (component pre H q t).
Proof.
  intros [Hs _] Hq. apply narrow_last; [exact Hs | apply offset_bound, Hq].
Qed.

Lemma get_r_component pre H (t : tensor) :
  quaternion_shape pre H t -> get_r t = Ok (component pre H 0 t).
Proof.
  intros Hq. unfold get_r.
  rewrite (check_input_ok t (quaternion_shape_valid pre H t Hq)). cbn [bind].
  rewrite (getter_axis pre H t _ _ Hq), (quaternion_last pre H t Hq), quarter_of.
  apply (narrow_component pre H 0 t Hq). lia.
Qed.

Lemma get_i_component pre H (t : tensor) :
  quaternion_shape pre H t -> get_i t = Ok (component pre H 1 t).
Proof.
  intros Hq. unfold get_i.
  rewrite (check_input_ok t (quaternion_shape_valid pre H t Hq)). cbn [bind].
  rewrite (getter_axis pre H t _ _ Hq), (quaternion_last pre H t Hq), quarter_of.
  rewrite <- (narrow_component pre H 1 t Hq) by lia.
  f_equal. lia.
Qed.

Lemma get_j_component pre H (t : tensor) :
  quaternion_shape pre H t -> get_j t = Ok (component pre H 2 t).
Proof.
  intros Hq. unfold get_j.
  rewrite (check_input_ok t (quaternion_shape_valid pre H t Hq)). cbn [bind].
  rewrite (getter_axis pre H t _ _ Hq), (quaternion_last pre H t Hq).
  rewrite quarter_of, half_of.
  apply (narrow_component pre H 2 t Hq). lia.
Qed.

Lemma get_k_component pre H (t : tensor) :
  quaternion_shape pre H t -> get_k t = Ok (component pre H 3 t).
Proof.
  intros Hq. unfold get_k.
  rewrite (check_input_ok t (quaternion_shape_valid pre H t Hq)). cbn [bind].
  rewrite (getter_axis pre H t _ _ Hq), (quaternion_last pre H t Hq), quarter_of.
  rewrite <- (narrow_component pre H 3 t Hq) by lia.
  f_equal. lia.
Qed.

Lemma rows_length pre m (t : tensor) :
  size t = pre ++ [m] -> wf t ->
  Forall (fun c => length c = m) (chunks (numel pre) m (data t)).
Proof.
  intros Hs Hw. apply chunks_Forall. apply (rows_of_wf t pre m Hs Hw).
Qed.

Lemma slice_length start len (c : list R) :
  start + len <= length c -> length (slice start len c) = len.
Proof.
  intros Hle. unfold slice. rewrite length_firstn, length_skipn. lia.
Qed.

(** The rows of a component are the slices of the rows of the tensor. *)
Lemma component_rows pre H q (t : tensor) :
  size t = pre ++ [4 * H] -> wf t -> q < 4 ->
  chunks (numel pre) H (data (component pre H q t))
  = map (slice (q * H) H) (chunks (numel pre) (4 * H) (data t)).
Proof.
  intros Hs Hw Hq. cbn [component data].
  rewrite <- (chunks_length (numel pre) (4 * H) (data t)) at 1.
  rewrite <- (length_map (slice (q * H) H)).
  apply chunks_concat. apply Forall_map.
  eapply Forall_impl; [|apply (rows_length pre (4 * H) t Hs Hw)].
  intros c Hc. apply slice_length. rewrite Hc. apply offset_bound, Hq.
Qed.

Lemma component_wf pre H q (t : tensor) :
  size t = pre ++ [4 * H] -> wf t -> q < 4 -> wf (component pre H q t).
Proof.
  intros Hs Hw Hq. unfold wf. cbn [component data size].
  rewrite numel_app. cbn [numel fold_right].
  rewrite (length_concat_uniform H), length_map, chunks_length; [lia|].
  apply Forall_map.
  eapply Forall_impl; [|apply (rows_length pre (4 * H) t Hs Hw)].
  intros c Hc. apply slice_length. rewrite Hc. apply offset_bound, Hq.
Qed.

(** Every shape [check_input] accepts is a quaternion shape. *)
Lemma valid_quaternion_shape (t : tensor) :
  valid_shape t -> exists pre H, quaternion_shape pre H t.
Proof.
  intros [Hd Hm]. unfold dim, last_size in *.
  destruct (size t) as [|x s] eqn:Es; [simpl in Hd; lia|].
  destruct (exists_last (l := x :: s)) as [pre [m Hpm]]; [discriminate|].
  rewrite Hpm in *. rewrite last_snoc in Hm. rewrite length_app in Hd. simpl in Hd.
  exists pre, (m / 4). split; [|lia].
  apply Nat.Div0.div_exact in Hm. rewrite <- Hm. exact Es.
Qed.

(** Concatenating the four components along the last axis. *)
Lemma cat_components (pre : list nat) (H : nat) (t : tensor) :
  size t = pre ++ [4 * H] -> wf t ->
  cat [component pre H 0 t; component pre H 1 t;
       component pre H 2 t; component pre H 3 t] (length pre) = Ok t.
Proof.
  intros Hs Hw.
  rewrite (cat4_last _ _ _ _ pre H H H H) by reflexivity.
  rewrite !component_rows by (auto; lia).
  rewrite <- (chunks_length (numel pre) (4 * H) (data t)) at 1.
  rewrite interleave_map4.
  rewrite (map_ext_Forall _ (fun c => c)).
  - rewrite map_id, concat_chunks by (apply (rows_of_wf t pre (4 * H) Hs Hw)).
    replace (H + (H + (H + (H + 0)))) with (4 * H) by lia.
    rewrite <- Hs. f_equal. apply tensor_eta.
  - eapply Forall_impl; [|apply (rows_length pre (4 * H) t Hs Hw)].
    intros c Hc. unfold slice.
    change (0 * H) with 0. replace (1 * H) with H by lia.
    apply quarters, Hc.
Qed.

(** C6. For a well-formed tensor of rank 2 or 3 whose last axis has length
    4H, the four getters return the slices of width H at offsets 0, H, 2H
    and 3H of the last axis, and concatenating them along that axis gives
    the tensor back. *)
Theorem components_reconstruct (pre : list nat) (H : nat) (t : tensor) :
  quaternion_shape pre H t -> wf t ->
  exists r i j k,
    get_r t = Ok r /\ get_i t = Ok i /\ get_j t = Ok j /\ get_k t = Ok k
    /\ narrow t (dim t - 1) 0 H = Ok r
    /\ narrow t (dim t - 1) H H = Ok i
    /\ narrow t (dim t - 1) (2 * H) H = Ok j
    /\ narrow t (dim t - 1) (3 * H) H = Ok k
    /\ cat [r; i; j; k] (dim t - 1) = Ok t.
Proof.
  intros Hq Hw. pose proof Hq as [Hs Hp].
  exists (component pre H 0 t), (component pre H 1 t),
         (component pre H 2 t), (component pre H 3 t).
  rewrite (quaternion_shape_dim pre H t Hq).
  replace (S (length pre) - 1) with (length pre) by lia.
  repeat split.
  - apply (get_r_component pre H t Hq).
  - apply (get_i_component pre H t Hq).
  - apply (get_j_component pre H t Hq).
  - apply (get_k_component pre H t Hq).
  - apply (narrow_component pre H 0 t Hq). lia.
  - rewrite <- (narrow_component pre H 1 t Hq) by lia. f_equal. lia.
  - apply (narrow_component pre H 2 t Hq). lia.
  - apply (narrow_component pre H 3 t Hq). lia.
  - apply (cat_components pre H t Hs Hw).
Qed.

End QuaternionView.

(** The theorem at a 2 x 4 integer tensor. *)
Lemma components_reconstruct_witness :
  exists r i j k : @tensor Z,
    get_r (mkT [2; 4] [1; 2; 3; 4; 5; 6; 7; 8]%Z) = Ok r
    /\ get_i (mkT [2; 4] [1; 2; 3; 4; 5; 6; 7; 8]%Z) = Ok i
    /\ get_j (mkT [2; 4] [1; 2; 3; 4; 5; 6; 7; 8]%Z) = Ok j
    /\ get_k (mkT [2; 4] [1; 2; 3; 4; 5; 6; 7; 8]%Z) = Ok k
    /\ narrow (mkT [2; 4] [1; 2; 3; 4; 5; 6; 7; 8]%Z) 1 0 1 = Ok r
    /\ narrow (mkT [2; 4] [1; 2; 3; 4; 5; 6; 7; 8]%Z) 1 1 1 = Ok i
    /\ narrow (mkT [2; 4] [1; 2; 3; 4; 5; 6; 7; 8]%Z) 1 2 1 = Ok j
    /\ narrow (mkT [2; 4] [1; 2; 3; 4; 5; 6; 7; 8]%Z) 1 3 1 = Ok k
    /\ cat [r; i; j; k] 1 = Ok (mkT [2; 4] [1; 2; 3; 4; 5; 6; 7; 8]%Z).
Proof.
  apply (components_reconstruct [2] 1 (mkT [2; 4] [1; 2; 3; 4; 5; 6; 7; 8]%Z)).
  - split; [reflexivity | left; reflexivity].
  - reflexivity.
Defined.

(** ** Element-wise operators on operands of one shape *)

Lemma bshape_refl (s : list nat) : bshape s s = Some s.
Proof.
  induction s as [|a s IH]; simpl; [reflexivity|].
  rewrite IH, Nat.eqb_refl. reflexivity.
Qed.

Lemma pad_self (s : list nat) : pad (length s) s = s.
Proof. unfold pad. rewrite Nat.sub_diag. reflexivity. Qed.

Section Elementwise.
Context {R : Type} {SR : Scalar R}.

Local Abbreviation tensor := (@tensor R).

Lemma expand_data_id (s : list nat) (d : list R) :
  length d = numel s -> expand_data s s d = d.
Proof.
  revert d; induction s as [|a s IH]; intros d Hd; simpl; [reflexivity|].
  rewrite Nat.eqb_refl.
  rewrite (map_ext_Forall _ (fun c => c)).
  - rewrite map_id. apply concat_chunks. exact Hd.
  - eapply Forall_impl; [|apply (chunks_Forall a (numel s) d Hd)].
    intros c Hc. apply IH, Hc.
Qed.

Lemma pointwise_same (f : R -> R -> R) (a b : tensor) :
  size a = size b -> wf a -> wf b -> pointwise f a b = Ok (ew f a b).
Proof.
  intros Hs Ha Hb. unfold pointwise, dim. rewrite <- Hs, Nat.max_id, pad_self.
  rewrite bshape_refl, !expand_data_id; [reflexivity | |exact Ha].
  rewrite Hs. exact Hb.
Qed.

(** Without well-formedness the operator still accepts the operands. *)
Lemma pointwise_same_ok (f : R -> R -> R) (a b : tensor) :
  size a = size b -> exists y, pointwise f a b = Ok y /\ size y = size a.
Proof.
  intros Hs. unfold pointwise, dim. rewrite <- Hs, Nat.max_id, pad_self.
  rewrite bshape_refl. eexists. split; reflexivity.
Qed.

Lemma ew_size f (a b : tensor) : size (ew f a b) = size a.
Proof. reflexivity. Qed.

Lemma ew_wf f (a b : tensor) :
  size a = size b -> wf a -> wf b -> wf (ew f a b).
Proof.
  unfold wf. intros Hs Ha Hb. cbn [ew data size].
  rewrite map2_length, Ha, Hb, <- Hs. apply Nat.min_id.
Qed.

(** Slicing commutes with an element-wise operator. *)
Lemma sliced_rows_map2 f (k n start len : nat) (x y : list R) :
  length x = length y ->
  concat (map (slice start len) (chunks k n (map2 f x y)))
  = map2 f (concat (map (slice start len) (chunks k n x)))
           (concat (map (slice start len) (chunks k n y))).
Proof.
  revert x y; induction k as [|k IH]; intros x y Hl; cbn [chunks map concat];
    [reflexivity|].
  rewrite map2_firstn, map2_skipn, IH by (rewrite !length_skipn; lia).
  rewrite map2_app.
  - f_equal. unfold slice. rewrite map2_skipn, map2_firstn. reflexivity.
  - unfold slice. rewrite !length_firstn, !length_skipn, !length_firstn. lia.
Qed.

Lemma component_ew f pre H q (a b : tensor) :
  wf a -> wf b -> size a = size b ->
  component pre H q (ew f a b)
  = ew f (component pre H q a) (component pre H q b).
Proof.
  intros Ha Hb Hs. unfold component, ew. cbn [size data]. f_equal.
  apply sliced_rows_map2. unfold wf in *. congruence.
Qed.

End Elementwise.

(** ** Joining four components along the last axis *)

Section Join.
Context {R : Type} {SR : Scalar R}.

Local Abbreviation tensor := (@tensor R).

Lemma cat4_join pre H (a b c d : tensor) :
  size a = pre ++ [H] -> size b = pre ++ [H] ->
  size c = pre ++ [H] -> size d = pre ++ [H] ->
  cat [a; b; c; d] (length pre) = Ok (join4 pre H a b c d).
Proof.
  intros Ha Hb Hc Hd. rewrite (cat4_last a b c d pre H H H H Ha Hb Hc Hd).
  reflexivity.
Qed.

Lemma slice_app_here (len : nat) (x rest : list R) :
  length x = len -> slice 0 len (x ++ rest) = x.
Proof.
  intros <-. unfold slice. cbn [skipn].
  rewrite firstn_app, firstn_all, Nat.sub_diag. cbn [firstn]. apply app_nil_r.
Qed.

Lemma slice_app_later (n s len : nat) (x rest : list R) :
  length x = n -> slice (n + s) len (x ++ rest) = slice s len rest.
Proof.
  intros <-. unfold slice. rewrite skipn_app, skipn_all2 by lia.
  replace (length x + s - length x) with s by lia. reflexivity.
Qed.

Lemma slices_of_four (H : nat) (x y z w : list R) :
  length x = H -> length y = H -> length z = H -> length w = H ->
  slice (0 * H) H (x ++ y ++ z ++ w ++ []) = x
  /\ slice (1 * H) H (x ++ y ++ z ++ w ++ []) = y
  /\ slice (2 * H) H (x ++ y ++ z ++ w ++ []) = z
  /\ slice (3 * H) H (x ++ y ++ z ++ w ++ []) = w.
Proof.
  intros Hx Hy Hz Hw. repeat split.
  - apply slice_app_here, Hx.
  - replace (1 * H) with (H + 0) by lia.
    rewrite slice_app_later by exact Hx. apply slice_app_here, Hy.
  - replace (2 * H) with (H + (H + 0)) by lia.
    rewrite !slice_app_later by assumption. apply slice_app_here, Hz.
  - replace (3 * H) with (H + (H + (H + 0))) by lia.
    rewrite !slice_app_later by assumption. apply slice_app_here, Hw.
Qed.

(** The blocks of an interleaving of four lists of [k] blocks of length [H]
    have length [4 * H], and their quarters are the blocks interleaved. *)
Lemma interleave4_slices (H : nat) (A B C D : list (list R)) :
  length B = length A -> length C = length A -> length D = length A ->
  Forall (fun c => length c = H) A -> Forall (fun c => length c = H) B ->
  Forall (fun c => length c = H) C -> Forall (fun c => length c = H) D ->
  Forall (fun c => length c = 4 * H) (interleave (length A) [A; B; C; D])
  /\ length (interleave (length A) [A; B; C; D]) = length A
  /\ map (slice (0 * H) H) (interleave (length A) [A; B; C; D]) = A
  /\ map (slice (1 * H) H) (interleave (length A) [A; B; C; D]) = B
  /\ map (slice (2 * H) H) (interleave (length A) [A; B; C; D]) = C
  /\ map (slice (3 * H) H) (interleave (length A) [A; B; C; D]) = D.
Proof.
  unfold interleave. cbn [fold_right].
  revert B C D; induction A as [|x A IH]; intros [|y B] [|z C] [|w D];
    try discriminate; intros HB HC HD FA FB FC FD.
  - cbn. repeat split; constructor.
  - inversion FA as [|? ? Hx FA']; inversion FB as [|? ? Hy FB'];
      inversion FC as [|? ? Hz FC']; inversion FD as [|? ? Hw FD']; subst.
    cbn [length repeat]. rewrite !zip_app_cons. cbn [map length].
    destruct (IH B C D) as (I1 & I2 & I3 & I4 & I5 & I6);
      try assumption; try (cbn in HB, HC, HD; lia).
    destruct (slices_of_four (length x) x y z w) as (S1 & S2 & S3 & S4);
      try reflexivity; try assumption.
    rewrite S1, S2, S3, S4, I2, I3, I4, I5, I6.
    repeat split; try reflexivity.
    constructor; [|exact I1].
    rewrite !length_app, Hy, Hz, Hw. cbn. lia.
Qed.

Lemma join4_wf pre H (a b c d : tensor) :
  size a = pre ++ [H] -> size b = pre ++ [H] ->
  size c = pre ++ [H] -> size d = pre ++ [H] ->
  wf a -> wf b -> wf c -> wf d ->
  wf (join4 pre H a b c d)
  /\ component pre H 0 (join4 pre H a b c d) = a
  /\ component pre H 1 (join4 pre H a b c d) = b
  /\ component pre H 2 (join4 pre H a b c d) = c
  /\ component pre H 3 (join4 pre H a b c d) = d.
Proof.
  intros Ha Hb Hc Hd Wa Wb Wc Wd.
  pose proof (rows_length pre H a Ha Wa) as Fa.
  pose proof (rows_length pre H b Hb Wb) as Fb.
  pose proof (rows_length pre H c Hc Wc) as Fc.
  pose proof (rows_length pre H d Hd Wd) as Fd.
  unfold component, join4. cbn [size data].
  set (A := chunks (numel pre) H (data a)) in *.
  set (B := chunks (numel pre) H (data b)) in *.
  set (C := chunks (numel pre) H (data c)) in *.
  set (D := chunks (numel pre) H (data d)) in *.
  assert (LA : length A = numel pre) by apply chunks_length.
  assert (LB : length B = length A) by (rewrite LA; apply chunks_length).
  assert (LC : length C = length A) by (rewrite LA; apply chunks_length).
  assert (LD : length D = length A) by (rewrite LA; apply chunks_length).
  destruct (interleave4_slices H A B C D LB LC LD Fa Fb Fc Fd)
    as (I1 & I2 & I3 & I4 & I5 & I6).
  rewrite LA in *.
  assert (Hrows : chunks (numel pre) (4 * H)
                    (concat (interleave (numel pre) [A; B; C; D]))
                  = interleave (numel pre) [A; B; C; D]).
  { rewrite <- I2 at 1. apply chunks_concat, I1. }
  rewrite Hrows.
  rewrite I3, I4, I5, I6. unfold A, B, C, D.
  rewrite !concat_chunks
    by (eapply rows_of_wf; eassumption).
  rewrite <- Ha at 1. rewrite <- Hb at 1. rewrite <- Hc at 1. rewrite <- Hd at 1.
  rewrite !tensor_eta. repeat split; try reflexivity.
  unfold wf. cbn [size data]. rewrite numel_app. cbn [numel fold_right].
  fold A B C D.
  rewrite (length_concat_uniform (4 * H)), I2 by exact I1. lia.
Qed.

End Join.

(** ** Shapes of derived tensors *)

Section Shapes.
Context {R : Type} {SR : Scalar R}.

Local Abbreviation tensor := (@tensor R).

Lemma has_shape_component pre H q (t : tensor) :
  has_shape (pre ++ [4 * H]) t -> q < 4 ->
  has_shape (pre ++ [H]) (component pre H q t).
Proof.
  intros [Hs Hw] Hq. split; [reflexivity | apply component_wf; assumption].
Qed.

Lemma has_shape_ew f s (a b : tensor) :
  has_shape s a -> has_shape s b -> has_shape s (ew f a b).
Proof.
  intros [Ha Wa] [Hb Wb]. split; [exact Ha | apply ew_wf; congruence].
Qed.

Lemma has_shape_join4 pre H (a b c d : tensor) :
  has_shape (pre ++ [H]) a -> has_shape (pre ++ [H]) b ->
  has_shape (pre ++ [H]) c -> has_shape (pre ++ [H]) d ->
  has_shape (pre ++ [4 * H]) (join4 pre H a b c d).
Proof.
  intros [Ha Wa] [Hb Wb] [Hc Wc] [Hd Wd]. split; [reflexivity|].
  apply (join4_wf pre H a b c d); assumption.
Qed.

Lemma pointwise_shaped f s (a b : tensor) :
  has_shape s a -> has_shape s b -> pointwise f a b = Ok (ew f a b).
Proof.
  intros [Ha Wa] [Hb Wb]. apply pointwise_same; congruence.
Qed.

Lemma component_ew_shaped f s pre H q (a b : tensor) :
  has_shape s a -> has_shape s b ->
  component pre H q (ew f a b) = ew f (component pre H q a) (component pre H q b).
Proof.
  intros [Ha Wa] [Hb Wb]. apply component_ew; congruence.
Qed.

Lemma component_join4 pre H (a b c d : tensor) :
  has_shape (pre ++ [H]) a -> has_shape (pre ++ [H]) b ->
  has_shape (pre ++ [H]) c -> has_shape (pre ++ [H]) d ->
  component pre H 0 (join4 pre H a b c d) = a
  /\ component pre H 1 (join4 pre H a b c d) = b
  /\ component pre H 2 (join4 pre H a b c d) = c
  /\ component pre H 3 (join4 pre H a b c d) = d.
Proof.
  intros [Ha Wa] [Hb Wb] [Hc Wc] [Hd Wd].
  apply (join4_wf pre H a b c d); assumption.
Qed.

Lemma cat4_shaped pre H (a b c d : tensor) :
  has_shape (pre ++ [H]) a -> has_shape (pre ++ [H]) b ->
  has_shape (pre ++ [H]) c -> has_shape (pre ++ [H]) d ->
  cat [a; b; c; d] (length pre) = Ok (join4 pre H a b c d).
Proof.
  intros [Ha _] [Hb _] [Hc _] [Hd _]. apply cat4_join; assumption.
Qed.

Lemma cat4_matrix B H (a b c d : tensor) :
  has_shape ([B] ++ [H]) a -> has_shape ([B] ++ [H]) b ->
  has_shape ([B] ++ [H]) c -> has_shape ([B] ++ [H]) d ->
  cat [a; b; c; d] 1 = Ok (join4 [B] H a b c d).
Proof. apply (cat4_shaped [B] H). Qed.

(** The getters of a matrix of quaternions. *)
Lemma getters_matrix B H (t : tensor) :
  has_shape [B; 4 * H] t ->
  get_r t = Ok (component [B] H 0 t) /\ get_i t = Ok (component [B] H 1 t)
  /\ get_j t = Ok (component [B] H 2 t) /\ get_k t = Ok (component [B] H 3 t).
Proof.
  intros [Hs _].
  assert (Hq : quaternion_shape [B] H t) by (split; [exact Hs | left; reflexivity]).
  repeat split.
  - apply (get_r_component [B] H t Hq).
  - apply (get_i_component [B] H t Hq).
  - apply (get_j_component [B] H t Hq).
  - apply (get_k_component [B] H t Hq).
Qed.

(** A matrix of quaternions is the join of its components. *)
Lemma join4_components B H (t : tensor) :
  has_shape [B; 4 * H] t ->
  join4 [B] H (component [B] H 0 t) (component [B] H 1 t)
              (component [B] H 2 t) (component [B] H 3 t) = t.
Proof.
  intros [Hs Hw].
  pose proof (cat_components [B] H t Hs Hw) as Hc.
  rewrite (cat4_join [B] H) in Hc by reflexivity.
  congruence.
Qed.

End Shapes.

Create HintDb shapes.
#[export] Hint Resolve has_shape_component has_shape_ew has_shape_join4 : shapes.
#[export] Hint Extern 1 (_ < 4) => lia : shapes.

(** ** Hamilton product *)

Section Hamilton.
Context {R : Type} {SR : Scalar R}.

Local Abbreviation tensor := (@tensor R).

Ltac shaped :=
  repeat first
    [ assumption
    | apply has_shape_ew
    | apply has_shape_join4
    | apply has_shape_component; [|lia] ].

(** One statement of [hamilton_product] on operands of shape [B, 4H]. *)
Ltac hp_getters B H t :=
  let S := fresh "S" in
  assert (S : has_shape ([B] ++ [4 * H]) t) by shaped;
  destruct (getters_matrix B H t S) as (?G & ?G & ?G & ?G).

Lemma spec_hamilton_r_shaped s (r0 i0 j0 k0 r1 i1 j1 k1 : tensor) :
  has_shape s r0 -> has_shape s i0 -> has_shape s j0 -> has_shape s k0 ->
  has_shape s r1 -> has_shape s i1 -> has_shape s j1 -> has_shape s k1 ->
  has_shape s (spec_hamilton_r r0 i0 j0 k0 r1 i1 j1 k1).
Proof. intros. unfold spec_hamilton_r. shaped. Qed.

Lemma spec_hamilton_i_shaped s (r0 i0 j0 k0 r1 i1 j1 k1 : tensor) :
  has_shape s r0 -> has_shape s i0 -> has_shape s j0 -> has_shape s k0 ->
  has_shape s r1 -> has_shape s i1 -> has_shape s j1 -> has_shape s k1 ->
  has_shape s (spec_hamilton_i r0 i0 j0 k0 r1 i1 j1 k1).
Proof. intros. unfold spec_hamilton_i. shaped. Qed.

Lemma spec_hamilton_j_shaped s (r0 i0 j0 k0 r1 i1 j1 k1 : tensor) :
  has_shape s r0 -> has_shape s i0 -> has_shape s j0 -> has_shape s k0 ->
  has_shape s r1 -> has_shape s i1 -> has_shape s j1 -> has_shape s k1 ->
  has_shape s (spec_hamilton_j r0 i0 j0 k0 r1 i1 j1 k1).
Proof. intros. unfold spec_hamilton_j. shaped. Qed.

Lemma spec_hamilton_k_shaped s (r0 i0 j0 k0 r1 i1 j1 k1 : tensor) :
  has_shape s r0 -> has_shape s i0 -> has_shape s j0 -> has_shape s k0 ->
  has_shape s r1 -> has_shape s i1 -> has_shape s j1 -> has_shape s k1 ->
  has_shape s (spec_hamilton_k r0 i0 j0 k0 r1 i1 j1 k1).
Proof. intros. unfold spec_hamilton_k. shaped. Qed.

(** The pattern [hamilton_product] repeats four times: multiply [q0] by a
    permuted copy [p] of [q1], take the four components of the product and
    combine them with the signs [f1], [f2], [f3]. *)
Lemma base_block {A : Type} B H (f1 f2 f3 : R -> R -> R) (q0 p : tensor)
    (K : tensor -> result A) :
  has_shape ([B] ++ [4 * H]) q0 -> has_shape ([B] ++ [4 * H]) p ->
  bind (pointwise smul q0 p) (fun base =>
    bind (get_r base) (fun a =>
    bind (get_i base) (fun b =>
    bind (pointwise f1 a b) (fun ab =>
    bind (get_j base) (fun c =>
    bind (pointwise f2 ab c) (fun abc =>
    bind (get_k base) (fun d =>
    bind (pointwise f3 abc d) K)))))))
  = K (ew f3 (ew f2 (ew f1 (ew smul (component [B] H 0 q0) (component [B] H 0 p))
                            (ew smul (component [B] H 1 q0) (component [B] H 1 p)))
                     (ew smul (component [B] H 2 q0) (component [B] H 2 p)))
              (ew smul (component [B] H 3 q0) (component [B] H 3 p))).
Proof.
  intros S0 Sp.
  rewrite (pointwise_shaped smul ([B] ++ [4 * H]) q0 p S0 Sp). cbn [bind].
  hp_getters B H (ew smul q0 p).
  rewrite G, G0, G1, G2. cbn [bind].
  rewrite !(component_ew_shaped smul ([B] ++ [4 * H]) [B] H _ q0 p S0 Sp).
  rewrite (pointwise_shaped f1 ([B] ++ [H])) by shaped. cbn [bind].
  rewrite (pointwise_shaped f2 ([B] ++ [H])) by shaped. cbn [bind].
  rewrite (pointwise_shaped f3 ([B] ++ [H])) by shaped. cbn [bind].
  reflexivity.
Qed.

Lemma hamilton_product_join B H (q0 q1 : tensor) :
  has_shape [B; 4 * H] q0 -> has_shape [B; 4 * H] q1 ->
  let c := component [B] H in
  hamilton_product q0 q1
  = Ok (join4 [B] H
          (spec_hamilton_r (c 0 q0) (c 1 q0) (c 2 q0) (c 3 q0)
                           (c 0 q1) (c 1 q1) (c 2 q1) (c 3 q1))
          (spec_hamilton_i (c 0 q0) (c 1 q0) (c 2 q0) (c 3 q0)
                           (c 0 q1) (c 1 q1) (c 2 q1) (c 3 q1))
          (spec_hamilton_j (c 0 q0) (c 1 q0) (c 2 q0) (c 3 q0)
                           (c 0 q1) (c 1 q1) (c 2 q1) (c 3 q1))
          (spec_hamilton_k (c 0 q0) (c 1 q0) (c 2 q0) (c 3 q0)
                           (c 0 q1) (c 1 q1) (c 2 q1) (c 3 q1))).
Proof.
  intros S0 S1 c.
  change (has_shape ([B] ++ [4 * H]) q0) in S0.
  change (has_shape ([B] ++ [4 * H]) q1) in S1.
  unfold hamilton_product, mul, add, sub.
  destruct (getters_matrix B H q1 S1) as (G1 & G2 & G3 & G4).
  rewrite G1, G2, G3, G4. cbn [bind].
  assert (C0 : has_shape ([B] ++ [H]) (component [B] H 0 q1)) by shaped.
  assert (C1 : has_shape ([B] ++ [H]) (component [B] H 1 q1)) by shaped.
  assert (C2 : has_shape ([B] ++ [H]) (component [B] H 2 q1)) by shaped.
  assert (C3 : has_shape ([B] ++ [H]) (component [B] H 3 q1)) by shaped.
  rewrite (base_block B H ssub ssub ssub q0 q1) by assumption.
  rewrite (cat4_matrix B H _ _ _ _ C1 C0 C3 C2). cbn [bind].
  rewrite (base_block B H sadd sadd ssub q0) by shaped.
  destruct (component_join4 [B] H _ _ _ _ C1 C0 C3 C2) as (-> & -> & -> & ->).
  rewrite (cat4_matrix B H _ _ _ _ C2 C3 C0 C1). cbn [bind].
  rewrite (base_block B H ssub sadd sadd q0) by shaped.
  destruct (component_join4 [B] H _ _ _ _ C2 C3 C0 C1) as (-> & -> & -> & ->).
  rewrite (cat4_matrix B H _ _ _ _ C3 C2 C1 C0). cbn [bind].
  rewrite (base_block B H sadd ssub sadd q0) by shaped.
  destruct (component_join4 [B] H _ _ _ _ C3 C2 C1 C0) as (-> & -> & -> & ->).
  apply (cat4_matrix B H);
    [ apply spec_hamilton_r_shaped | apply spec_hamilton_i_shaped
    | apply spec_hamilton_j_shaped | apply spec_hamilton_k_shaped ]; shaped.
Qed.

(** C3. For two well-formed matrices of quaternions of one shape [B, 4H],
    [hamilton_product] returns the concatenation, along the last axis, of
    the four components r, i, j, k the specification's formulas give from
    the components of the operands. *)
Theorem hamilton_product_formula B H (q0 q1 : tensor) :
  has_shape [B; 4 * H] q0 -> has_shape [B; 4 * H] q1 ->
  exists r0 i0 j0 k0 r1 i1 j1 k1 y,
    get_r q0 = Ok r0 /\ get_i q0 = Ok i0 /\ get_j q0 = Ok j0 /\ get_k q0 = Ok k0
    /\ get_r q1 = Ok r1 /\ get_i q1 = Ok i1 /\ get_j q1 = Ok j1 /\ get_k q1 = Ok k1
    /\ hamilton_product q0 q1 = Ok y
    /\ cat [spec_hamilton_r r0 i0 j0 k0 r1 i1 j1 k1;
            spec_hamilton_i r0 i0 j0 k0 r1 i1 j1 k1;
            spec_hamilton_j r0 i0 j0 k0 r1 i1 j1 k1;
            spec_hamilton_k r0 i0 j0 k0 r1 i1 j1 k1] 1 = Ok y
    /\ has_shape [B; 4 * H] y.
Proof.
  intros S0 S1.
  destruct (getters_matrix B H q0 S0) as (A1 & A2 & A3 & A4).
  destruct (getters_matrix B H q1 S1) as (B1 & B2 & B3 & B4).
  do 8 eexists. eexists.
  repeat (split; [eassumption|]).
  change (has_shape ([B] ++ [4 * H]) q0) in S0.
  change (has_shape ([B] ++ [4 * H]) q1) in S1.
  split; [apply (hamilton_product_join B H q0 q1 S0 S1)|].
  split.
  { apply (cat4_matrix B H);
      [ apply spec_hamilton_r_shaped | apply spec_hamilton_i_shaped
      | apply spec_hamilton_j_shaped | apply spec_hamilton_k_shaped ]; shaped. }
  apply (has_shape_join4 [B] H);
    [ apply spec_hamilton_r_shaped | apply spec_hamilton_i_shaped
    | apply spec_hamilton_j_shaped | apply spec_hamilton_k_shaped ]; shaped.
Qed.

End Hamilton.

(** The theorem at two 1 x 4 integer tensors: (1,2,3,4) times (5,6,7,8). *)
Lemma hamilton_product_formula_witness :
  exists r0 i0 j0 k0 r1 i1 j1 k1 y : @tensor Z,
    get_r (mkT [1; 4] [1; 2; 3; 4]%Z) = Ok r0
    /\ get_i (mkT [1; 4] [1; 2; 3; 4]%Z) = Ok i0
    /\ get_j (mkT [1; 4] [1; 2; 3; 4]%Z) = Ok j0
    /\ get_k (mkT [1; 4] [1; 2; 3; 4]%Z) = Ok k0
    /\ get_r (mkT [1; 4] [5; 6; 7; 8]%Z) = Ok r1
    /\ get_i (mkT [1; 4] [5; 6; 7; 8]%Z) = Ok i1
    /\ get_j (mkT [1; 4] [5; 6; 7; 8]%Z) = Ok j1
    /\ get_k (mkT [1; 4] [5; 6; 7; 8]%Z) = Ok k1
    /\ hamilton_product (mkT [1; 4] [1; 2; 3; 4]%Z) (mkT [1; 4] [5; 6; 7; 8]%Z) = Ok y
    /\ cat [spec_hamilton_r r0 i0 j0 k0 r1 i1 j1 k1;
            spec_hamilton_i r0 i0 j0 k0 r1 i1 j1 k1;
            spec_hamilton_j r0 i0 j0 k0 r1 i1 j1 k1;
            spec_hamilton_k r0 i0 j0 k0 r1 i1 j1 k1] 1 = Ok y
    /\ has_shape [1; 4 * 1] y.
Proof.
  apply (hamilton_product_formula 1 1); split; reflexivity.
Defined.

(** (1 + 2i + 3j + 4k)(5 + 6i + 7j + 8k) = -60 + 12i + 30j + 24k. *)
Example hamilton_product_example :
  hamilton_product (mkT [1; 4] [1; 2; 3; 4]%Z) (mkT [1; 4] [5; 6; 7; 8]%Z)
  = Ok (mkT [1; 4] [-60; 12; 30; 24]%Z).
Proof. reflexivity. Qed.

(** ** Identity of the Hamilton product *)

Section HamiltonIdentity.
Context {R : Type} {SR : Scalar R}.

Local Abbreviation tensor := (@tensor R).

Lemma identity_row_length H : length (identity_row H) = 4 * H.
Proof. unfold identity_row. rewrite !length_app, !repeat_length. lia. Qed.

Lemma length_concat_repeat {A : Type} (x : list A) n :
  length (concat (repeat x n)) = n * length x.
Proof.
  induction n as [|n IH]; cbn [repeat concat]; [reflexivity|].
  rewrite length_app, IH. lia.
Qed.

Lemma identity_shaped B H :
  has_shape ([B] ++ [4 * H]) (identity_quaternion B H : tensor).
Proof.
  split; [reflexivity|]. unfold wf. cbn [identity_quaternion size data].
  rewrite length_concat_repeat, identity_row_length. cbn [numel fold_right]. lia.
Qed.

Lemma full_shaped B H (v : R) : has_shape ([B] ++ [H]) (full B H v).
Proof.
  split; [reflexivity|]. unfold wf. cbn [full size data].
  rewrite length_concat_repeat, repeat_length. cbn [app numel fold_right]. lia.
Qed.

Lemma identity_components B H :
  component [B] H 0 (identity_quaternion B H) = full B H sone
  /\ component [B] H 1 (identity_quaternion B H) = full B H szero
  /\ component [B] H 2 (identity_quaternion B H) = full B H szero
  /\ component [B] H 3 (identity_quaternion B H) = full B H szero.
Proof.
  unfold component, identity_quaternion, full. cbn [data].
  assert (Hrows : chunks (numel [B]) (4 * H) (concat (repeat (identity_row H) B))
                  = repeat (identity_row H) B).
  { cbn [numel fold_right]. rewrite Nat.mul_1_r.
    rewrite <- (repeat_length (identity_row H) B) at 1.
    apply chunks_concat. apply Forall_forall. intros c Hc.
    apply repeat_spec in Hc. subst c. apply identity_row_length. }
  rewrite Hrows, !map_repeat.
  destruct (slices_of_four H (repeat sone H) (repeat szero H)
              (repeat szero H) (repeat szero H)) as (S1 & S2 & S3 & S4);
    try apply repeat_length.
  rewrite app_nil_r in S1, S2, S3, S4. fold (identity_row H) in S1, S2, S3, S4.
  rewrite S1, S2, S3, S4. repeat split; reflexivity.
Qed.



Lemma concat_repeat_repeat (v : R) (H B : nat) :
  concat (repeat (repeat v H) B) = repeat v (B * H).
Proof.
  induction B as [|B IH]; cbn [repeat concat]; [reflexivity|].
  rewrite IH, <- repeat_app. reflexivity.
Qed.




Lemma shaped_data_length B H (x : tensor) :
  has_shape ([B] ++ [H]) x -> length (data x) = B * H.
Proof.
  intros [Hs Hw]. unfold wf in Hw. rewrite Hw, Hs. cbn. lia.
Qed.




Section WithLaws.
Context {L : ScalarLaws SR}.


End WithLaws.

End HamiltonIdentity.


(** Binary64 arithmetic does not satisfy the laws: infinity times zero is
    NaN, not zero. *)
Lemma binary64_not_laws : ~ ScalarLaws float_scalar.
Proof.
  intros L. pose proof (smul_zero_r (ScalarLaws := L) infinity) as H.
  apply (f_equal Prim2SF) in H. vm_compute in H. discriminate H.
Qed.


(** ** Which exceptions the operations raise *)

Lemma torch_only_ok {A : Type} (a : A) : torch_only (Ok a).
Proof. intros e He. discriminate. Qed.

Lemma torch_only_raise {A : Type} : torch_only (@Raise A TorchError).
Proof. intros e He. congruence. Qed.

Lemma torch_only_bind {A B : Type} (m : result A) (k : A -> result B) :
  torch_only m -> (forall a, torch_only (k a)) -> torch_only (bind m k).
Proof.
  intros Hm Hk e. destruct m as [a|e']; cbn [bind].
  - apply Hk.
  - intros He. apply Hm. congruence.
Qed.

Create HintDb torch.
#[export] Hint Resolve torch_only_ok torch_only_raise : torch.

Section TorchOnly.
Context {R : Type} {SR : Scalar R}.

Local Abbreviation tensor := (@tensor R).

Ltac torch_cases :=
  repeat match goal with
  | |- torch_only (match ?x with _ => _ end) => destruct x
  | |- torch_only (if ?b then _ else _) => destruct b
  | |- torch_only (bind _ _) => apply torch_only_bind; [|intros ?]
  end; auto with torch.

Lemma narrow_torch_only (t : tensor) d start len : torch_only (narrow t d start len).
Proof. unfold narrow. torch_cases. Qed.

Lemma cat_torch_only (ts : list tensor) d : torch_only (cat ts d).
Proof. unfold cat. torch_cases. Qed.

Lemma pointwise_torch_only f (a b : tensor) : torch_only (pointwise f a b).
Proof. unfold pointwise. torch_cases. Qed.

Lemma mm_torch_only (a b : tensor) : torch_only (mm a b).
Proof. unfold mm. torch_cases. Qed.

Lemma matmul_torch_only (a b : tensor) : torch_only (matmul a b).
Proof. unfold matmul. torch_cases. Qed.

Lemma expand_as_torch_only (a b : tensor) : torch_only (expand_as a b).
Proof. unfold expand_as. torch_cases. Qed.

Lemma addmm_torch_only (bias a b : tensor) : torch_only (addmm bias a b).
Proof.
  unfold addmm.
  apply torch_only_bind; [apply mm_torch_only | intros p].
  apply torch_only_bind; [apply expand_as_torch_only | intros e].
  auto with torch.
Qed.

(** What [forward] does once [check_input] has accepted the input. *)
Lemma forward_after_check ctx (input r i j k : tensor) bias :
  check_input input = Ok tt ->
  torch_only (snd (forward ctx input r i j k bias)).
Proof.
  intros Hc. unfold forward. cbn [snd]. rewrite Hc. cbn [bind].
  repeat (apply torch_only_bind; [apply cat_torch_only | intros ?]).
  destruct (dim input =? 2); destruct bias.
  - apply addmm_torch_only.
  - apply mm_torch_only.
  - apply torch_only_bind; [apply matmul_torch_only | intros ?].
    apply pointwise_torch_only.
  - apply torch_only_bind; [apply matmul_torch_only | intros ?].
    auto with torch.
Qed.

End TorchOnly.

(** ** Modulus and normalisation accept every valid shape *)

Section ModulusAccepts.
Context {R : Type} {SR : Scalar R}.

Local Abbreviation tensor := (@tensor R).

Lemma sum_of_squares_ok (r i j k : tensor) s :
  size r = s -> size i = s -> size j = s -> size k = s ->
  exists y, sum_of_squares r i j k = Ok y /\ size y = s.
Proof.
  intros Hr Hi Hj Hk. unfold sum_of_squares, mul, add.
  destruct (pointwise_same_ok smul r r eq_refl) as (rr & -> & Srr). cbn [bind].
  destruct (pointwise_same_ok smul i i eq_refl) as (ii & -> & Sii). cbn [bind].
  destruct (pointwise_same_ok sadd rr ii) as (s1 & -> & S1); [congruence|]. cbn [bind].
  destruct (pointwise_same_ok smul j j eq_refl) as (jj & -> & Sjj). cbn [bind].
  destruct (pointwise_same_ok sadd s1 jj) as (s2 & -> & S2); [congruence|]. cbn [bind].
  destruct (pointwise_same_ok smul k k eq_refl) as (kk & -> & Skk). cbn [bind].
  destruct (pointwise_same_ok sadd s2 kk) as (s3 & -> & S3); [congruence|].
  exists s3. split; [reflexivity | congruence].
Qed.

Lemma sum0_size (t : tensor) : size (sum0 t) = tl (size t).
Proof. unfold sum0. destruct (size t) eqn:E; [rewrite E|]; reflexivity. Qed.

Lemma get_modulus_ok pre H (t : tensor) vector_form :
  quaternion_shape pre H t ->
  exists y, get_modulus t vector_form = Ok y
            /\ size y = if vector_form then pre ++ [H] else tl (pre ++ [H]).
Proof.
  intros Hq. unfold get_modulus.
  rewrite (check_input_ok t (quaternion_shape_valid pre H t Hq)). cbn [bind].
  rewrite (get_r_component pre H t Hq), (get_i_component pre H t Hq),
    (get_j_component pre H t Hq), (get_k_component pre H t Hq). cbn [bind].
  destruct (sum_of_squares_ok (component pre H 0 t) (component pre H 1 t)
              (component pre H 2 t) (component pre H 3 t) (pre ++ [H]))
    as (s & -> & Ss); try reflexivity.
  destruct vector_form; cbn [bind]; eexists; (split; [reflexivity|]); cbn [sqrt size].
  - exact Ss.
  - rewrite sum0_size, Ss. reflexivity.
Qed.

Lemma get_normalized_ok (t : tensor) eps :
  valid_shape t -> exists y, get_normalized t eps = Ok y /\ size y = size t.
Proof.
  intros Hv. destruct (valid_quaternion_shape t Hv) as (pre & H & Hq).
  unfold get_normalized. rewrite (check_input_ok t Hv). cbn [bind].
  destruct (get_modulus_ok pre H t false Hq) as (m & -> & Sm). cbn [bind].
  rewrite (quaternion_shape_dim pre H t Hq).
  destruct Hq as [Hs Hp].
  assert (E4 : (H * 4 =? 4 * H) = true) by (apply Nat.eqb_eq; lia).
  destruct pre as [|B [|S [|? ?]]]; cbn [length] in Hp; try lia;
    cbn [app tl] in Sm, Hs; cbn [length Nat.eqb].
  - unfold repeat_, dim. rewrite Sm. cbn [length Nat.leb pad Nat.sub repeat app combine map fst snd bind].
    unfold expand_as, dim. rewrite Hs.
    cbn [size length Nat.leb pad Nat.sub repeat app expandable andb].
    rewrite E4. replace (1 * 1 =? 1) with true by reflexivity.
    rewrite orb_true_r. cbn [orb andb bind].
    match goal with
    | |- exists y, div t ?x = Ok y /\ _ =>
        destruct (pointwise_same_ok sdiv t x) as (y & E & Sy);
          [cbn [add_scalar size]; exact Hs | exists y; split; [exact E | congruence]]
    end.
  - unfold repeat_, dim. rewrite Sm. cbn [length Nat.leb pad Nat.sub repeat app combine map fst snd bind].
    unfold expand_as, dim. rewrite Hs.
    cbn [size length Nat.leb pad Nat.sub repeat app expandable andb].
    rewrite E4. replace (1 * 1 =? 1) with true by reflexivity.
    rewrite (Nat.mul_1_r S), Nat.eqb_refl, orb_true_r. cbn [orb andb bind].
    match goal with
    | |- exists y, div t ?x = Ok y /\ _ =>
        destruct (pointwise_same_ok sdiv t x) as (y & E & Sy);
          [cbn [add_scalar size]; exact Hs | exists y; split; [exact E | congruence]]
    end.
Qed.

End ModulusAccepts.

(** ** Shape errors *)

Section Validation.
Context {R : Type} {SR : Scalar R}.

Local Abbreviation tensor := (@tensor R).

Lemma check_input_propagates (t : tensor) e :
  check_input t = Raise e ->
  get_r t = Raise e /\ get_i t = Raise e /\ get_j t = Raise e /\ get_k t = Raise e
  /\ (forall vector_form, get_modulus t vector_form = Raise e)
  /\ (forall eps, get_normalized t eps = Raise e)
  /\ (forall ctx r i j k bias, snd (forward ctx t r i j k bias) = Raise e).
Proof.
  intros He.
  unfold get_r, get_i, get_j, get_k, get_modulus, get_normalized, forward.
  cbn [snd]. rewrite He. cbn [bind]. repeat split; reflexivity.
Qed.

Lemma valid_shape_accepted (t : tensor) :
  valid_shape t ->
  (exists y, get_r t = Ok y) /\ (exists y, get_i t = Ok y)
  /\ (exists y, get_j t = Ok y) /\ (exists y, get_k t = Ok y)
  /\ (forall vector_form, exists y, get_modulus t vector_form = Ok y)
  /\ (forall eps, exists y, get_normalized t eps = Ok y)
  /\ (forall ctx r i j k bias e,
        snd (forward ctx t r i j k bias) = Raise e -> is_shape_error e = false).
Proof.
  intros Hv. destruct (valid_quaternion_shape t Hv) as (pre & H & Hq).
  repeat split.
  - eexists. apply (get_r_component pre H t Hq).
  - eexists. apply (get_i_component pre H t Hq).
  - eexists. apply (get_j_component pre H t Hq).
  - eexists. apply (get_k_component pre H t Hq).
  - intros vf. destruct (get_modulus_ok pre H t vf Hq) as (y & E & _). eauto.
  - intros eps. destruct (get_normalized_ok t eps Hv) as (y & E & _). eauto.
  - intros ctx r i j k bias e He.
    rewrite (forward_after_check ctx t r i j k bias (check_input_ok t Hv) e He).
    reflexivity.
Qed.

(** C7. [check_input] raises one of its two shape errors exactly when the
    rank is not 2 or 3 or the last axis is not a multiple of 4, and returns
    without effect otherwise.  When it raises, each getter, [get_modulus],
    [get_normalized] and [forward] raise that very error, whatever their
    other arguments are: nothing is computed first.  When it does not, the
    getters, [get_modulus] and [get_normalized] return a tensor and
    [forward] raises no shape error. *)
Theorem check_input_shape_error (t : tensor) :
  ((exists e, check_input t = Raise e /\ is_shape_error e = true)
   <-> (~ (dim t = 2 \/ dim t = 3) \/ last_size t mod 4 <> 0))
  /\ (check_input t = Ok tt
      <-> ((dim t = 2 \/ dim t = 3) /\ last_size t mod 4 = 0))
  /\ (forall e, check_input t = Raise e ->
        is_shape_error e = true
        /\ get_r t = Raise e /\ get_i t = Raise e
        /\ get_j t = Raise e /\ get_k t = Raise e
        /\ (forall vector_form, get_modulus t vector_form = Raise e)
        /\ (forall eps, get_normalized t eps = Raise e)
        /\ (forall ctx r i j k bias, snd (forward ctx t r i j k bias) = Raise e))
  /\ (check_input t = Ok tt ->
        (exists y, get_r t = Ok y) /\ (exists y, get_i t = Ok y)
        /\ (exists y, get_j t = Ok y) /\ (exists y, get_k t = Ok y)
        /\ (forall vector_form, exists y, get_modulus t vector_form = Ok y)
        /\ (forall eps, exists y, get_normalized t eps = Ok y)
        /\ (forall ctx r i j k bias e,
              snd (forward ctx t r i j k bias) = Raise e ->
              is_shape_error e = false)).
Proof.
  assert (Hok : check_input t = Ok tt <-> valid_shape t).
  { split; [|apply check_input_ok].
    intros E. destruct (check_input_cases t) as [[Hv _]|[[_ E']|[_ [_ E']]]];
      [exact Hv | congruence | congruence]. }
  split; [|split; [exact Hok|split]].
  - split.
    + intros (e & He & _). apply check_input_raises in He.
      destruct He as [_ Hn]. unfold valid_shape in Hn.
      destruct (Nat.eq_dec (last_size t mod 4) 0); [left; tauto | right; assumption].
    + intros Hbad.
      destruct (check_input_cases t) as [[[Hd Hm] _]|[[_ E]|[_ [_ E]]]].
      * tauto.
      * eexists. split; [exact E | reflexivity].
      * eexists. split; [exact E | reflexivity].
  - intros e He. split; [apply (check_input_raises t e He)|].
    apply check_input_propagates, He.
  - intros E. apply valid_shape_accepted, Hok, E.
Qed.

End Validation.

(** The specification's scenario: a last axis of length 6. *)
Example check_input_length_6 :
  check_input (mkT [2; 6] (repeat 0%Z 12)) = Raise (Div4Error 6)
  /\ snd (forward (mkCtx (mkNeeds true true true true true true) None)
            (mkT [2; 6] (repeat 0%Z 12)) (mkT [1; 1] [1%Z]) (mkT [1; 1] [0%Z])
            (mkT [1; 1] [0%Z]) (mkT [1; 1] [0%Z]) None)
     = Raise (Div4Error 6).
Proof. split; reflexivity. Qed.

(** ** Positions in row-major storage *)

Section Positions.
Context {A : Type}.

Lemma nth_concat_uniform (m : nat) (ls : list (list A)) (b j : nat) (d : A) :
  Forall (fun c => length c = m) ls -> b < length ls -> j < m ->
  nth (b * m + j) (concat ls) d = nth j (nth b ls []) d.
Proof.
  intros Hf. revert b. induction Hf as [|c ls Hc _ IH]; intros b Hb Hj.
  - simpl in Hb. lia.
  - destruct b as [|b]; cbn [concat nth].
    + rewrite app_nth1 by lia. reflexivity.
    + rewrite app_nth2 by lia.
      replace (S b * m + j - length c) with (b * m + j) by lia.
      apply IH; [simpl in Hb; lia | exact Hj].
Qed.

Lemma nth_chunks (B n b : nat) (xs : list A) :
  b < B -> nth b (chunks B n xs) [] = firstn n (skipn (b * n) xs).
Proof.
  revert b xs; induction B as [|B IH]; intros b xs Hb; [lia|].
  destruct b as [|b]; cbn [chunks nth]; [reflexivity|].
  rewrite IH by lia. rewrite skipn_skipn. f_equal. f_equal. lia.
Qed.

Lemma nth_slice (start len j : nat) (c : list A) (d : A) :
  j < len -> nth j (firstn len (skipn start c)) d = nth (start + j) c d.
Proof.
  intros Hj. rewrite nth_firstn.
  destruct (Nat.ltb_spec j len); [|lia]. apply nth_skipn.
Qed.

Lemma nth_map_in {B : Type} (f : B -> list A) (l : list B) (b : nat) (d : B) :
  b < length l -> nth b (map f l) [] = f (nth b l d).
Proof.
  revert b; induction l as [|x l IH]; intros b Hb; simpl in *; [lia|].
  destruct b; [reflexivity|]. apply IH. lia.
Qed.

(** Element [j] of the slice of row [b]. *)
Lemma nth_sliced_rows (B n start len b j : nat) (xs : list A) (d : A) :
  length xs = B * n -> start + len <= n -> b < B -> j < len ->
  nth (b * len + j)
      (concat (map (fun c => firstn len (skipn start c)) (chunks B n xs))) d
  = nth (b * n + (start + j)) xs d.
Proof.
  intros Hl Hle Hb Hj.
  rewrite (nth_concat_uniform len); [| |rewrite length_map, chunks_length; lia|lia].
  - rewrite (nth_map_in _ _ _ []) by (rewrite chunks_length; lia).
    rewrite nth_chunks by lia.
    rewrite nth_slice by lia. rewrite nth_slice by lia. reflexivity.
  - apply Forall_map.
    eapply Forall_impl; [|apply (chunks_Forall B n xs Hl)].
    intros c Hc. cbv beta in Hc. rewrite length_firstn, length_skipn. lia.
Qed.

Lemma nth_map2 (f : A -> A -> A) (xs ys : list A) (i : nat) (d : A) :
  i < length xs -> i < length ys ->
  nth i (map2 f xs ys) d = f (nth i xs d) (nth i ys d).
Proof.
  revert ys i; induction xs as [|x xs IH]; intros [|y ys] i Hx Hy;
    simpl in *; try lia.
  destruct i as [|i]; [reflexivity|]. apply IH; lia.
Qed.

End Positions.

(** ** Normalisation by the batch-aggregated modulus *)

Section Normalisation.
Context {R : Type} {SR : Scalar R}.

Local Abbreviation tensor := (@tensor R).

Lemma chunks_seq (B n : nat) (xs : list R) :
  chunks B n xs = map (fun b => firstn n (skipn (b * n) xs)) (seq 0 B).
Proof.
  revert xs; induction B as [|B IH]; intros xs; [reflexivity|].
  cbn [chunks seq map]. f_equal. rewrite IH, <- seq_shift, map_map.
  apply map_ext. intros b. rewrite skipn_skipn. f_equal. f_equal. lia.
Qed.

Lemma fold_map2_length (n : nat) (rs : list (list R)) (acc : list R) :
  Forall (fun c => length c = n) rs -> length acc = n ->
  length (fold_left (map2 sadd) rs acc) = n.
Proof.
  intros Hf. revert acc. induction Hf as [|c rs Hc _ IH]; intros acc Ha;
    cbn [fold_left]; [exact Ha|].
  apply IH. rewrite map2_length. lia.
Qed.

(** Position [h] of a sum of rows is the sum of the positions [h]. *)
Lemma nth_fold_map2 (n h : nat) (rs : list (list R)) (acc : list R) (d : R) :
  Forall (fun c => length c = n) rs -> length acc = n -> h < n ->
  nth h (fold_left (map2 sadd) rs acc) d
  = fold_left sadd (map (fun c => nth h c d) rs) (nth h acc d).
Proof.
  intros Hf. revert acc. induction Hf as [|c rs Hc _ IH]; intros acc Ha Hh;
    cbn [fold_left map]; [reflexivity|].
  rewrite IH by (rewrite ?map2_length; lia).
  rewrite nth_map2 by lia. reflexivity.
Qed.

Lemma nth_sum0_rows (B n h : nat) (xs : list R) (d : R) :
  length xs = B * n -> h < n ->
  nth h (fold_left (map2 sadd) (chunks B n xs) (repeat szero n)) d
  = fold_left sadd (map (fun b => nth (b * n + h) xs d) (seq 0 B)) szero.
Proof.
  intros Hl Hh.
  rewrite (nth_fold_map2 n) by (auto using chunks_Forall, repeat_length).
  rewrite nth_repeat_lt by exact Hh.
  rewrite chunks_seq, map_map. f_equal.
  apply map_ext. intros b. apply nth_slice. exact Hh.
Qed.

Lemma sum_of_squares_shaped s (r i j k : tensor) :
  has_shape s r -> has_shape s i -> has_shape s j -> has_shape s k ->
  sum_of_squares r i j k
  = Ok (ew sadd (ew sadd (ew sadd (ew smul r r) (ew smul i i)) (ew smul j j))
                (ew smul k k)).
Proof.
  intros Hr Hi Hj Hk. unfold sum_of_squares, mul, add.
  rewrite (pointwise_shaped smul s r r Hr Hr). cbn [bind].
  rewrite (pointwise_shaped smul s i i Hi Hi). cbn [bind].
  rewrite (pointwise_shaped sadd s) by auto with shapes. cbn [bind].
  rewrite (pointwise_shaped smul s j j Hj Hj). cbn [bind].
  rewrite (pointwise_shaped sadd s) by auto 6 with shapes. cbn [bind].
  rewrite (pointwise_shaped smul s k k Hk Hk). cbn [bind].
  rewrite (pointwise_shaped sadd s) by auto 8 with shapes.
  reflexivity.
Qed.

Lemma squares_shaped B H (t : tensor) :
  has_shape ([B] ++ [4 * H]) t -> has_shape ([B] ++ [H]) (squares B H t).
Proof. intros Ht. unfold squares. auto 12 with shapes. Qed.

Lemma batch_modulus_length B H (t : tensor) :
  has_shape ([B] ++ [4 * H]) t -> length (batch_modulus B H t) = H.
Proof.
  intros Ht. unfold batch_modulus. rewrite length_map.
  apply fold_map2_length; [|apply repeat_length].
  apply chunks_Forall. apply shaped_data_length, squares_shaped, Ht.
Qed.

Lemma get_modulus_matrix B H (t : tensor) :
  has_shape [B; 4 * H] t ->
  get_modulus t false = Ok (mkT [H] (batch_modulus B H t)).
Proof.
  intros Ht. unfold get_modulus.
  destruct (getters_matrix B H t Ht) as (G1 & G2 & G3 & G4).
  assert (Hq : quaternion_shape [B] H t)
    by (split; [apply Ht | left; reflexivity]).
  rewrite (check_input_ok t (quaternion_shape_valid [B] H t Hq)). cbn [bind].
  rewrite G1, G2, G3, G4. cbn [bind].
  change (has_shape ([B] ++ [4 * H]) t) in Ht.
  rewrite (sum_of_squares_shaped ([B] ++ [H])) by auto with shapes. cbn [bind].
  fold (squares B H t). unfold sum0, sqrt.
  destruct (squares_shaped B H t Ht) as [-> _].
  cbn [app size data numel fold_right]. rewrite Nat.mul_1_r. reflexivity.
Qed.

(** [repeat(1, 4)] of a vector of length [H]: four copies side by side. *)
Lemma tile_vector (H : nat) (x : list R) :
  length x = H -> tile_data [1; H] [1; 4] x = concat (repeat x 4).
Proof.
  intros Hl. cbn [tile_data numel fold_right]. rewrite Nat.mul_1_r.
  rewrite (chunks_one H x Hl). cbn [map].
  rewrite map_id, concat_chunks by lia.
  cbn [repeat concat]. rewrite !app_nil_r. reflexivity.
Qed.

(** [expand_as] from shape [1, 4H] to shape [B, 4H]: the row, [B] times. *)
Lemma expand_row (B H : nat) (x : list R) :
  length x = 4 * H ->
  expand_data [1 * 1; H * 4] [B; 4 * H] x = concat (repeat x B).
Proof.
  intros Hl. cbn [expand_data numel fold_right].
  replace (H * 4 =? 4 * H) with true by (symmetry; apply Nat.eqb_eq; lia).
  replace (1 * 1) with 1 by reflexivity.
  rewrite (chunks_one (H * 4 * 1) x) by lia. cbn [map concat].
  rewrite map_id, concat_chunks by lia. rewrite app_nil_r.
  destruct (Nat.eqb_spec 1 B) as [<-|_]; [|reflexivity].
  cbn [repeat concat]. rewrite app_nil_r. reflexivity.
Qed.

Lemma divisors_shaped B H (t : tensor) eps :
  has_shape ([B] ++ [4 * H]) t -> has_shape [B; 4 * H] (divisors B H t eps).
Proof.
  intros Ht. split; [reflexivity|]. unfold wf. cbn [divisors data size].
  rewrite length_map, !length_concat_repeat, (batch_modulus_length B H t Ht).
  cbn [numel fold_right]. lia.
Qed.

Lemma get_normalized_matrix B H (t : tensor) eps :
  has_shape [B; 4 * H] t ->
  get_normalized t eps = Ok (ew sdiv t (divisors B H t eps)).
Proof.
  intros Ht. unfold get_normalized.
  assert (Hq : quaternion_shape [B] H t)
    by (split; [apply Ht | left; reflexivity]).
  rewrite (check_input_ok t (quaternion_shape_valid [B] H t Hq)). cbn [bind].
  rewrite (get_modulus_matrix B H t Ht). cbn [bind].
  rewrite (quaternion_shape_dim [B] H t Hq). cbn [length Nat.eqb].
  pose proof (batch_modulus_length B H t Ht) as Lm.
  unfold repeat_, dim. cbn [size data length Nat.leb pad Nat.sub repeat app combine map fst snd bind].
  rewrite (tile_vector H _ Lm).
  unfold expand_as, dim. destruct Ht as [Hs Hw]. rewrite Hs.
  cbn [size data length Nat.leb pad Nat.sub repeat app expandable andb].
  replace (H * 4 =? 4 * H) with true by (symmetry; apply Nat.eqb_eq; lia).
  replace (1 * 1 =? 1) with true by reflexivity.
  rewrite orb_true_r. cbn [orb andb bind].
  rewrite expand_row
    by (cbn [concat]; rewrite !length_app, Lm; cbn [length]; lia).
  unfold div. apply (pointwise_shaped sdiv [B; 4 * H]).
  - split; assumption.
  - apply (divisors_shaped B H t eps). split; assumption.
Qed.

Lemma index_bound (b B W c : nat) : b < B -> c < W -> b * W + c < B * W.
Proof.
  intros Hb Hc. assert (S b * W <= B * W) by (apply Nat.mul_le_mono_r; lia). lia.
Qed.

Lemma nth_map_default {A : Type} (f : A -> A) (l : list A) (i : nat) (d d' : A) :
  i < length l -> nth i (map f l) d' = f (nth i l d).
Proof.
  revert i; induction l as [|x l IH]; intros i Hi; simpl in *; [lia|].
  destruct i; [reflexivity|]. apply IH. lia.
Qed.

Lemma entry_component B H q (t : tensor) b h :
  has_shape ([B] ++ [4 * H]) t -> q < 4 -> b < B -> h < H ->
  nth (b * H + h) (data (component [B] H q t)) szero
  = entry (4 * H) t b (q * H + h).
Proof.
  intros Ht Hq Hb Hh. unfold component, entry, slice. cbn [data numel fold_right].
  rewrite Nat.mul_1_r.
  apply nth_sliced_rows; try assumption.
  - apply (shaped_data_length B (4 * H) t Ht).
  - apply offset_bound, Hq.
Qed.

Lemma component_length B H q (t : tensor) :
  has_shape ([B] ++ [4 * H]) t -> q < 4 ->
  length (data (component [B] H q t)) = B * H.
Proof.
  intros Ht Hq. apply shaped_data_length. auto with shapes.
Qed.

Lemma entry_squares B H (t : tensor) b h :
  has_shape ([B] ++ [4 * H]) t -> b < B -> h < H ->
  nth (b * H + h) (data (squares B H t)) szero = spec_quad H t b h.
Proof.
  intros Ht Hb Hh. pose proof (index_bound b B H h Hb Hh) as Hi.
  pose proof (component_length B H 0 t Ht) as L0.
  pose proof (component_length B H 1 t Ht) as L1.
  pose proof (component_length B H 2 t Ht) as L2.
  pose proof (component_length B H 3 t Ht) as L3.
  unfold squares, ew, spec_quad. cbn [data].
  repeat rewrite nth_map2 by (rewrite ?map2_length, ?L0, ?L1, ?L2, ?L3; lia).
  rewrite !(entry_component B H _ t b h Ht) by (assumption || lia).
  cbn [Nat.mul Nat.add]. rewrite !Nat.add_0_r, !Nat.add_assoc. reflexivity.
Qed.

(** C10. For a well-formed matrix of quaternions [t] of shape [B, 4H],
    [get_normalized t eps] returns the matrix of that shape whose element
    [b, c] is the element [b, c] of [t] divided by one divisor per feature
    position [c mod H], the same for the four components and for every
    row: the square root of the sum, over all rows of the batch, of
    r^2 + i^2 + j^2 + k^2 at that position, plus [eps]. *)
Theorem get_normalized_batch_divisor B H (t : tensor) eps :
  has_shape [B; 4 * H] t ->
  exists y,
    get_normalized t eps = Ok y
    /\ has_shape [B; 4 * H] y
    /\ forall b c, b < B -> c < 4 * H ->
         entry (4 * H) y b c
         = sdiv (entry (4 * H) t b c) (spec_divisor B H t eps (c mod H)).
Proof.
  intros Ht. exists (ew sdiv t (divisors B H t eps)).
  pose proof (divisors_shaped B H t eps Ht) as Hd.
  split; [apply get_normalized_matrix, Ht|].
  split; [apply has_shape_ew; assumption|].
  intros b c Hb Hc.
  assert (HH : 0 < H) by lia.
  pose proof (index_bound b B (4 * H) c Hb Hc) as Hi.
  pose proof (batch_modulus_length B H t Ht) as Lm.
  assert (L4 : length (concat (repeat (batch_modulus B H t) 4)) = 4 * H)
    by (rewrite length_concat_repeat; lia).
  unfold entry at 1. unfold ew. cbn [data].
  rewrite nth_map2.
  2: { destruct Ht as [Hs Hw]. unfold wf in Hw. rewrite Hw, Hs. cbn. lia. }
  2: { destruct Hd as [Hs Hw]. unfold wf in Hw. rewrite Hw, Hs. cbn. lia. }
  fold (entry (4 * H) t b c). f_equal.
  unfold divisors. cbn [data].
  rewrite (nth_map_default _ _ _ szero) by (rewrite length_concat_repeat; lia).
  unfold spec_divisor. f_equal.
  rewrite (nth_concat_uniform (4 * H)); [| |rewrite repeat_length; lia|lia].
  2: { apply Forall_forall. intros x Hx. apply repeat_spec in Hx. subst x. exact L4. }
  rewrite nth_repeat_lt by exact Hb.
  rewrite (Nat.div_mod_eq c H) at 1. rewrite (Nat.mul_comm H (c / H)).
  assert (Hq : c / H < 4) by (apply Nat.Div0.div_lt_upper_bound; lia).
  assert (Hr : c mod H < H) by (apply Nat.mod_upper_bound; lia).
  rewrite (nth_concat_uniform H); [| |rewrite repeat_length; lia|lia].
  2: { apply Forall_forall. intros x Hx. apply repeat_spec in Hx. subst x. exact Lm. }
  rewrite nth_repeat_lt by exact Hq.
  unfold batch_modulus.
  rewrite (nth_map_default _ _ _ szero).
  2: { rewrite (fold_map2_length H); [lia| |apply repeat_length].
       apply chunks_Forall, shaped_data_length, squares_shaped, Ht. }
  f_equal.
  rewrite nth_sum0_rows
    by (try apply shaped_data_length; try apply squares_shaped; assumption).
  f_equal. apply map_ext_in. intros b' Hb'. apply in_seq in Hb'.
  apply entry_squares; [exact Ht | lia | exact Hr].
Qed.

End Normalisation.

(** The theorem at a 2 x 4 integer matrix. *)
Lemma get_normalized_batch_divisor_witness :
  exists y : @tensor Z,
    get_normalized (mkT [2; 4] [12; 0; 0; 0; 5; 0; 0; 0]%Z) 0%Z = Ok y
    /\ has_shape [2; 4 * 1] y
    /\ forall b c, b < 2 -> c < 4 * 1 ->
         entry (4 * 1) y b c
         = sdiv (entry (4 * 1) (mkT [2; 4] [12; 0; 0; 0; 5; 0; 0; 0]%Z) b c)
                (spec_divisor 2 1 (mkT [2; 4] [12; 0; 0; 0; 5; 0; 0; 0]%Z) 0%Z (c mod 1)).
Proof.
  apply (get_normalized_batch_divisor 2 1 (mkT [2; 4] [12; 0; 0; 0; 5; 0; 0; 0]%Z) 0%Z).
  split; reflexivity.
Defined.

(** The first row of the result depends on the second row of the input:
    12 is divided by sqrt (144 + 0) = 12 in one batch and by
    sqrt (144 + 25) = 13 in the other (integer division). *)
Example get_normalized_mixes_rows :
  get_normalized (mkT [2; 4] [12; 0; 0; 0; 0; 0; 0; 0]%Z) 0%Z
    = Ok (mkT [2; 4] [1; 0; 0; 0; 0; 0; 0; 0]%Z)
  /\ get_normalized (mkT [2; 4] [12; 0; 0; 0; 5; 0; 0; 0]%Z) 0%Z
    = Ok (mkT [2; 4] [0; 0; 0; 0; 0; 0; 0; 0]%Z).
Proof. split; reflexivity. Qed.

(** ** The block-encoding matrix *)

Section Encoding.
Context {R : Type} {SR : Scalar R}.

Local Abbreviation tensor := (@tensor R).

Lemma zip_app_length (a b : list (list R)) :
  length (zip_app a b) = Nat.min (length a) (length b).
Proof. unfold zip_app. rewrite length_map, length_combine. reflexivity. Qed.

Lemma interleave4_length (k : nat) (A B C D : list (list R)) :
  length A = k -> length B = k -> length C = k -> length D = k ->
  length (interleave k [A; B; C; D]) = k.
Proof.
  intros HA HB HC HD. unfold interleave. cbn [fold_right].
  rewrite !zip_app_length, repeat_length. lia.
Qed.

Lemma interleave4_app (k1 k2 : nat) (A1 A2 B1 B2 C1 C2 D1 D2 : list (list R)) :
  length A1 = k1 -> length B1 = k1 -> length C1 = k1 -> length D1 = k1 ->
  interleave (k1 + k2) [A1 ++ A2; B1 ++ B2; C1 ++ C2; D1 ++ D2]
  = interleave k1 [A1; B1; C1; D1] ++ interleave k2 [A2; B2; C2; D2].
Proof.
  intros HA HB HC HD. unfold interleave. cbn [fold_right].
  rewrite repeat_app.
  rewrite !zip_app_app; rewrite ?zip_app_length, ?repeat_length; try lia.
  reflexivity.
Qed.

Lemma interleave4_single (a b c d : list R) :
  interleave 1 [[a]; [b]; [c]; [d]] = [a ++ b ++ c ++ d].
Proof. cbn. rewrite app_nil_r. reflexivity. Qed.

Lemma neg_shaped s (t : tensor) : has_shape s t -> has_shape s (neg t).
Proof.
  intros [Hs Hw]. split; [exact Hs|]. unfold wf in *. cbn [neg data size].
  rewrite length_map. exact Hw.
Qed.

(** Vertical concatenation of four [F x G] matrices. *)
Lemma cat4_vertical F G (a b c d : tensor) :
  has_shape [F; G] a -> has_shape [F; G] b ->
  has_shape [F; G] c -> has_shape [F; G] d ->
  cat [a; b; c; d] 0
  = Ok (mkT [4 * F; G] (data a ++ data b ++ data c ++ data d)).
Proof.
  intros [Sa Wa] [Sb Wb] [Sc Wc] [Sd Wd].
  pose proof (cat4_axis a b c d [] [G] F F F F Sa Sb Sc Sd) as E.
  cbn [length] in E. rewrite E. clear E.
  unfold wf in *. rewrite Sa in Wa. rewrite Sb in Wb. rewrite Sc in Wc. rewrite Sd in Wd.
  cbn [numel fold_right app] in *.
  rewrite !chunks_one by assumption. rewrite interleave4_single.
  cbn [concat]. rewrite app_nil_r. reflexivity.
Qed.

(** Horizontal concatenation of four matrices with [K] rows of length [G]. *)
Lemma cat4_horizontal K G (a b c d : tensor) :
  size a = [K; G] -> size b = [K; G] -> size c = [K; G] -> size d = [K; G] ->
  cat [a; b; c; d] 1
  = Ok (mkT [K; 4 * G]
            (concat (interleave K [chunks K G (data a); chunks K G (data b);
                                   chunks K G (data c); chunks K G (data d)]))).
Proof.
  intros Sa Sb Sc Sd.
  pose proof (cat4_axis a b c d [K] [] G G G G Sa Sb Sc Sd) as E.
  cbn [length] in E. rewrite E. clear E.
  cbn [numel fold_right app]. rewrite !Nat.mul_1_r. reflexivity.
Qed.

Lemma chunks4 F G (a b c d : list R) :
  length a = F * G -> length b = F * G -> length c = F * G ->
  chunks (4 * F) G (a ++ b ++ c ++ d)
  = chunks F G a ++ chunks F G b ++ chunks F G c ++ chunks F G d.
Proof.
  intros Ha Hb Hc. change (4 * F) with (F + (F + (F + (F + 0)))).
  rewrite !chunks_app by assumption. rewrite Nat.add_0_r. reflexivity.
Qed.

(** Four columns of four stacked blocks hold the same storage as four
    stacked rows of four blocks side by side. *)
Lemma block_transpose_data F G
    (a00 a01 a02 a03 a10 a11 a12 a13 a20 a21 a22 a23 a30 a31 a32 a33 : list R) :
  length a00 = F * G -> length a01 = F * G -> length a02 = F * G -> length a03 = F * G ->
  length a10 = F * G -> length a11 = F * G -> length a12 = F * G -> length a13 = F * G ->
  length a20 = F * G -> length a21 = F * G -> length a22 = F * G -> length a23 = F * G ->
  concat (interleave (4 * F)
    [chunks (4 * F) G (a00 ++ a10 ++ a20 ++ a30);
     chunks (4 * F) G (a01 ++ a11 ++ a21 ++ a31);
     chunks (4 * F) G (a02 ++ a12 ++ a22 ++ a32);
     chunks (4 * F) G (a03 ++ a13 ++ a23 ++ a33)])
  = concat (interleave F [chunks F G a00; chunks F G a01; chunks F G a02; chunks F G a03])
    ++ concat (interleave F [chunks F G a10; chunks F G a11; chunks F G a12; chunks F G a13])
    ++ concat (interleave F [chunks F G a20; chunks F G a21; chunks F G a22; chunks F G a23])
    ++ concat (interleave F [chunks F G a30; chunks F G a31; chunks F G a32; chunks F G a33]).
Proof.
  intros. rewrite !chunks4 by assumption.
  change (4 * F) with (F + (F + (F + (F + 0)))).
  rewrite !interleave4_app by apply chunks_length.
  rewrite Nat.add_0_r, !concat_app. reflexivity.
Qed.

Lemma horizontal_length K G (a b c d : list R) :
  length a = K * G -> length b = K * G -> length c = K * G -> length d = K * G ->
  length (concat (interleave K [chunks K G a; chunks K G b;
                                chunks K G c; chunks K G d])) = K * (4 * G).
Proof.
  intros Ha Hb Hc Hd.
  destruct (interleave4_slices G (chunks K G a) (chunks K G b)
              (chunks K G c) (chunks K G d)) as (I1 & I2 & _);
    rewrite ?chunks_length; auto using chunks_Forall.
  rewrite chunks_length in I1, I2.
  rewrite (length_concat_uniform (4 * G)) by exact I1. rewrite I2. reflexivity.
Qed.

Lemma horizontal_shaped F G (a b c d : tensor) :
  has_shape [F; G] a -> has_shape [F; G] b ->
  has_shape [F; G] c -> has_shape [F; G] d ->
  has_shape [F; 4 * G]
    (mkT [F; 4 * G]
         (concat (interleave F [chunks F G (data a); chunks F G (data b);
                                chunks F G (data c); chunks F G (data d)]))).
Proof.
  intros Ha Hb Hc Hd. split; [reflexivity|]. unfold wf. cbn [data size].
  rewrite horizontal_length by (apply shaped_data_length; assumption).
  cbn [numel fold_right]. lia.
Qed.

Lemma cat_kernels_code_encoding F G (r i j k : tensor) :
  has_shape [F; G] r -> has_shape [F; G] i ->
  has_shape [F; G] j -> has_shape [F; G] k ->
  exists E, cat_kernels r i j k = Ok E
            /\ code_encoding r i j k = Ok E
            /\ has_shape [4 * F; 4 * G] E.
Proof.
  intros Hr Hi Hj Hk.
  pose proof (neg_shaped [F; G] i Hi) as Hni.
  pose proof (neg_shaped [F; G] j Hj) as Hnj.
  pose proof (neg_shaped [F; G] k Hk) as Hnk.
  unfold cat_kernels, code_encoding, stack_table, code_blocks, stack_rows. cbn [nth].
  rewrite !(cat4_vertical F G) by assumption. cbn [bind].
  rewrite (cat4_horizontal (4 * F) G) by reflexivity.
  rewrite !(cat4_horizontal F G) by (apply Hr || apply Hi || apply Hj || apply Hk
                                     || apply Hni || apply Hnj || apply Hnk).
  cbn [bind].
  rewrite (cat4_vertical F (4 * G)) by (apply horizontal_shaped; assumption).
  cbn [data].
  eexists. split; [reflexivity|]. split.
  - f_equal. f_equal. symmetry.
    apply block_transpose_data;
      first [ apply (shaped_data_length F G _ Hr) | apply (shaped_data_length F G _ Hi)
            | apply (shaped_data_length F G _ Hj) | apply (shaped_data_length F G _ Hk)
            | apply (shaped_data_length F G _ Hni) | apply (shaped_data_length F G _ Hnj)
            | apply (shaped_data_length F G _ Hnk) ].
  - split; [reflexivity|]. unfold wf. cbn [data size].
    rewrite horizontal_length.
    + cbn [numel fold_right]. lia.
    + rewrite !length_app, (shaped_data_length F G _ Hr), (shaped_data_length F G _ Hni),
        (shaped_data_length F G _ Hnj), (shaped_data_length F G _ Hnk). lia.
    + rewrite !length_app, (shaped_data_length F G _ Hr), (shaped_data_length F G _ Hi),
        (shaped_data_length F G _ Hnk), (shaped_data_length F G _ Hj). lia.
    + rewrite !length_app, (shaped_data_length F G _ Hr), (shaped_data_length F G _ Hni),
        (shaped_data_length F G _ Hj), (shaped_data_length F G _ Hk). lia.
    + rewrite !length_app, (shaped_data_length F G _ Hr), (shaped_data_length F G _ Hi),
        (shaped_data_length F G _ Hnj), (shaped_data_length F G _ Hk). lia.
Qed.

(** The code's layout is the block transpose of the specification's. *)
Lemma code_blocks_transpose (r i j k : tensor) p q :
  p < 4 -> q < 4 ->
  block (code_blocks r i j k) p q r = block (spec_blocks r i j k) q p r.
Proof.
  intros Hp Hq.
  destruct p as [|[|[|[|p]]]]; try lia;
    destruct q as [|[|[|[|q]]]]; try lia; reflexivity.
Qed.

(** Element [f, q * G + g] of four [F x G] matrices side by side is element
    [f, g] of the matrix number [q]. *)
Lemma horizontal_entry F G (a b c d : tensor) q f g :
  has_shape [F; G] a -> has_shape [F; G] b ->
  has_shape [F; G] c -> has_shape [F; G] d ->
  q < 4 -> f < F -> g < G ->
  nth (f * (4 * G) + (q * G + g))
      (concat (interleave F [chunks F G (data a); chunks F G (data b);
                             chunks F G (data c); chunks F G (data d)])) szero
  = entry G (nth q [a; b; c; d] a) f g.
Proof.
  intros Ha Hb Hc Hd Hq Hf Hg.
  pose proof (shaped_data_length F G a Ha) as La.
  pose proof (shaped_data_length F G b Hb) as Lb.
  pose proof (shaped_data_length F G c Hc) as Lc.
  pose proof (shaped_data_length F G d Hd) as Ld.
  destruct (interleave4_slices G (chunks F G (data a)) (chunks F G (data b))
              (chunks F G (data c)) (chunks F G (data d)))
    as (I1 & I2 & I3 & I4 & I5 & I6);
    rewrite ?chunks_length; auto using chunks_Forall.
  rewrite chunks_length in *.
  set (rows := interleave F [chunks F G (data a); chunks F G (data b);
                             chunks F G (data c); chunks F G (data d)]) in *.
  assert (Hb4 : q * G + g < 4 * G).
  { pose proof (offset_bound q G Hq). lia. }
  rewrite (nth_concat_uniform (4 * G)) by (assumption || lia).
  rewrite <- (nth_slice (q * G) G g) by exact Hg.
  fold (slice (q * G) G (nth f rows [])).
  rewrite <- (nth_map_in (slice (q * G) G) rows f []) by lia.
  unfold entry.
  destruct q as [|[|[|[|q]]]]; try lia; cbn [nth];
    [rewrite I3 | rewrite I4 | rewrite I5 | rewrite I6];
    rewrite nth_chunks by exact Hf; apply nth_slice; exact Hg.
Qed.

(** Element [p * F + f, q * G + g] of four stacked rows of four [F x G]
    blocks is element [f, g] of block [p, q]. *)
Lemma stack_rows_entries F G
    (a00 a01 a02 a03 a10 a11 a12 a13 a20 a21 a22 a23 a30 a31 a32 a33 : tensor) :
  Forall (has_shape [F; G])
    [a00; a01; a02; a03; a10; a11; a12; a13;
     a20; a21; a22; a23; a30; a31; a32; a33] ->
  exists E,
    stack_rows [a00; a01; a02; a03] [a10; a11; a12; a13]
               [a20; a21; a22; a23] [a30; a31; a32; a33] = Ok E
    /\ has_shape [4 * F; 4 * G] E
    /\ forall p q f g, p < 4 -> q < 4 -> f < F -> g < G ->
         entry (4 * G) E (p * F + f) (q * G + g)
         = entry G (block [[a00; a01; a02; a03]; [a10; a11; a12; a13];
                           [a20; a21; a22; a23]; [a30; a31; a32; a33]] p q a00) f g.
Proof.
  intros Hall.
  repeat match goal with
  | H : Forall _ (_ :: _) |- _ => inversion H; subst; clear H
  end.
  assert (L : forall a b c d : tensor,
    has_shape [F; G] a -> has_shape [F; G] b ->
    has_shape [F; G] c -> has_shape [F; G] d ->
    length (concat (interleave F [chunks F G (data a); chunks F G (data b);
                                  chunks F G (data c); chunks F G (data d)]))
    = F * (4 * G)).
  { intros. apply horizontal_length; apply shaped_data_length; assumption. }
  unfold stack_rows.
  rewrite !(cat4_horizontal F G)
    by match goal with H : has_shape _ ?a |- size ?a = _ => apply H end.
  cbn [bind].
  rewrite (cat4_vertical F (4 * G)) by (apply horizontal_shaped; assumption).
  cbn [data]. eexists. split; [reflexivity|]. split.
  - split; [reflexivity|]. unfold wf. cbn [data size numel fold_right].
    rewrite !length_app, !L by assumption. lia.
  - intros p q f g Hp Hq Hf Hg. unfold entry at 1. cbn [data].
    replace ((p * F + f) * (4 * G) + (q * G + g))
      with (p * (F * (4 * G)) + (f * (4 * G) + (q * G + g))) by ring.
    assert (Hb4 : q * G + g < 4 * G) by (pose proof (offset_bound q G Hq); lia).
    pose proof (index_bound f F (4 * G) (q * G + g) Hf Hb4) as Hj.
    match goal with
    | |- nth _ (?x0 ++ ?x1 ++ ?x2 ++ ?x3) _ = _ =>
        change (x0 ++ x1 ++ x2 ++ x3) with (x0 ++ x1 ++ x2 ++ x3);
        replace (x0 ++ x1 ++ x2 ++ x3) with (concat [x0; x1; x2; x3])
          by (cbn [concat]; rewrite app_nil_r; reflexivity)
    end.
    rewrite (nth_concat_uniform (F * (4 * G))); [| |cbn [length]; lia|exact Hj].
    + unfold block.
      destruct p as [|[|[|[|p]]]]; try lia; cbn [nth];
        rewrite horizontal_entry by assumption;
        destruct q as [|[|[|[|q]]]]; try lia; reflexivity.
    + repeat constructor; apply L; assumption.
Qed.

End Encoding.

(** ** Matrix products and broadcast sums, element by element *)

Section Products.
Context {R : Type} {SR : Scalar R}.

Local Abbreviation tensor := (@tensor R).

Lemma columns_nth (W K c : nat) (t : tensor) :
  c < W ->
  nth c (columns W (chunks K W (data t))) [] = column W K t c.
Proof.
  intros Hc. unfold columns, column, entry.
  rewrite (nth_map_in _ _ _ 0) by (rewrite length_seq; exact Hc).
  rewrite seq_nth by exact Hc. cbn [Nat.add].
  rewrite chunks_seq, map_map. apply map_ext. intros k.
  apply nth_slice. exact Hc.
Qed.

(** Element [n, c] of a product is the dot product of row [n] of the left
    operand and column [c] of the right one. *)
Lemma matprod_entry (P Q W n c : nat) (x E : tensor) :
  n < P -> c < W ->
  nth (n * W + c) (matprod Q W (chunks P Q (data x)) E) szero
  = dot (row Q x n) (column W Q E c).
Proof.
  intros Hn Hc. unfold matprod.
  rewrite (nth_concat_uniform W); [| |rewrite length_map, chunks_length; lia|lia].
  - rewrite (nth_map_in _ _ _ []) by (rewrite chunks_length; lia).
    rewrite nth_chunks by exact Hn. fold (row Q x n).
    rewrite (nth_indep _ szero (dot (row Q x n) []))
      by (rewrite length_map; unfold columns; rewrite length_map, length_seq; lia).
    rewrite map_nth, columns_nth by exact Hc. reflexivity.
  - apply Forall_map, Forall_forall. intros r _.
    unfold columns. rewrite !length_map, length_seq. reflexivity.
Qed.

Lemma matprod_length (P Q W : nat) (x E : tensor) :
  length (matprod Q W (chunks P Q (data x)) E) = P * W.
Proof.
  unfold matprod. rewrite (length_concat_uniform W).
  - rewrite length_map, chunks_length. reflexivity.
  - apply Forall_map, Forall_forall. intros r _.
    unfold columns. rewrite !length_map, length_seq. reflexivity.
Qed.

Lemma mm_matrix P Q W (x E : tensor) :
  size x = [P; Q] -> size E = [Q; W] ->
  mm x E = Ok (mkT [P; W] (matprod Q W (chunks P Q (data x)) E)).
Proof.
  intros Sx SE. unfold mm. rewrite Sx, SE, Nat.eqb_refl. reflexivity.
Qed.

Lemma matmul_batched B S Q W (x E : tensor) :
  size x = [B; S; Q] -> size E = [Q; W] ->
  matmul x E
  = Ok (mkT [B; S; W] (matprod Q W (chunks (S * (B * 1)) Q (data x)) E)).
Proof.
  intros Sx SE. unfold matmul. rewrite Sx, SE. cbn [rev app].
  rewrite Nat.eqb_refl. reflexivity.
Qed.

(** A vector of length [W] viewed as [K] equal rows. *)
Lemma expand_vector_rows (K W : nat) (d : list R) :
  length d = W -> expand_data [1; W] [K; W] d = concat (repeat d K).
Proof.
  intros Hl. cbn [expand_data numel fold_right]. rewrite Nat.eqb_refl.
  rewrite (chunks_one (W * 1) d) by lia. cbn [map concat].
  rewrite map_id, concat_chunks by lia. rewrite app_nil_r.
  destruct (Nat.eqb_spec 1 K) as [<-|_]; [|reflexivity].
  cbn [repeat concat]. rewrite app_nil_r. reflexivity.
Qed.

Lemma nth_repeated_rows (K W n c : nat) (d : list R) :
  length d = W -> n < K -> c < W ->
  nth (n * W + c) (concat (repeat d K)) szero = nth c d szero.
Proof.
  intros Hl Hn Hc.
  rewrite (nth_concat_uniform W); [| |rewrite repeat_length; lia|lia].
  - rewrite nth_repeat_lt by exact Hn. reflexivity.
  - apply Forall_forall. intros y Hy. apply repeat_spec in Hy. subst y. exact Hl.
Qed.

(** [addmm]: the bias vector is added, in front, to every row of the
    product. *)
Lemma addmm_matrix P Q W (bias x E : tensor) :
  has_shape [W] bias -> size x = [P; Q] -> size E = [Q; W] ->
  addmm bias x E
  = Ok (mkT [P; W]
            (map2 sadd (concat (repeat (data bias) P))
                       (matprod Q W (chunks P Q (data x)) E))).
Proof.
  intros [Sb Wb] Sx SE. unfold addmm. rewrite (mm_matrix P Q W x E Sx SE).
  cbn [bind]. unfold expand_as, dim. rewrite Sb.
  cbn [size data length Nat.leb pad Nat.sub repeat app expandable andb].
  rewrite (Nat.eqb_refl W), (Nat.eqb_refl 1), orb_true_r.
  cbn [orb andb bind size data].
  rewrite expand_vector_rows; [reflexivity|].
  unfold wf in Wb. rewrite Wb, Sb. cbn. lia.
Qed.

Lemma bshape_cons_one (a : nat) (s1 s2 r : list nat) :
  bshape s1 s2 = Some r -> bshape (a :: s1) (1 :: s2) = Some (a :: r).
Proof.
  intros Hb. cbn [bshape]. rewrite Hb.
  destruct (a =? 1) eqn:E; reflexivity.
Qed.

Lemma concat_repeat_concat (d : list R) (S B : nat) :
  concat (repeat (concat (repeat d S)) B) = concat (repeat d (B * S)).
Proof.
  induction B as [|B IH]; [reflexivity|].
  cbn [repeat concat Nat.mul]. rewrite IH, repeat_app, concat_app. reflexivity.
Qed.

(** A vector of length [W] viewed at shape [B, S, W]. *)
Lemma expand_vector_batched (B S W : nat) (d : list R) :
  length d = W ->
  expand_data [1; 1; W] [B; S; W] d = concat (repeat d (B * S)).
Proof.
  intros Hl. rewrite <- concat_repeat_concat.
  change (expand_data [1; 1; W] [B; S; W] d)
    with (let sub := concat (map (expand_data [1; W] [S; W])
                                 (chunks 1 (numel [1; W]) d)) in
          if 1 =? B then sub else concat (repeat sub B)).
  cbv zeta. rewrite (chunks_one (numel [1; W]) d) by (cbn; lia).
  cbn [map concat]. rewrite (expand_vector_rows S W d Hl), app_nil_r.
  destruct (Nat.eqb_spec 1 B) as [<-|_]; [|reflexivity].
  cbn [repeat concat]. rewrite app_nil_r. reflexivity.
Qed.

(** [output + bias] on a rank-3 output: the bias vector is added, behind,
    to every row. *)
Lemma add_bias_batched B S W (out bias : tensor) :
  has_shape [B; S; W] out -> has_shape [W] bias ->
  add out bias
  = Ok (mkT [B; S; W]
            (map2 sadd (data out) (concat (repeat (data bias) (B * S))))).
Proof.
  intros [So Wo] [Sb Wb]. unfold add, pointwise, dim. rewrite So, Sb.
  cbn [length Nat.max pad Nat.sub repeat app].
  rewrite (bshape_cons_one B [S; W] [1; W] [S; W])
    by (apply bshape_cons_one, bshape_refl).
  rewrite expand_data_id by (unfold wf in Wo; rewrite Wo, So; reflexivity).
  rewrite expand_vector_batched; [reflexivity|].
  unfold wf in Wb. rewrite Wb, Sb. cbn. lia.
Qed.

End Products.

(** ** The forward pass *)

Section Forward.
Context {R : Type} {SR : Scalar R}.

Local Abbreviation tensor := (@tensor R).

Ltac cat_cases :=
  repeat match goal with
  | |- context [bind (cat ?l ?d) _] => destruct (cat l d); cbn [bind]
  end; try reflexivity.

Lemma forward_unfold ctx (input r i j k : tensor) bias :
  snd (forward ctx input r i j k bias)
  = (check_input input ;;;
     E <- cat_kernels r i j k ;;
     apply_encoding input E bias).
Proof.
  unfold forward, cat_kernels, apply_encoding. cbn [snd].
  destruct (check_input input); cbn [bind]; [|reflexivity]. cat_cases.
Qed.

Lemma quaternion_linear_unfold (input r i j k : tensor) bias :
  quaternion_linear input r i j k bias
  = (E <- cat_kernels r i j k ;; apply_encoding input E bias).
Proof. unfold quaternion_linear, cat_kernels, apply_encoding. cat_cases. Qed.

Lemma apply_encoding_matrix B Q W (x E : tensor) bias :
  has_shape [B; Q] x -> has_shape [Q; W] E -> bias_shaped W bias ->
  exists y, apply_encoding x E bias = Ok y
    /\ has_shape [B; W] y
    /\ forall n c, n < B -> c < W ->
         entry W y n c = with_bias 1 bias c (dot (row Q x n) (column W Q E c)).
Proof.
  intros [Sx Wx] [SE WE] Hb. unfold apply_encoding, dim. rewrite Sx.
  cbn [length Nat.eqb]. destruct bias as [b|]; cbn [bias_shaped] in Hb.
  - rewrite (addmm_matrix B Q W b x E Hb Sx SE). eexists. split; [reflexivity|].
    assert (Lb : length (data b) = W)
      by (destruct Hb as [Sb Wb]; unfold wf in Wb; rewrite Wb, Sb; cbn; lia).
    split; [split; [reflexivity|]|].
    + unfold wf. cbn [data size numel fold_right].
      rewrite map2_length, matprod_length, length_concat_repeat, Lb. lia.
    + intros n c Hn Hc. unfold entry, with_bias. cbn [data Nat.eqb].
      pose proof (index_bound n B W c Hn Hc).
      rewrite nth_map2
        by (rewrite ?matprod_length, ?length_concat_repeat, ?Lb; lia).
      rewrite (nth_repeated_rows B W n c) by assumption.
      rewrite matprod_entry by assumption. reflexivity.
  - rewrite (mm_matrix B Q W x E Sx SE). eexists. split; [reflexivity|].
    split; [split; [reflexivity|]|].
    + unfold wf. cbn [data size numel fold_right]. rewrite matprod_length. lia.
    + intros n c Hn Hc. unfold entry, with_bias. cbn [data].
      apply matprod_entry; assumption.
Qed.

Lemma apply_encoding_batched B S Q W (x E : tensor) bias :
  has_shape [B; S; Q] x -> has_shape [Q; W] E -> bias_shaped W bias ->
  exists y, apply_encoding x E bias = Ok y
    /\ has_shape [B; S; W] y
    /\ forall n c, n < B * S -> c < W ->
         entry W y n c = with_bias 2 bias c (dot (row Q x n) (column W Q E c)).
Proof.
  intros [Sx Wx] [SE WE] Hb. unfold apply_encoding, dim. rewrite Sx.
  cbn [length Nat.eqb]. rewrite (matmul_batched B S Q W x E Sx SE). cbn [bind].
  assert (HP : S * (B * 1) = B * S) by lia.
  assert (Ho : has_shape [B; S; W]
                 (mkT [B; S; W] (matprod Q W (chunks (S * (B * 1)) Q (data x)) E))).
  { split; [reflexivity|]. unfold wf. cbn [data size numel fold_right].
    rewrite matprod_length. lia. }
  destruct bias as [b|]; cbn [bias_shaped] in Hb.
  - rewrite (add_bias_batched B S W _ b Ho Hb). eexists. split; [reflexivity|].
    assert (Lb : length (data b) = W)
      by (destruct Hb as [Sb Wb]; unfold wf in Wb; rewrite Wb, Sb; cbn; lia).
    split; [split; [reflexivity|]|].
    + unfold wf. cbn [data size numel fold_right].
      rewrite map2_length, matprod_length, length_concat_repeat, Lb. lia.
    + intros n c Hn Hc. unfold entry, with_bias. cbn [data Nat.eqb].
      pose proof (index_bound n (B * S) W c Hn Hc).
      rewrite nth_map2
        by (rewrite ?matprod_length, ?length_concat_repeat, ?Lb; lia).
      rewrite (nth_repeated_rows (B * S) W n c) by assumption.
      rewrite matprod_entry by lia. reflexivity.
  - eexists. split; [reflexivity|]. split; [exact Ho|].
    intros n c Hn Hc. unfold entry, with_bias. cbn [data].
    apply matprod_entry; lia.
Qed.

(** C1 (as the code has it). For a well-formed input of rank 2 or 3 with
    last axis 4F, four well-formed [F, G] weight blocks and an optional bias
    of length 4G, [forward] (and [quaternion_linear]) returns the input
    times the (4F) x (4G) matrix [E] whose block rows are [r, i, j, k],
    [-i, r, k, -j], [-j, -k, r, i], [-k, j, -i, r] (each row concatenated
    horizontally, the rows stacked vertically), plus the bias on every row of
    the batch axis (and of the sequence axis for rank 3).  [E] is the block
    transpose of the matrix the specification lays out: its element
    [p F + f, q G + g] is element [f, g] of block [p, q] of [code_blocks],
    and element [n, c] of the output is the dot product of row [n] of the
    input and column [c] of [E], with element [c] of the bias added. *)
Theorem forward_block_encoding ctx pre F G (x r i j k : tensor) bias :
  (length pre = 1 \/ length pre = 2) ->
  has_shape (pre ++ [4 * F]) x ->
  has_shape [F; G] r -> has_shape [F; G] i ->
  has_shape [F; G] j -> has_shape [F; G] k ->
  bias_shaped (4 * G) bias ->
  exists E y,
    code_encoding r i j k = Ok E
    /\ has_shape [4 * F; 4 * G] E
    /\ (forall p q f g, p < 4 -> q < 4 -> f < F -> g < G ->
          entry (4 * G) E (p * F + f) (q * G + g)
          = entry G (block (code_blocks r i j k) p q r) f g)
    /\ snd (forward ctx x r i j k bias) = Ok y
    /\ quaternion_linear x r i j k bias = Ok y
    /\ has_shape (pre ++ [4 * G]) y
    /\ forall n c, n < numel pre -> c < 4 * G ->
         entry (4 * G) y n c
         = with_bias (length pre) bias c
             (dot (row (4 * F) x n) (column (4 * G) (4 * F) E c)).
Proof.
  intros Hp Hx Hr Hi Hj Hk Hb.
  destruct (cat_kernels_code_encoding F G r i j k Hr Hi Hj Hk) as (E & HE & HC & SE).
  assert (HB : forall p q f g, p < 4 -> q < 4 -> f < F -> g < G ->
                 entry (4 * G) E (p * F + f) (q * G + g)
                 = entry G (block (code_blocks r i j k) p q r) f g).
  { pose proof (neg_shaped [F; G] i Hi) as Hni.
    pose proof (neg_shaped [F; G] j Hj) as Hnj.
    pose proof (neg_shaped [F; G] k Hk) as Hnk.
    destruct (stack_rows_entries F G r i j k (neg i) r k (neg j)
                (neg j) (neg k) r i (neg k) j (neg i) r) as (E' & HE' & _ & Hent).
    - repeat (apply Forall_cons; [assumption|]). apply Forall_nil.
    - unfold code_encoding, stack_table, code_blocks in HC. cbn [nth] in HC.
      assert (E' = E) by congruence. subst E'.
      exact Hent. }
  assert (Hq : quaternion_shape pre F x) by (split; [apply Hx | exact Hp]).
  rewrite forward_unfold, quaternion_linear_unfold.
  rewrite (check_input_ok x (quaternion_shape_valid pre F x Hq)), HE. cbn [bind].
  exists E.
  destruct pre as [|B [|S [|? ?]]]; cbn [length] in Hp; try lia.
  - destruct (apply_encoding_matrix B (4 * F) (4 * G) x E bias Hx SE Hb)
      as (y & Ey & Sy & Hy).
    exists y. repeat (split; [assumption|]).
    intros n c Hn Hc. apply Hy; [cbn in Hn; lia | exact Hc].
  - destruct (apply_encoding_batched B S (4 * F) (4 * G) x E bias Hx SE Hb)
      as (y & Ey & Sy & Hy).
    exists y. repeat (split; [assumption|]).
    intros n c Hn Hc. apply Hy; [cbn in Hn; lia | exact Hc].
Qed.

End Forward.

(** The theorem at a 1 x 4 integer input with 1 x 1 weights and a bias. *)
Lemma forward_block_encoding_witness :
  exists E y : @tensor Z,
    code_encoding (mkT [1; 1] [1%Z]) (mkT [1; 1] [10%Z])
                  (mkT [1; 1] [100%Z]) (mkT [1; 1] [1000%Z]) = Ok E
    /\ has_shape [4 * 1; 4 * 1] E
    /\ (forall p q f g, p < 4 -> q < 4 -> f < 1 -> g < 1 ->
          entry (4 * 1) E (p * 1 + f) (q * 1 + g)
          = entry 1 (block (code_blocks (mkT [1; 1] [1%Z]) (mkT [1; 1] [10%Z])
                                        (mkT [1; 1] [100%Z]) (mkT [1; 1] [1000%Z]))
                           p q (mkT [1; 1] [1%Z])) f g)
    /\ snd (forward (mkCtx (mkNeeds true true true true true true) None)
              (mkT [1; 4] [1; 2; 3; 4]%Z)
              (mkT [1; 1] [1%Z]) (mkT [1; 1] [10%Z])
              (mkT [1; 1] [100%Z]) (mkT [1; 1] [1000%Z])
              (Some (mkT [4] [1; 1; 1; 1]%Z))) = Ok y
    /\ quaternion_linear (mkT [1; 4] [1; 2; 3; 4]%Z)
         (mkT [1; 1] [1%Z]) (mkT [1; 1] [10%Z])
         (mkT [1; 1] [100%Z]) (mkT [1; 1] [1000%Z])
         (Some (mkT [4] [1; 1; 1; 1]%Z)) = Ok y
    /\ has_shape ([1] ++ [4 * 1]) y
    /\ forall n c, n < numel [1] -> c < 4 * 1 ->
         entry (4 * 1) y n c
         = with_bias (length [1]) (Some (mkT [4] [1; 1; 1; 1]%Z)) c
             (dot (row (4 * 1) (mkT [1; 4] [1; 2; 3; 4]%Z) n)
                  (column (4 * 1) (4 * 1) E c)).
Proof.
  apply (forward_block_encoding _ [1] 1 1);
    first [left; reflexivity | split; reflexivity].
Defined.

(** A sequence of two quaternions through the same operator, with a bias:
    the rank-3 branch. *)
Example forward_sequence_example :
  snd (forward (mkCtx (mkNeeds true true true true true true) None)
         (mkT [1; 2; 4] [1; 2; 3; 4; 5; 6; 7; 8]%Z)
         (mkT [1; 1] [1%Z]) (mkT [1; 1] [10%Z])
         (mkT [1; 1] [100%Z]) (mkT [1; 1] [1000%Z])
         (Some (mkT [4] [1; 1; 1; 1]%Z)))
  = Ok (mkT [1; 2; 4] [-4318; -2587; 2064; 835; -8754; -6143; 6428; 4479]%Z).
Proof. reflexivity. Qed.

(** C1 as stated fails: with r = 0, i = 1, j = k = 0 and the input
    quaternion 1, [forward] returns i, that is (0, 1, 0, 0), whereas the
    input times the specification's matrix is (0, -1, 0, 0). *)
Lemma forward_spec_encoding_counterexample :
  snd (forward (mkCtx (mkNeeds true true true true true true) None)
         (mkT [1; 4] [1; 0; 0; 0]%Z)
         (mkT [1; 1] [0%Z]) (mkT [1; 1] [1%Z])
         (mkT [1; 1] [0%Z]) (mkT [1; 1] [0%Z]) None)
    = Ok (mkT [1; 4] [0; 1; 0; 0]%Z)
  /\ (E <- spec_encoding (mkT [1; 1] [0%Z]) (mkT [1; 1] [1%Z])
                         (mkT [1; 1] [0%Z]) (mkT [1; 1] [0%Z]) ;;
      apply_encoding (mkT [1; 4] [1; 0; 0; 0]%Z) E None)
    = Ok (mkT [1; 4] [0; -1; 0; 0]%Z)
  /\ snd (forward (mkCtx (mkNeeds true true true true true true) None)
            (mkT [1; 4] [1; 0; 0; 0]%Z)
            (mkT [1; 1] [0%Z]) (mkT [1; 1] [1%Z])
            (mkT [1; 1] [0%Z]) (mkT [1; 1] [0%Z]) None)
     <> (E <- spec_encoding (mkT [1; 1] [0%Z]) (mkT [1; 1] [1%Z])
                            (mkT [1; 1] [0%Z]) (mkT [1; 1] [0%Z]) ;;
         apply_encoding (mkT [1; 4] [1; 0; 0; 0]%Z) E None).
Proof. repeat split; try reflexivity. discriminate. Qed.

(** With one quaternion weight w the operator is the Hamilton product
    w * x, weight on the left: here (1 + 10i + 100j + 1000k)(1 + 2i + 3j + 4k). *)
Example forward_is_hamilton_product :
  snd (forward (mkCtx (mkNeeds true true true true true true) None)
         (mkT [1; 4] [1; 2; 3; 4]%Z)
         (mkT [1; 1] [1%Z]) (mkT [1; 1] [10%Z])
         (mkT [1; 1] [100%Z]) (mkT [1; 1] [1000%Z]) None)
  = hamilton_product (mkT [1; 4] [1; 10; 100; 1000]%Z) (mkT [1; 4] [1; 2; 3; 4]%Z).
Proof. reflexivity. Qed.

(** The two layouts at 1 x 1 blocks r = 1, i = 10, j = 100, k = 1000. *)
Example encodings_differ :
  code_encoding (mkT [1; 1] [1%Z]) (mkT [1; 1] [10%Z])
                (mkT [1; 1] [100%Z]) (mkT [1; 1] [1000%Z])
    = Ok (mkT [4; 4] [    1;    10;   100;  1000;
                        -10;     1;  1000;  -100;
                       -100; -1000;     1;    10;
                      -1000;   100;   -10;     1]%Z)
  /\ spec_encoding (mkT [1; 1] [1%Z]) (mkT [1; 1] [10%Z])
                   (mkT [1; 1] [100%Z]) (mkT [1; 1] [1000%Z])
    = Ok (mkT [4; 4] [   1;   -10;  -100; -1000;
                        10;     1; -1000;   100;
                       100;  1000;     1;   -10;
                      1000;  -100;    10;     1]%Z).
Proof. split; reflexivity. Qed.

(** ** The backward pass *)

Section Backward.
Context {R : Type} {SR : Scalar R}.

Local Abbreviation tensor := (@tensor R).

Ltac bind_cases :=
  repeat match goal with
  | |- context [bind ?m _] =>
      lazymatch m with
      | bind _ _ => fail
      | if _ then _ else _ => fail
      | _ => destruct m; cbn [bind]; try reflexivity
      end
  end.

(** [backward], block by block. *)
Lemma backward_unfold ctx (grad_output : tensor) :
  backward ctx grad_output
  = match saved_tensors ctx with
    | None => Raise UnpackError
    | Some (input, r_weight, i_weight, j_weight, k_weight, bias) =>
        kernels <- cat_kernels r_weight i_weight j_weight k_weight ;;
        cat_kernels_4_quaternion_T <- permute10 kernels ;;
        input_mat <- input_encoding input ;;
        grad_mat <- grad_encoding grad_output ;;
        grad_input <-
          (if need0 (needs_input_grad ctx) then
             g <- mm grad_output cat_kernels_4_quaternion_T ;; Ok (Some g)
           else Ok None) ;;
        grad_weights <-
          (if need1 (needs_input_grad ctx) then
             w <- weight_gradients grad_mat input_mat r_weight ;;
             let '(gr, gi, gj, gk) := w in
             Ok (Some gr, Some gi, Some gj, Some gk)
           else Ok (None, None, None, None)) ;;
        grad_bias <-
          (if need5 (needs_input_grad ctx) then
             Ok (Some (squeeze0 (sum0 grad_output)))
           else Ok None) ;;
        let '(gr, gi, gj, gk) := grad_weights in
        Ok (mkGrads grad_input gr gi gj gk grad_bias)
    end.
Proof.
  unfold backward, cat_kernels, input_encoding, grad_encoding, weight_gradients.
  destruct (saved_tensors ctx) as [[[[[[input r] i] j] k] bias]|]; [|reflexivity].
  bind_cases.
Qed.

End Backward.

(** ** The backward pass on a rank-2 context *)

Section BackwardMatrix.
Context {R : Type} {SR : Scalar R}.

Local Abbreviation tensor := (@tensor R).

(** Success and shape of the primitives from the operands' shapes alone. *)
Lemma cat4_rows_ok (a b c d : tensor) ma mb mc md n :
  size a = [ma; n] -> size b = [mb; n] -> size c = [mc; n] -> size d = [md; n] ->
  exists y, cat [a; b; c; d] 0 = Ok y /\ size y = [ma + (mb + (mc + (md + 0))); n].
Proof.
  intros Ha Hb Hc Hd.
  pose proof (cat4_axis a b c d [] [n] ma mb mc md Ha Hb Hc Hd) as E.
  cbn [length] in E. rewrite E. eexists. split; reflexivity.
Qed.

Lemma cat4_cols_ok (a b c d : tensor) k ma mb mc md :
  size a = [k; ma] -> size b = [k; mb] -> size c = [k; mc] -> size d = [k; md] ->
  exists y, cat [a; b; c; d] 1 = Ok y /\ size y = [k; ma + (mb + (mc + (md + 0)))].
Proof.
  intros Ha Hb Hc Hd.
  pose proof (cat4_axis a b c d [k] [] ma mb mc md Ha Hb Hc Hd) as E.
  cbn [length] in E. rewrite E. eexists. split; reflexivity.
Qed.

Lemma permute10_ok (t : tensor) b n :
  size t = [b; n] -> exists y, permute10 t = Ok y /\ size y = [n; b].
Proof. intros Hs. unfold permute10. rewrite Hs. eexists. split; reflexivity. Qed.

Lemma mm_ok (a b : tensor) p q r :
  size a = [p; q] -> size b = [q; r] -> exists y, mm a b = Ok y /\ size y = [p; r].
Proof.
  intros Ha Hb. rewrite (mm_matrix p q r a b Ha Hb). eexists. split; reflexivity.
Qed.

Lemma narrow_rows_ok (t : tensor) m n len :
  size t = [m; n] -> len <= m ->
  exists y, narrow t 0 0 len = Ok y /\ size y = [len; n].
Proof.
  intros Hs Hle. unfold narrow. rewrite Hs. cbn [nth_error Nat.add].
  rewrite (proj2 (Nat.leb_le len m) Hle). eexists. split; reflexivity.
Qed.

Lemma narrow_cols_ok (t : tensor) m n start len :
  size t = [m; n] -> start + len <= n ->
  exists y, narrow t 1 start len = Ok y /\ size y = [m; len].
Proof.
  intros Hs Hle. unfold narrow. rewrite Hs. cbn [nth_error].
  rewrite (proj2 (Nat.leb_le (start + len) n) Hle). eexists. split; reflexivity.
Qed.

Lemma cat_kernels_ok F G (r i j k : tensor) :
  size r = [F; G] -> size i = [F; G] -> size j = [F; G] -> size k = [F; G] ->
  exists E, cat_kernels r i j k = Ok E /\ size E = [4 * F; 4 * G].
Proof.
  intros Hr Hi Hj Hk. unfold cat_kernels.
  destruct (cat4_rows_ok r (neg i) (neg j) (neg k) F F F F G) as (a & -> & Sa); auto.
  destruct (cat4_rows_ok i r (neg k) j F F F F G) as (b & -> & Sb); auto.
  destruct (cat4_rows_ok j k r (neg i) F F F F G) as (c & -> & Sc); auto.
  destruct (cat4_rows_ok k (neg j) i r F F F F G) as (d & -> & Sd); auto.
  cbn [bind]. apply (cat4_cols_ok a b c d _ G G G G); assumption.
Qed.

Lemma components_sizes B F (t : tensor) :
  size t = [B; 4 * F] ->
  exists r i j k,
    get_r t = Ok r /\ get_i t = Ok i /\ get_j t = Ok j /\ get_k t = Ok k
    /\ size r = [B; F] /\ size i = [B; F] /\ size j = [B; F] /\ size k = [B; F].
Proof.
  intros Hs.
  assert (Hq : quaternion_shape [B] F t) by (split; [exact Hs | left; reflexivity]).
  exists (component [B] F 0 t), (component [B] F 1 t),
         (component [B] F 2 t), (component [B] F 3 t).
  repeat split.
  - apply (get_r_component [B] F t Hq).
  - apply (get_i_component [B] F t Hq).
  - apply (get_j_component [B] F t Hq).
  - apply (get_k_component [B] F t Hq).
Qed.

Lemma input_encoding_ok B F (x : tensor) :
  size x = [B; 4 * F] ->
  exists m, input_encoding x = Ok m /\ size m = [4 * B; 4 * F].
Proof.
  intros Hs. unfold input_encoding.
  destruct (components_sizes B F x Hs)
    as (r & i & j & k & -> & -> & -> & -> & Sr & Si & Sj & Sk).
  cbn [bind].
  destruct (cat4_rows_ok r (neg i) (neg j) (neg k) B B B B F) as (a & -> & Sa); auto.
  destruct (cat4_rows_ok i r (neg k) j B B B B F) as (b & -> & Sb); auto.
  destruct (cat4_rows_ok j k r (neg i) B B B B F) as (c & -> & Sc); auto.
  destruct (cat4_rows_ok k (neg j) i r B B B B F) as (d & -> & Sd); auto.
  cbn [bind]. apply (cat4_cols_ok a b c d _ F F F F); assumption.
Qed.

Lemma grad_encoding_ok B G (g : tensor) :
  size g = [B; 4 * G] ->
  exists m, grad_encoding g = Ok m /\ size m = [4 * B; 4 * G].
Proof.
  intros Hs. unfold grad_encoding.
  destruct (components_sizes B G g Hs)
    as (r & i & j & k & -> & -> & -> & -> & Sr & Si & Sj & Sk).
  cbn [bind].
  destruct (cat4_cols_ok r i j k B G G G G) as (a & -> & Sa); auto.
  destruct (cat4_cols_ok (neg i) r k (neg j) B G G G G) as (b & -> & Sb); auto.
  destruct (cat4_cols_ok (neg j) (neg k) r i B G G G G) as (c & -> & Sc); auto.
  destruct (cat4_cols_ok (neg k) j (neg i) r B G G G G) as (d & -> & Sd); auto.
  cbn [bind]. apply (cat4_rows_ok a b c d B B B B); assumption.
Qed.

Lemma weight_gradients_ok B F G (grad_mat input_mat r : tensor) :
  size grad_mat = [4 * B; 4 * G] -> size input_mat = [4 * B; 4 * F] ->
  size r = [F; G] ->
  exists gr gi gj gk,
    weight_gradients grad_mat input_mat r = Ok (gr, gi, gj, gk)
    /\ size gr = [F; G] /\ size gi = [F; G] /\ size gj = [F; G] /\ size gk = [F; G].
Proof.
  intros Hg Hi Hr. unfold weight_gradients. rewrite Hr. cbn [nth].
  destruct (permute10_ok grad_mat _ _ Hg) as (gt & -> & Sgt). cbn [bind].
  destruct (mm_ok gt input_mat _ _ _ Sgt Hi) as (p & -> & Sp). cbn [bind].
  destruct (permute10_ok p _ _ Sp) as (gw & -> & Sgw). cbn [bind].
  destruct (narrow_rows_ok gw _ _ F Sgw) as (top & -> & Stop); [lia|]. cbn [bind].
  destruct (narrow_cols_ok top _ _ 0 G Stop) as (gr & -> & Sgr); [lia|]. cbn [bind].
  destruct (narrow_cols_ok top _ _ G G Stop) as (gi & -> & Sgi); [lia|]. cbn [bind].
  destruct (narrow_cols_ok top _ _ (G * 2) G Stop) as (gj & -> & Sgj); [lia|]. cbn [bind].
  destruct (narrow_cols_ok top _ _ (G * 3) G Stop) as (gk & -> & Sgk); [lia|]. cbn [bind].
  exists gr, gi, gj, gk. auto.
Qed.

Lemma squeeze0_vector4 (t : tensor) G :
  size t = [4 * G] -> squeeze0 t = t.
Proof.
  intros Hs. unfold squeeze0. rewrite Hs.
  destruct G as [|G]; [reflexivity|].
  replace (4 * S G) with (S (S (S (S (4 * G))))) by lia. reflexivity.
Qed.

(** [backward] on a rank-2 context: every step succeeds, and the tuple
    returned is the following one. *)
Lemma backward_matrix ctx B F G (x r i j k : tensor) bias (g : tensor) :
  saved_tensors ctx = Some (x, r, i, j, k, bias) ->
  size x = [B; 4 * F] ->
  size r = [F; G] -> size i = [F; G] -> size j = [F; G] -> size k = [F; G] ->
  size g = [B; 4 * G] ->
  exists E ET gi gwr gwi gwj gwk,
    cat_kernels r i j k = Ok E
    /\ permute10 E = Ok ET
    /\ mm g ET = Ok gi
    /\ size gi = [B; 4 * F]
    /\ size gwr = [F; G] /\ size gwi = [F; G]
    /\ size gwj = [F; G] /\ size gwk = [F; G]
    /\ backward ctx g
       = Ok (mkGrads
               (if need0 (needs_input_grad ctx) then Some gi else None)
               (if need1 (needs_input_grad ctx) then Some gwr else None)
               (if need1 (needs_input_grad ctx) then Some gwi else None)
               (if need1 (needs_input_grad ctx) then Some gwj else None)
               (if need1 (needs_input_grad ctx) then Some gwk else None)
               (if need5 (needs_input_grad ctx) then Some (sum0 g) else None)).
Proof.
  intros Hsaved Hx Hr Hi Hj Hk Hg.
  destruct (cat_kernels_ok F G r i j k Hr Hi Hj Hk) as (E & HE & SE).
  destruct (permute10_ok E _ _ SE) as (ET & HET & SET).
  destruct (input_encoding_ok B F x Hx) as (im & Him & Sim).
  destruct (grad_encoding_ok B G g Hg) as (gm & Hgm & Sgm).
  destruct (mm_ok g ET _ _ _ Hg SET) as (gi & Hgi & Sgi).
  destruct (weight_gradients_ok B F G gm im r Sgm Sim Hr)
    as (gwr & gwi & gwj & gwk & Hw & Swr & Swi & Swj & Swk).
  exists E, ET, gi, gwr, gwi, gwj, gwk.
  repeat (split; [assumption|]).
  rewrite backward_unfold, Hsaved, HE. cbn [bind].
  rewrite HET. cbn [bind]. rewrite Him. cbn [bind]. rewrite Hgm. cbn [bind].
  rewrite Hgi, Hw.
  rewrite (squeeze0_vector4 (sum0 g) G) by (rewrite sum0_size, Hg; reflexivity).
  destruct (need0 (needs_input_grad ctx)), (need1 (needs_input_grad ctx)),
    (need5 (needs_input_grad ctx)); reflexivity.
Qed.

(** Whenever [backward] returns, a slot holds a tensor exactly when its
    gate is set. *)
Lemma backward_slots_gated ctx (g : tensor) grads :
  backward ctx g = Ok grads ->
  forall s, is_tensor (grad_of grads s) = needs_of (needs_input_grad ctx) (gate s).
Proof.
  intros Hb. rewrite backward_unfold in Hb.
  destruct (saved_tensors ctx) as [[[[[[x r] i] j] k] bias]|]; [|discriminate].
  destruct (cat_kernels r i j k); cbn [bind] in Hb; [|discriminate].
  destruct (permute10 _); cbn [bind] in Hb; [|discriminate].
  destruct (input_encoding x); cbn [bind] in Hb; [|discriminate].
  destruct (grad_encoding g); cbn [bind] in Hb; [|discriminate].
  destruct (need0 (needs_input_grad ctx)) eqn:N0;
    [destruct (mm g _); cbn [bind] in Hb; [|discriminate]|cbn [bind] in Hb];
    (destruct (need1 (needs_input_grad ctx)) eqn:N1;
     [destruct (weight_gradients _ _ _) as [[[[? ?] ?] ?]|]; cbn [bind] in Hb;
        [|discriminate]|cbn [bind] in Hb]);
    destruct (need5 (needs_input_grad ctx)) eqn:N5; cbn [bind] in Hb;
    inversion Hb; subst; intros [| | | | |]; cbn; congruence.
Qed.

(** The gating the code implements.  Whenever [backward] returns, and it
    does return on every context saved from a rank-2 input with four
    [F, G] weight blocks and a gradient of the output's shape, each slot of
    the tuple is a tensor when the flag gating it is set and [None]
    otherwise: the input's own flag for [grad_input], the bias's own flag
    for [grad_bias], and the flag of [r_weight] for all four weight
    gradients. *)
Theorem backward_gradient_slots ctx B F G (x r i j k : tensor) bias (g : tensor) :
  saved_tensors ctx = Some (x, r, i, j, k, bias) ->
  size x = [B; 4 * F] ->
  size r = [F; G] -> size i = [F; G] -> size j = [F; G] -> size k = [F; G] ->
  size g = [B; 4 * G] ->
  exists grads,
    backward ctx g = Ok grads
    /\ forall s,
         (is_tensor (grad_of grads s) = true
          <-> needs_of (needs_input_grad ctx) (gate s) = true)
         /\ (grad_of grads s = None
             <-> needs_of (needs_input_grad ctx) (gate s) = false).
Proof.
  intros Hsaved Hx Hr Hi Hj Hk Hg.
  destruct (backward_matrix ctx B F G x r i j k bias g Hsaved Hx Hr Hi Hj Hk Hg)
    as (E & ET & gi & gwr & gwi & gwj & gwk & _ & _ & _ & _ & _ & _ & _ & _ & Hb).
  eexists. split; [exact Hb|]. intros s.
  rewrite <- (backward_slots_gated ctx g _ Hb s).
  destruct (grad_of _ s); cbn; split; split; congruence.
Qed.

End BackwardMatrix.

(** On a rank-2 context the gradient of the input is the incoming gradient
    times the transpose of the matrix [forward] multiplied by. *)
Lemma backward_grad_input_matrix {R : Type} {SR : Scalar R}
    ctx B F G (x r i j k : @tensor R) bias (g : @tensor R) :
  saved_tensors ctx = Some (x, r, i, j, k, bias) ->
  need0 (needs_input_grad ctx) = true ->
  has_shape [B; 4 * F] x ->
  has_shape [F; G] r -> has_shape [F; G] i ->
  has_shape [F; G] j -> has_shape [F; G] k ->
  size g = [B; 4 * G] ->
  exists E ET gi grads,
    code_encoding r i j k = Ok E
    /\ permute10 E = Ok ET
    /\ mm g ET = Ok gi
    /\ backward ctx g = Ok grads
    /\ grad_input grads = Some gi.
Proof.
  intros Hsaved Hn [Hx _] Hr Hi Hj Hk Hg.
  destruct (backward_matrix ctx B F G x r i j k bias g Hsaved Hx
              (proj1 Hr) (proj1 Hi) (proj1 Hj) (proj1 Hk) Hg)
    as (E & ET & gi & gwr & gwi & gwj & gwk & HE & HT & Hm & _ & _ & _ & _ & _ & Hb).
  destruct (cat_kernels_code_encoding F G r i j k Hr Hi Hj Hk) as (E' & HE' & HC & _).
  assert (E' = E) by congruence. subst E'.
  exists E, ET, gi. eexists. repeat (split; [eassumption|]).
  cbn [grad_input]. rewrite Hn. reflexivity.
Qed.

(** X12. On a context saved from a rank-2 input, with the flag of the bias
    set and a well-formed gradient of shape [B, 4G], [backward] returns as
    the gradient of the bias the vector of length [4G] of the sums of the
    columns of the incoming gradient: the gradient summed over the batch
    axis. *)
Lemma backward_grad_bias_matrix {R : Type} {SR : Scalar R}
    ctx B F G (x r i j k : @tensor R) bias (g : @tensor R) :
  saved_tensors ctx = Some (x, r, i, j, k, bias) ->
  need5 (needs_input_grad ctx) = true ->
  size x = [B; 4 * F] ->
  size r = [F; G] -> size i = [F; G] -> size j = [F; G] -> size k = [F; G] ->
  has_shape [B; 4 * G] g ->
  exists grads gb,
    backward ctx g = Ok grads
    /\ grad_bias grads = Some gb
    /\ size gb = [4 * G]
    /\ forall c, c < 4 * G ->
         nth c (data gb) szero
         = fold_left sadd (map (fun b => entry (4 * G) g b c) (seq 0 B)) szero.
Proof.
  intros Hsaved Hn Hx Hr Hi Hj Hk [Hg Wg].
  destruct (backward_matrix ctx B F G x r i j k bias g Hsaved Hx Hr Hi Hj Hk Hg)
    as (E & ET & gi & gwr & gwi & gwj & gwk & _ & _ & _ & _ & _ & _ & _ & _ & Hb).
  eexists. exists (sum0 g). split; [exact Hb|]. cbn [grad_bias]. rewrite Hn.
  split; [reflexivity|]. split; [rewrite sum0_size, Hg; reflexivity|].
  intros c Hc. unfold sum0. rewrite Hg. cbn [data numel fold_right].
  rewrite Nat.mul_1_r. apply nth_sum0_rows; [|exact Hc].
  unfold wf in Wg. rewrite Wg, Hg. cbn. lia.
Qed.

(** *** Concrete contexts *)

(** The theorem with the flags of the input and of [j_weight] set. *)
Lemma backward_gradient_slots_witness :
  exists grads,
    backward (saved_after_forward (mkNeeds true false false true false false)
                                  sample_matrix) sample_matrix = Ok grads
    /\ forall s,
         (is_tensor (grad_of grads s) = true
          <-> needs_of (needs_input_grad
                 (saved_after_forward (mkNeeds true false false true false false)
                                      sample_matrix)) (gate s) = true)
         /\ (grad_of grads s = None
             <-> needs_of (needs_input_grad
                    (saved_after_forward (mkNeeds true false false true false false)
                                         sample_matrix)) (gate s) = false).
Proof.
  apply (backward_gradient_slots _ 2 1 1 sample_matrix
           (mkT [1; 1] [1%Z]) (mkT [1; 1] [10%Z])
           (mkT [1; 1] [100%Z]) (mkT [1; 1] [1000%Z]) None); reflexivity.
Defined.

(** C5 fails in the code on the weight slots: the four weight gradients
    are computed under the one test of the flag of [r_weight], and the
    flags of [i_weight], [j_weight] and [k_weight] are never read.  With
    only the flag of [r_weight] set, the slot of [i_weight] holds a tensor
    although its own flag is unset; with only the flag of [i_weight] set,
    its slot holds [None] although its own flag is set: the gradient asked
    for is lost. *)
Lemma backward_weight_gradient_lost :
  (exists grads,
     backward (saved_after_forward (mkNeeds false true false false false false)
                                   sample_matrix) sample_matrix = Ok grads
     /\ is_tensor (grad_of grads SIWeight) = true
     /\ needs_of (mkNeeds false true false false false false) SIWeight = false)
  /\ (exists grads,
        backward (saved_after_forward (mkNeeds false false true false false false)
                                      sample_matrix) sample_matrix = Ok grads
        /\ grad_of grads SIWeight = None
        /\ needs_of (mkNeeds false false true false false false) SIWeight = true).
Proof.
  split; eexists; (split; [vm_compute; reflexivity | split; reflexivity]).
Qed.

(** C2 on a rank-3 context: [forward] accepts the sequence, and [backward],
    asked for the gradient of the input, raises in [grad_output.mm]. *)
Lemma backward_rank3_grad_input_raises :
  snd (forward (mkCtx all_needed None) sample_sequence
         (mkT [1; 1] [1%Z]) (mkT [1; 1] [10%Z])
         (mkT [1; 1] [100%Z]) (mkT [1; 1] [1000%Z]) None)
    = Ok (mkT [1; 2; 4] [-4319; -2588; 2063; 834; -8755; -6144; 6427; 4478]%Z)
  /\ backward (saved_after_forward (mkNeeds true false false false false false)
                                  sample_sequence) sample_sequence
     = Raise TorchError.
Proof. split; reflexivity. Qed.

(** C4 on a rank-3 context: the gradient of the bias [backward] returns is
    summed over the batch axis only and keeps the sequence axis. *)
Lemma backward_rank3_grad_bias_keeps_sequence :
  exists grads,
    backward (saved_after_forward (mkNeeds false false false false false true)
                                  sample_sequence) sample_sequence = Ok grads
    /\ grad_bias grads = Some (mkT [2; 4] [1; 2; 3; 4; 5; 6; 7; 8]%Z)
    /\ spec_grad_bias sample_sequence = mkT [4] [6; 8; 10; 12]%Z
    /\ grad_bias grads <> Some (spec_grad_bias sample_sequence).
Proof.
  eexists. split; [vm_compute; reflexivity|].
  repeat split; try reflexivity. discriminate.
Qed.

(** ** The initialisers and the random source *)

Section InitialiserFacts.
Context {R : Type} {SR : Scalar R} {GR : Generator R}.
Variables (scos ssin : R -> R) (spi : R).

(** [unitary_init] never reads its [rng] argument: all its samples come
    from the global state of [np.random]. *)
Lemma unitary_init_ignores_rng in_features out_features rng1 rng2 criterion np_random :
  unitary_init in_features out_features rng1 criterion np_random
  = unitary_init in_features out_features rng2 criterion np_random.
Proof. reflexivity. Qed.

(** [quaternion_init] rebinds [rng] to [RandomState(123)] before using it. *)
Lemma quaternion_init_ignores_rng in_features out_features rng1 rng2 criterion np_random :
  quaternion_init scos ssin spi in_features out_features rng1 criterion np_random
  = quaternion_init scos ssin spi in_features out_features rng2 criterion np_random.
Proof. reflexivity. Qed.

(** X21. With a criterion other than ['glorot'] and ['he'], [unitary_init]
    and [quaternion_init] raise the ValueError that carries the criterion
    before any sample is drawn: the state of the global [np.random] is the
    one before the call. *)
Lemma invalid_criterion_raises in_features out_features rng criterion np_random :
  String.eqb criterion "glorot"%string = false ->
  String.eqb criterion "he"%string = false ->
  unitary_init in_features out_features rng criterion np_random
    = (Raise (ValueError criterion), np_random)
  /\ quaternion_init scos ssin spi in_features out_features rng criterion np_random
    = (Raise (ValueError criterion), np_random).
Proof.
  intros Hg Hh. unfold unitary_init, quaternion_init. rewrite Hg, Hh.
  split; reflexivity.
Qed.

Ltac open_lets H :=
  repeat match type of H with
  | context [let (_, _) := ?u in _] => destruct u
  | context [match ?u with pair _ _ => _ end] => destruct u
  end.

(** The real block [quaternion_init] returns comes from [RandomState(123)]
    alone: it is the same at every call, whatever [rng] and the global state
    are. *)
Lemma quaternion_init_real_block in_features out_features criterion
    rng1 rng2 np_random1 np_random2 wr1 wi1 wj1 wk1 wr2 wi2 wj2 wk2 :
  fst (quaternion_init scos ssin spi in_features out_features rng1 criterion np_random1)
    = Ok (wr1, wi1, wj1, wk1) ->
  fst (quaternion_init scos ssin spi in_features out_features rng2 criterion np_random2)
    = Ok (wr2, wi2, wj2, wk2) ->
  wr1 = wr2.
Proof.
  unfold quaternion_init. intros H1 H2.
  destruct (String.eqb criterion "glorot"%string);
    [|destruct (String.eqb criterion "he"%string)];
    try discriminate H1.
  all: open_lets H1; open_lets H2; cbn [fst] in H1, H2; congruence.
Qed.

End InitialiserFacts.

(** C8 on two calls in a row.  With the same arguments, the same [rng]
    object included, the second call of [unitary_init] starts from the
    global state the first call left and returns other weights (here with a
    linear congruential generator in the place of numpy's). *)
Lemma unitary_init_same_arguments_differ :
  let first := unitary_init 1 1 (seeded 5) "glorot"%string (seeded 1) in
  let second := unitary_init 1 1 (seeded 5) "glorot"%string (snd first) in
  fst first <> fst second.
Proof.
  cbv zeta. intros Heq.
  assert (Hbit :
    (fun o : result (@tensor float * @tensor float * @tensor float * @tensor float) =>
       match o with
       | Ok (w, _, _, _) => Prim2SF (nth 0 (data w) 0%float)
       | Raise _ => S754_nan
       end) (fst (unitary_init 1 1 (seeded 5) "glorot"%string (seeded 1)))
    = (fun o : result (@tensor float * @tensor float * @tensor float * @tensor float) =>
       match o with
       | Ok (w, _, _, _) => Prim2SF (nth 0 (data w) 0%float)
       | Raise _ => S754_nan
       end) (fst (unitary_init 1 1 (seeded 5) "glorot"%string
                    (snd (unitary_init 1 1 (seeded 5) "glorot"%string (seeded 1))))))
    by (rewrite <- Heq; reflexivity).
  vm_compute in Hbit. discriminate Hbit.
Qed.

(** * Further properties *)

(** ** Tables *)

Section Tables.
Context {R : Type} {SR : Scalar R}.

Local Abbreviation tensor := (@tensor R).

Lemma tab_of s (t : tensor) :
  has_shape s t -> t = tab s (fun n => nth n (data t) szero).
Proof.
  intros [Hs Hw]. unfold tab, wf in *. rewrite Hs in Hw. rewrite <- Hw.
  destruct t as [sz d]. cbn in *. subst sz. f_equal.
  clear. induction d as [|x d IH] using rev_ind; [reflexivity|].
  rewrite length_app. cbn [length]. rewrite Nat.add_1_r, seq_S, map_app. cbn.
  rewrite nth_middle. f_equal.
  rewrite IH at 1. apply map_ext_in. intros n Hn. apply in_seq in Hn.
  rewrite app_nth1 by lia. reflexivity.
Qed.

Lemma ew_tab f s (g h : nat -> R) :
  ew f (tab s g) (tab s h) = tab s (fun n => f (g n) (h n)).
Proof.
  unfold ew, tab, map2. cbn [size data]. f_equal.
  induction (seq 0 (numel s)) as [|x l IH]; [reflexivity|].
  cbn. f_equal. exact IH.
Qed.

Lemma tab_ext s (g h : nat -> R) :
  (forall n, n < numel s -> g n = h n) -> tab s g = tab s h.
Proof.
  intros E. unfold tab. f_equal. apply map_ext_in. intros n Hn.
  apply in_seq in Hn. apply E. lia.
Qed.

Lemma tab_shaped s (g : nat -> R) : has_shape s (tab s g).
Proof. split; [reflexivity|]. unfold wf, tab. cbn. rewrite length_map, length_seq. reflexivity. Qed.

End Tables.

(** ** The modulus, element by element *)

Section Modulus.
Context {R : Type} {SR : Scalar R}.
Local Abbreviation tensor := (@tensor R).

Lemma get_modulus_vector B H (t : tensor) :
  has_shape [B; 4 * H] t -> get_modulus t true = Ok (sqrt (squares B H t)).
Proof.
  intros Ht. unfold get_modulus.
  destruct (getters_matrix B H t Ht) as (G1 & G2 & G3 & G4).
  assert (Hq : quaternion_shape [B] H t)
    by (split; [apply Ht | left; reflexivity]).
  rewrite (check_input_ok t (quaternion_shape_valid [B] H t Hq)). cbn [bind].
  rewrite G1, G2, G3, G4. cbn [bind].
  change (has_shape ([B] ++ [4 * H]) t) in Ht.
  rewrite (sum_of_squares_shaped ([B] ++ [H])) by auto with shapes. reflexivity.
Qed.

(** X6. On a well-formed matrix of quaternions [t] of shape [B, 4H],
    [get_modulus] in vector form returns the [B x H] matrix whose element
    [b, h] is the square root of r^2 + i^2 + j^2 + k^2 of quaternion [h] of
    row [b]; in its default form it returns the vector of length [H] whose
    element [h] is the square root of the sum of these squares over all
    the rows of the batch. *)
Theorem get_modulus_entries B H (t : tensor) :
  has_shape [B; 4 * H] t ->
  exists v m,
    get_modulus t true = Ok v
    /\ has_shape [B; H] v
    /\ (forall b h, b < B -> h < H -> entry H v b h = ssqrt (spec_quad H t b h))
    /\ get_modulus t false = Ok m
    /\ has_shape [H] m
    /\ (forall h, h < H ->
          nth h (data m) szero
          = ssqrt (fold_left sadd (map (fun b => spec_quad H t b h) (seq 0 B)) szero)).
Proof.
  intros Ht. pose proof Ht as Ht'.
  change (has_shape ([B] ++ [4 * H]) t) in Ht'.
  pose proof (squares_shaped B H t Ht') as Hs.
  pose proof (shaped_data_length B H _ Hs) as Ls.
  exists (sqrt (squares B H t)), (mkT [H] (batch_modulus B H t)).
  split; [apply get_modulus_vector, Ht|]. split.
  { destruct Hs as [Ss Ws]. split; [exact Ss|]. unfold wf in *.
    cbn [sqrt size data]. rewrite length_map. exact Ws. }
  split.
  { intros b h Hb Hh. unfold entry, sqrt. cbn [data].
    rewrite (nth_map_default _ _ _ szero)
      by (rewrite Ls; apply index_bound; assumption).
    f_equal. apply entry_squares; assumption. }
  split; [apply get_modulus_matrix, Ht|]. split.
  { split; [reflexivity|]. unfold wf. cbn [size data numel fold_right].
    rewrite (batch_modulus_length B H t Ht'). lia. }
  intros h Hh. cbn [data]. unfold batch_modulus.
  rewrite (nth_map_default _ _ _ szero).
  2: { rewrite (fold_map2_length H); [exact Hh| |apply repeat_length].
       apply chunks_Forall, Ls. }
  f_equal. rewrite nth_sum0_rows by assumption.
  f_equal. apply map_ext_in. intros b Hb. apply in_seq in Hb.
  apply entry_squares; [exact Ht' | lia | exact Hh].
Qed.

End Modulus.

(** ** Algebra of the Hamilton product *)

Section HamiltonRing.
Context {R : Type} {SR : Scalar R} {RR : ScalarRing R SR}.

Local Abbreviation tensor := (@tensor R).

Add Ring scalars : (@scalar_ring R SR RR).

Ltac shaped :=
  repeat first
    [ assumption
    | apply has_shape_ew
    | apply has_shape_join4
    | apply has_shape_component; [|lia]
    | apply spec_hamilton_r_shaped | apply spec_hamilton_i_shaped
    | apply spec_hamilton_j_shaped | apply spec_hamilton_k_shaped ].

Lemma shaped_tab s (t : tensor) : has_shape s t -> exists f, t = tab s f.
Proof. intros Ht. eexists. apply (tab_of s t Ht). Qed.

(** The four components of a matrix of quaternions, as tables. *)
Lemma components_tab B H (q : tensor) :
  has_shape [B; 4 * H] q ->
  exists f0 f1 f2 f3,
    component [B] H 0 q = tab ([B] ++ [H]) f0
    /\ component [B] H 1 q = tab ([B] ++ [H]) f1
    /\ component [B] H 2 q = tab ([B] ++ [H]) f2
    /\ component [B] H 3 q = tab ([B] ++ [H]) f3.
Proof.
  intros Sq. change (has_shape ([B] ++ [4 * H]) q) in Sq.
  destruct (shaped_tab ([B] ++ [H]) (component [B] H 0 q)) as [f0 E0]; [shaped|].
  destruct (shaped_tab ([B] ++ [H]) (component [B] H 1 q)) as [f1 E1]; [shaped|].
  destruct (shaped_tab ([B] ++ [H]) (component [B] H 2 q)) as [f2 E2]; [shaped|].
  destruct (shaped_tab ([B] ++ [H]) (component [B] H 3 q)) as [f3 E3]; [shaped|].
  exists f0, f1, f2, f3. auto.
Qed.

(** Two expressions over tables are equal when they are at every
    position. *)
Ltac by_position :=
  unfold squares, spec_hamilton_r, spec_hamilton_i, spec_hamilton_j, spec_hamilton_k;
  rewrite !ew_tab; apply tab_ext; intros; ring.

(** The product of two matrices of quaternions, and its components. *)
Lemma hamilton_product_components B H (q0 q1 : tensor) :
  has_shape [B; 4 * H] q0 -> has_shape [B; 4 * H] q1 ->
  exists y,
    hamilton_product q0 q1 = Ok y
    /\ has_shape [B; 4 * H] y
    /\ component [B] H 0 y
       = spec_hamilton_r (component [B] H 0 q0) (component [B] H 1 q0)
                         (component [B] H 2 q0) (component [B] H 3 q0)
                         (component [B] H 0 q1) (component [B] H 1 q1)
                         (component [B] H 2 q1) (component [B] H 3 q1)
    /\ component [B] H 1 y
       = spec_hamilton_i (component [B] H 0 q0) (component [B] H 1 q0)
                         (component [B] H 2 q0) (component [B] H 3 q0)
                         (component [B] H 0 q1) (component [B] H 1 q1)
                         (component [B] H 2 q1) (component [B] H 3 q1)
    /\ component [B] H 2 y
       = spec_hamilton_j (component [B] H 0 q0) (component [B] H 1 q0)
                         (component [B] H 2 q0) (component [B] H 3 q0)
                         (component [B] H 0 q1) (component [B] H 1 q1)
                         (component [B] H 2 q1) (component [B] H 3 q1)
    /\ component [B] H 3 y
       = spec_hamilton_k (component [B] H 0 q0) (component [B] H 1 q0)
                         (component [B] H 2 q0) (component [B] H 3 q0)
                         (component [B] H 0 q1) (component [B] H 1 q1)
                         (component [B] H 2 q1) (component [B] H 3 q1).
Proof.
  intros S0 S1.
  change (has_shape ([B] ++ [4 * H]) q0) in S0.
  change (has_shape ([B] ++ [4 * H]) q1) in S1.
  eexists. split; [apply (hamilton_product_join B H q0 q1 S0 S1)|].
  split; [apply (has_shape_join4 [B] H); shaped|].
  apply (component_join4 [B] H); shaped.
Qed.

(** Two matrices of quaternions with the same four components are equal. *)
Lemma shaped_ext B H (x y : tensor) :
  has_shape [B; 4 * H] x -> has_shape [B; 4 * H] y ->
  component [B] H 0 x = component [B] H 0 y ->
  component [B] H 1 x = component [B] H 1 y ->
  component [B] H 2 x = component [B] H 2 y ->
  component [B] H 3 x = component [B] H 3 y ->
  x = y.
Proof.
  intros Sx Sy E0 E1 E2 E3.
  rewrite <- (join4_components B H x Sx), <- (join4_components B H y Sy).
  rewrite E0, E1, E2, E3. reflexivity.
Qed.

(** X1. Over a commutative ring of scalars, the Hamilton product of
    well-formed matrices of quaternions of one shape [B, 4H] is
    associative: [hamilton_product] returns on both groupings of three
    operands, and the two results are equal. *)
Theorem hamilton_product_assoc B H (a b c : tensor) :
  has_shape [B; 4 * H] a -> has_shape [B; 4 * H] b -> has_shape [B; 4 * H] c ->
  exists ab bc y,
    hamilton_product a b = Ok ab /\ hamilton_product b c = Ok bc
    /\ hamilton_product ab c = Ok y /\ hamilton_product a bc = Ok y.
Proof.
  intros Sa Sb Sc.
  destruct (hamilton_product_components B H a b Sa Sb) as (ab & Eab & Sab & A0 & A1 & A2 & A3).
  destruct (hamilton_product_components B H b c Sb Sc) as (bc & Ebc & Sbc & B0 & B1 & B2 & B3).
  destruct (hamilton_product_components B H ab c Sab Sc) as (l & El & Sl & L0 & L1 & L2 & L3).
  destruct (hamilton_product_components B H a bc Sa Sbc) as (r & Er & Sr & R0 & R1 & R2 & R3).
  exists ab, bc, l. repeat (split; [assumption|]).
  rewrite Er. f_equal. symmetry.
  destruct (components_tab B H a Sa) as (a0 & a1 & a2 & a3 & Ea0 & Ea1 & Ea2 & Ea3).
  destruct (components_tab B H b Sb) as (b0 & b1 & b2 & b3 & Eb0 & Eb1 & Eb2 & Eb3).
  destruct (components_tab B H c Sc) as (c0 & c1 & c2 & c3 & Ec0 & Ec1 & Ec2 & Ec3).
  rewrite Ea0, Ea1, Ea2, Ea3, Eb0, Eb1, Eb2, Eb3 in A0, A1, A2, A3.
  rewrite Eb0, Eb1, Eb2, Eb3, Ec0, Ec1, Ec2, Ec3 in B0, B1, B2, B3.
  rewrite A0, A1, A2, A3, Ec0, Ec1, Ec2, Ec3 in L0, L1, L2, L3.
  rewrite Ea0, Ea1, Ea2, Ea3, B0, B1, B2, B3 in R0, R1, R2, R3.
  apply (shaped_ext B H l r Sl Sr).
  - rewrite L0, R0. by_position.
  - rewrite L1, R1. by_position.
  - rewrite L2, R2. by_position.
  - rewrite L3, R3. by_position.
Qed.

(** X3. Over a commutative ring of scalars the squared modulus is
    multiplicative: for two well-formed matrices of quaternions of shape
    [B, 4H], [get_modulus] in vector form returns for each operand the
    square root of [r r + i i + j j + k k], and for their Hamilton product
    the square root of the product, position by position, of the two sums
    of squares. *)
Theorem hamilton_product_modulus B H (a b : tensor) :
  has_shape [B; 4 * H] a -> has_shape [B; 4 * H] b ->
  exists p,
    hamilton_product a b = Ok p
    /\ get_modulus a true = Ok (sqrt (squares B H a))
    /\ get_modulus b true = Ok (sqrt (squares B H b))
    /\ get_modulus p true = Ok (sqrt (ew smul (squares B H a) (squares B H b))).
Proof.
  intros Sa Sb.
  destruct (hamilton_product_components B H a b Sa Sb) as (p & Ep & Sp & P0 & P1 & P2 & P3).
  exists p. split; [exact Ep|].
  rewrite (get_modulus_vector B H a Sa), (get_modulus_vector B H b Sb),
    (get_modulus_vector B H p Sp).
  repeat (split; [reflexivity|]). do 2 f_equal.
  destruct (components_tab B H a Sa) as (a0 & a1 & a2 & a3 & Ea0 & Ea1 & Ea2 & Ea3).
  destruct (components_tab B H b Sb) as (b0 & b1 & b2 & b3 & Eb0 & Eb1 & Eb2 & Eb3).
  unfold squares at 1. rewrite P0, P1, P2, P3. unfold squares.
  rewrite Ea0, Ea1, Ea2, Ea3, Eb0, Eb1, Eb2, Eb3. by_position.
Qed.

Lemma full_tab B H (v : R) : full B H v = tab ([B] ++ [H]) (fun _ => v).
Proof.
  unfold full, tab. f_equal. cbn [app numel fold_right]. rewrite Nat.mul_1_r.
  rewrite concat_repeat_repeat.
  generalize 0. induction (B * H) as [|n IH]; intros k; [reflexivity|].
  cbn. f_equal. apply IH.
Qed.

(** X2. Over a commutative ring of scalars the identity quaternion is also
    a left identity: [hamilton_product] of the identity tensor and a
    well-formed [q] of shape [B, 4H] returns [q]. *)
Theorem hamilton_product_identity_left B H (q : tensor) :
  has_shape [B; 4 * H] q ->
  hamilton_product (identity_quaternion B H) q = Ok q.
Proof.
  intros Sq.
  destruct (hamilton_product_components B H (identity_quaternion B H) q
              (identity_shaped B H) Sq) as (p & Ep & Sp & P0 & P1 & P2 & P3).
  rewrite Ep. f_equal.
  destruct (identity_components (R := R) B H) as (I0 & I1 & I2 & I3).
  rewrite I0, I1, I2, I3, !full_tab in P0, P1, P2, P3.
  destruct (components_tab B H q Sq) as (q0 & q1 & q2 & q3 & E0 & E1 & E2 & E3).
  rewrite E0, E1, E2, E3 in P0, P1, P2, P3.
  apply (shaped_ext B H p q Sp Sq).
  - rewrite P0, E0. by_position.
  - rewrite P1, E1. by_position.
  - rewrite P2, E2. by_position.
  - rewrite P3, E3. by_position.
Qed.

Lemma constant_quaternion_shaped B H (a b c d : R) :
  has_shape [B; 4 * H] (constant_quaternion B H a b c d).
Proof. apply (has_shape_join4 [B] H); apply full_shaped. Qed.

Lemma constant_quaternion_components B H (a b c d : R) :
  component [B] H 0 (constant_quaternion B H a b c d) = tab ([B] ++ [H]) (fun _ => a)
  /\ component [B] H 1 (constant_quaternion B H a b c d) = tab ([B] ++ [H]) (fun _ => b)
  /\ component [B] H 2 (constant_quaternion B H a b c d) = tab ([B] ++ [H]) (fun _ => c)
  /\ component [B] H 3 (constant_quaternion B H a b c d) = tab ([B] ++ [H]) (fun _ => d).
Proof.
  rewrite <- !full_tab. apply (component_join4 [B] H); apply full_shaped.
Qed.

Lemma tab_first s (f g : nat -> R) :
  0 < numel s -> tab s f = tab s g -> f 0 = g 0.
Proof.
  unfold tab. intros Hn E. injection E as E.
  destruct (numel s) as [|n]; [lia|]. cbn in E. congruence.
Qed.

(** X4. Over a commutative ring of scalars, the two products of two
    well-formed matrices of quaternions, in either order, have the same
    real component; but the product is not commutative: when [1 + 1] is
    not [0], for every non-empty shape there are two operands ([i] and
    [j] everywhere) whose products in the two orders differ. *)
Theorem hamilton_product_commutes_in_real_part_only B H :
  (forall q0 q1 : tensor,
     has_shape [B; 4 * H] q0 -> has_shape [B; 4 * H] q1 ->
     exists p01 p10,
       hamilton_product q0 q1 = Ok p01 /\ hamilton_product q1 q0 = Ok p10
       /\ component [B] H 0 p01 = component [B] H 0 p10)
  /\ (0 < B -> 0 < H -> sadd sone sone <> szero ->
      exists q0 q1 : tensor,
        has_shape [B; 4 * H] q0 /\ has_shape [B; 4 * H] q1
        /\ hamilton_product q0 q1 <> hamilton_product q1 q0).
Proof.
  split.
  - intros q0 q1 S0 S1.
    destruct (hamilton_product_components B H q0 q1 S0 S1) as (p & Ep & _ & P0 & _).
    destruct (hamilton_product_components B H q1 q0 S1 S0) as (p' & Ep' & _ & P0' & _).
    exists p, p'. split; [exact Ep|]. split; [exact Ep'|].
    rewrite P0, P0'.
    destruct (components_tab B H q0 S0) as (a0 & a1 & a2 & a3 & Ea0 & Ea1 & Ea2 & Ea3).
    destruct (components_tab B H q1 S1) as (b0 & b1 & b2 & b3 & Eb0 & Eb1 & Eb2 & Eb3).
    rewrite Ea0, Ea1, Ea2, Ea3, Eb0, Eb1, Eb2, Eb3. by_position.
  - intros HB HH Htwo.
    exists (constant_quaternion B H szero sone szero szero),
           (constant_quaternion B H szero szero sone szero).
    pose proof (constant_quaternion_shaped B H szero sone szero szero) as S0.
    pose proof (constant_quaternion_shaped B H szero szero sone szero) as S1.
    split; [exact S0|]. split; [exact S1|].
    destruct (hamilton_product_components B H _ _ S0 S1) as (p & Ep & _ & _ & _ & _ & P3).
    destruct (hamilton_product_components B H _ _ S1 S0) as (p' & Ep' & _ & _ & _ & _ & P3').
    rewrite Ep, Ep'. intros E. injection E as E. subst p'.
    rewrite P3 in P3'.
    destruct (constant_quaternion_components B H szero sone szero szero)
      as (C0 & C1 & C2 & C3).
    destruct (constant_quaternion_components B H szero szero sone szero)
      as (D0 & D1 & D2 & D3).
    rewrite C0, C1, C2, C3, D0, D1, D2, D3 in P3'.
    unfold spec_hamilton_k in P3'. rewrite !ew_tab in P3'.
    apply tab_first in P3'.
    + apply Htwo.
      transitivity (ssub (sadd (ssub (sadd (smul szero szero) (smul sone sone))
                                     (smul szero szero)) (smul szero szero))
                         (sadd (ssub (sadd (smul szero szero) (smul szero szero))
                                     (smul sone sone)) (smul szero szero)));
        [ring|].
      rewrite <- P3'. ring.
    + cbn [app numel fold_right]. nia.
Qed.

End HamiltonRing.

(** ** The Hamilton product below and above rank 2 *)

Section HamiltonRank3.
Context {R : Type} {SR : Scalar R}.
Local Abbreviation tensor := (@tensor R).

Lemma pointwise_sequence_mismatch f B S H (a b : tensor) :
  size a = [B; S; 4 * H] -> size b = [B; S + (S + (S + (S + 0))); H] ->
  2 <= S \/ 2 <= H ->
  pointwise f a b = Raise TorchError.
Proof.
  intros Sa Sb Hd. unfold pointwise, dim. rewrite Sa, Sb.
  cbn [length Nat.max pad Nat.sub repeat app bshape].
  destruct (Nat.eqb_spec (4 * H) H), (Nat.eqb_spec (4 * H) 1), (Nat.eqb_spec H 1),
    (Nat.eqb_spec S (S + (S + (S + (S + 0))))), (Nat.eqb_spec S 1),
    (Nat.eqb_spec (S + (S + (S + (S + 0)))) 1); try lia; reflexivity.
Qed.

(** X5. [hamilton_product] concatenates along axis 1 whatever the rank, so
    on two rank-3 tensors of one shape [B, S, 4H] with more than one
    sequence position or more than one quaternion per position the
    permuted copy of the second operand no longer broadcasts against the
    first, and the call raises the error of [torch.mul]: it never
    returns. *)
Theorem hamilton_product_rank3_raises B S H (q0 q1 : tensor) :
  size q0 = [B; S; 4 * H] -> size q1 = [B; S; 4 * H] ->
  2 <= S \/ 2 <= H ->
  hamilton_product q0 q1 = Raise TorchError.
Proof.
  intros S0 S1 Hd. unfold hamilton_product, mul, add, sub.
  assert (Q1 : quaternion_shape [B; S] H q1) by (split; [exact S1 | right; reflexivity]).
  rewrite (get_r_component _ _ _ Q1), (get_i_component _ _ _ Q1),
    (get_j_component _ _ _ Q1), (get_k_component _ _ _ Q1). cbn [bind].
  destruct (pointwise_same_ok smul q0 q1) as (rb & -> & Srb); [congruence|]. cbn [bind].
  assert (Qb : quaternion_shape [B; S] H rb)
    by (split; [rewrite Srb; exact S0 | right; reflexivity]).
  rewrite (get_r_component _ _ _ Qb), (get_i_component _ _ _ Qb),
    (get_j_component _ _ _ Qb), (get_k_component _ _ _ Qb). cbn [bind].
  destruct (pointwise_same_ok ssub (component [B; S] H 0 rb) (component [B; S] H 1 rb))
    as (ab & -> & Sab); [reflexivity|]. cbn [bind].
  destruct (pointwise_same_ok ssub ab (component [B; S] H 2 rb))
    as (abc & -> & Sabc); [exact Sab|]. cbn [bind].
  destruct (pointwise_same_ok ssub abc (component [B; S] H 3 rb))
    as (r & -> & Sr); [rewrite Sabc, Sab; reflexivity|]. cbn [bind].
  rewrite (cat4_axis _ _ _ _ [B] [H] S S S S) by reflexivity. cbn [bind].
  rewrite (pointwise_sequence_mismatch smul B S H); [reflexivity | exact S0 | reflexivity | exact Hd].
Qed.

End HamiltonRank3.

(** The theorem at a sequence of two quaternions. *)
Lemma hamilton_product_rank3_raises_witness :
  hamilton_product (mkT [1; 2; 4] [1; 2; 3; 4; 5; 6; 7; 8]%Z)
                   (mkT [1; 2; 4] [1; 0; 0; 0; 1; 0; 0; 0]%Z)
  = Raise TorchError.
Proof.
  apply (hamilton_product_rank3_raises 1 2 1); [reflexivity | reflexivity | left; lia].
Defined.

(** ** Normalisation of a rank-3 input *)

Section SequenceNormalisation.
Context {R : Type} {SR : Scalar R}.
Local Abbreviation tensor := (@tensor R).

Lemma flat_shaped B S W (t : tensor) :
  has_shape [B; S; W] t -> has_shape ([B * S] ++ [W]) (mkT [B * S; W] (data t)).
Proof.
  intros [Hs Hw]. split; [reflexivity|]. unfold wf in *. rewrite Hs in Hw.
  cbn [size data numel fold_right app] in *. lia.
Qed.

Lemma squares_flat B S H (t : tensor) :
  squares (B * S) H (mkT [B * S; 4 * H] (data t)) = squares (B * S) H t.
Proof. reflexivity. Qed.

Lemma sequence_squares_length B S H (t : tensor) :
  has_shape [B; S; 4 * H] t -> length (data (squares (B * S) H t)) = B * (S * H).
Proof.
  intros Ht. rewrite <- squares_flat.
  rewrite (shaped_data_length (B * S) H); [lia|].
  apply squares_shaped, (flat_shaped B S (4 * H) t Ht).
Qed.

Lemma sequence_modulus_length B S H (t : tensor) :
  has_shape [B; S; 4 * H] t -> length (sequence_modulus B S H t) = S * H.
Proof.
  intros Ht. unfold sequence_modulus. rewrite length_map.
  apply fold_map2_length; [|apply repeat_length].
  apply chunks_Forall, sequence_squares_length, Ht.
Qed.

Lemma get_modulus_sequence B S H (t : tensor) :
  has_shape [B; S; 4 * H] t ->
  get_modulus t false = Ok (mkT [S; H] (sequence_modulus B S H t)).
Proof.
  intros Ht. unfold get_modulus.
  assert (Hq : quaternion_shape [B; S] H t)
    by (split; [apply Ht | right; reflexivity]).
  rewrite (check_input_ok t (quaternion_shape_valid [B; S] H t Hq)). cbn [bind].
  rewrite (get_r_component _ _ _ Hq), (get_i_component _ _ _ Hq),
    (get_j_component _ _ _ Hq), (get_k_component _ _ _ Hq). cbn [bind].
  change (has_shape ([B; S] ++ [4 * H]) t) in Ht.
  rewrite (sum_of_squares_shaped ([B; S] ++ [H])) by auto with shapes. cbn [bind].
  unfold sum0, sqrt, sequence_modulus, squares, ew, component.
  cbn [size data app numel fold_right]. rewrite !Nat.mul_1_r. reflexivity.
Qed.

Lemma tile_row (H : nat) (x : list R) :
  length x = H -> tile_data [H] [4] x = concat (repeat x 4).
Proof.
  intros Hl. cbn [tile_data numel fold_right].
  rewrite map_id, concat_chunks by lia. reflexivity.
Qed.

(** [repeat(1, 1, 4)] of an [S x H] matrix: every row four times, side by
    side. *)
Lemma tile_rows (S H : nat) (d : list R) :
  length d = S * H ->
  tile_data [1; S; H] [1; 1; 4] d
  = concat (map (fun row => concat (repeat row 4)) (chunks S H d)).
Proof.
  intros Hl.
  change (tile_data [1; S; H] [1; 1; 4] d)
    with (concat (repeat (concat (map (tile_data [S; H] [1; 4])
                                      (chunks 1 (numel [S; H]) d))) 1)).
  rewrite (chunks_one (numel [S; H]) d) by (cbn; lia).
  cbn [map repeat concat]. rewrite !app_nil_r.
  change (tile_data [S; H] [1; 4] d)
    with (concat (repeat (concat (map (tile_data [H] [4])
                                      (chunks S (numel [H]) d))) 1)).
  cbn [repeat concat numel fold_right]. rewrite app_nil_r, Nat.mul_1_r.
  f_equal. apply map_ext_Forall.
  eapply Forall_impl; [|apply (chunks_Forall S H d Hl)].
  intros row Hrow. apply tile_row, Hrow.
Qed.

(** [expand_as] from shape [1, S, W] to shape [B, S, W]: the matrix, [B]
    times. *)
Lemma expand_matrix (B S W : nat) (d : list R) :
  length d = S * W -> expand_data [1; S; W] [B; S; W] d = concat (repeat d B).
Proof.
  intros Hl.
  change (expand_data [1; S; W] [B; S; W] d)
    with (let sub := concat (map (expand_data [S; W] [S; W])
                                 (chunks 1 (numel [S; W]) d)) in
          if 1 =? B then sub else concat (repeat sub B)).
  cbv zeta. rewrite (chunks_one (numel [S; W]) d) by (cbn; lia).
  cbn [map concat]. rewrite expand_data_id by (cbn; lia). rewrite app_nil_r.
  destruct (Nat.eqb_spec 1 B) as [<-|_]; [|reflexivity].
  cbn [repeat concat]. rewrite app_nil_r. reflexivity.
Qed.

Lemma tiled_uniform (S H : nat) (d : list R) :
  length d = S * H ->
  Forall (fun c => length c = 4 * H)
    (map (fun row => concat (repeat row 4)) (chunks S H d)).
Proof.
  intros Hl. apply Forall_map.
  eapply Forall_impl; [|apply (chunks_Forall S H d Hl)].
  intros row Hrow. cbv beta in Hrow. rewrite length_concat_repeat. lia.
Qed.

Lemma tiled_length (S H : nat) (d : list R) :
  length d = S * H ->
  length (concat (map (fun row => concat (repeat row 4)) (chunks S H d))) = S * (4 * H).
Proof.
  intros Hl. rewrite (length_concat_uniform (4 * H)) by (apply tiled_uniform, Hl).
  rewrite length_map, chunks_length. reflexivity.
Qed.

Lemma sequence_divisors_shaped B S H (t : tensor) eps :
  has_shape [B; S; 4 * H] t -> has_shape [B; S; 4 * H] (sequence_divisors B S H t eps).
Proof.
  intros Ht. split; [reflexivity|]. unfold wf. cbn [sequence_divisors data size].
  rewrite length_map, length_concat_repeat.
  rewrite (tiled_length S H) by (apply sequence_modulus_length, Ht).
  cbn [numel fold_right]. lia.
Qed.

Lemma get_normalized_sequence B S H (t : tensor) eps :
  has_shape [B; S; 4 * H] t ->
  get_normalized t eps = Ok (ew sdiv t (sequence_divisors B S H t eps)).
Proof.
  intros Ht. unfold get_normalized.
  assert (Hq : quaternion_shape [B; S] H t)
    by (split; [apply Ht | right; reflexivity]).
  rewrite (check_input_ok t (quaternion_shape_valid [B; S] H t Hq)). cbn [bind].
  rewrite (get_modulus_sequence B S H t Ht). cbn [bind].
  rewrite (quaternion_shape_dim [B; S] H t Hq). cbn [length Nat.eqb].
  pose proof (sequence_modulus_length B S H t Ht) as Lm.
  unfold repeat_, dim.
  cbn [size data length Nat.leb pad Nat.sub repeat app combine map fst snd bind].
  rewrite (tile_rows S H _ Lm).
  unfold expand_as, dim. rewrite (proj1 Ht).
  cbn [size data length Nat.leb pad Nat.sub repeat app expandable andb].
  replace (H * 4) with (4 * H) by lia.
  replace (1 * 1) with 1 by reflexivity.
  rewrite (Nat.mul_1_r S), !Nat.eqb_refl, !orb_true_r. cbn [orb andb bind].
  rewrite expand_matrix by (apply tiled_length, Lm).
  unfold div. apply (pointwise_shaped sdiv [B; S; 4 * H]);
    [exact Ht | apply (sequence_divisors_shaped B S H t eps Ht)].
Qed.

(** X7. On a well-formed rank-3 tensor [t] of shape [B, S, 4H],
    [get_normalized t eps] returns the tensor of that shape whose element
    [b, s, c] is the element [b, s, c] of [t] divided by the square root of
    the sum, over the batch index [b'] alone, of r^2 + i^2 + j^2 + k^2 of
    quaternion [c mod H] at sequence position [s] of batch [b'], plus
    [eps]: one divisor per sequence position and feature position, shared
    by the four components and by every batch. *)
Theorem get_normalized_sequence_divisor B S H (t : tensor) eps :
  has_shape [B; S; 4 * H] t ->
  exists y,
    get_normalized t eps = Ok y
    /\ has_shape [B; S; 4 * H] y
    /\ forall b s c, b < B -> s < S -> c < 4 * H ->
         entry (4 * H) y (b * S + s) c
         = sdiv (entry (4 * H) t (b * S + s) c)
                (sadd (ssqrt (fold_left sadd
                                (map (fun b' => spec_quad H t (b' * S + s) (c mod H))
                                     (seq 0 B)) szero))
                      eps).
Proof.
  intros Ht. exists (ew sdiv t (sequence_divisors B S H t eps)).
  pose proof (sequence_divisors_shaped B S H t eps Ht) as Hd.
  split; [apply get_normalized_sequence, Ht|].
  split; [apply has_shape_ew; assumption|].
  intros b s c Hb Hs Hc.
  assert (HH : 0 < H) by lia.
  pose proof (index_bound b B S s Hb Hs) as Hn.
  pose proof (index_bound (b * S + s) (B * S) (4 * H) c Hn Hc) as Hi.
  pose proof (sequence_modulus_length B S H t Ht) as Lm.
  pose proof (tiled_length S H _ Lm) as Lt.
  pose proof (index_bound s S (4 * H) c Hs Hc) as Hsc.
  unfold entry at 1. unfold ew. cbn [data].
  rewrite nth_map2.
  2: { destruct Ht as [Hs' Hw]. unfold wf in Hw. rewrite Hw, Hs'. cbn. lia. }
  2: { destruct Hd as [Hs' Hw]. unfold wf in Hw. rewrite Hw, Hs'. cbn. lia. }
  fold (entry (4 * H) t (b * S + s) c). f_equal.
  unfold sequence_divisors. cbn [data].
  rewrite (nth_map_default _ _ _ szero) by (rewrite length_concat_repeat, Lt; lia).
  f_equal.
  replace ((b * S + s) * (4 * H) + c) with (b * (S * (4 * H)) + (s * (4 * H) + c)) by lia.
  rewrite (nth_repeated_rows B (S * (4 * H))) by assumption.
  rewrite (nth_concat_uniform (4 * H));
    [|apply tiled_uniform, Lm|rewrite length_map, chunks_length; exact Hs|exact Hc].
  rewrite (nth_map_in _ _ _ []) by (rewrite chunks_length; exact Hs).
  rewrite nth_chunks by exact Hs.
  assert (Lrow : length (firstn H (skipn (s * H) (sequence_modulus B S H t))) = H).
  { rewrite length_firstn, length_skipn, Lm.
    assert (Datatypes.S s * H <= S * H) by (apply Nat.mul_le_mono_r; lia). lia. }
  rewrite (Nat.div_mod_eq c H) at 1. rewrite (Nat.mul_comm H (c / H)).
  assert (Hq : c / H < 4) by (apply Nat.Div0.div_lt_upper_bound; lia).
  assert (Hr : c mod H < H) by (apply Nat.mod_upper_bound; lia).
  rewrite (nth_concat_uniform H); [| |rewrite repeat_length; lia|lia].
  2: { apply Forall_forall. intros x Hx. apply repeat_spec in Hx. subst x. exact Lrow. }
  rewrite nth_repeat_lt by exact Hq.
  rewrite nth_slice by exact Hr.
  unfold sequence_modulus.
  pose proof (sequence_squares_length B S H t Ht) as Ls.
  rewrite (nth_map_default _ _ _ szero).
  2: { rewrite (fold_map2_length (S * H)); [apply index_bound; assumption| |apply repeat_length].
       apply chunks_Forall, Ls. }
  f_equal.
  rewrite nth_sum0_rows by (try exact Ls; apply index_bound; assumption).
  f_equal. apply map_ext_in. intros b' Hb'. apply in_seq in Hb'.
  replace (b' * (S * H) + (s * H + c mod H)) with ((b' * S + s) * H + c mod H) by lia.
  rewrite <- squares_flat.
  apply (entry_squares (B * S) H (mkT [B * S; 4 * H] (data t)));
    [apply (flat_shaped B S (4 * H) t Ht) | apply index_bound; lia | exact Hr].
Qed.

End SequenceNormalisation.

(** ** [forward] and [quaternion_linear] *)

Section LinearValidation.
Context {R : Type} {SR : Scalar R}.
Local Abbreviation tensor := (@tensor R).

Lemma quaternion_linear_torch_only (x r i j k : tensor) bias :
  torch_only (quaternion_linear x r i j k bias).
Proof.
  unfold quaternion_linear.
  repeat (apply torch_only_bind; [apply cat_torch_only | intros ?]).
  destruct (dim x =? 2); destruct bias.
  - apply addmm_torch_only.
  - apply mm_torch_only.
  - apply torch_only_bind; [apply matmul_torch_only | intros ?].
    apply pointwise_torch_only.
  - apply torch_only_bind; [apply matmul_torch_only | intros ?].
    auto with torch.
Qed.

End LinearValidation.

(** X8. [QuaternionLinearFunction.forward] saves its six arguments in the
    context, whatever follows, and returns what [check_input] followed by
    [quaternion_linear] returns.  [quaternion_linear] itself validates
    nothing: every exception it raises comes from a torch primitive, and it
    accepts inputs that [forward] rejects, such as a rank-4 one. *)
Theorem forward_validates_quaternion_linear :
  (forall (R : Type) (SR : Scalar R) ctx (x r i j k : @tensor R) bias,
     forward ctx x r i j k bias
     = (mkCtx (needs_input_grad ctx) (Some (x, r, i, j, k, bias)),
        check_input x ;;; quaternion_linear x r i j k bias)
     /\ torch_only (quaternion_linear x r i j k bias))
  /\ (exists y,
        quaternion_linear sample_rank4 (mkT [1; 1] [1%Z]) (mkT [1; 1] [10%Z])
          (mkT [1; 1] [100%Z]) (mkT [1; 1] [1000%Z]) None = Ok y
        /\ snd (forward (mkCtx all_needed None) sample_rank4
                  (mkT [1; 1] [1%Z]) (mkT [1; 1] [10%Z])
                  (mkT [1; 1] [100%Z]) (mkT [1; 1] [1000%Z]) None)
           = Raise (DimError 4)).
Proof.
  split.
  - intros R SR ctx x r i j k bias. split; [reflexivity|].
    apply quaternion_linear_torch_only.
  - eexists. split; reflexivity.
Qed.

(** ** Matrices, entry by entry *)

Section MatrixEntries.
Context {R : Type} {SR : Scalar R}.
Local Abbreviation tensor := (@tensor R).

Lemma entry_row W (t : tensor) n c :
  c < W -> nth c (row W t n) szero = entry W t n c.
Proof. intros Hc. unfold row, entry. apply nth_slice, Hc. Qed.

Lemma nth_column W K (t : tensor) c k :
  k < K -> nth k (column W K t c) szero = entry W t k c.
Proof.
  intros Hk. unfold column.
  rewrite (nth_indep _ szero (entry W t 0 c)) by (rewrite length_map, length_seq; exact Hk).
  rewrite (map_nth (fun k => entry W t k c)), seq_nth by exact Hk. reflexivity.
Qed.

Lemma row_length W K (t : tensor) n :
  length (data t) = K * W -> n < K -> length (row W t n) = W.
Proof.
  intros Hl Hn. unfold row. rewrite length_firstn, length_skipn, Hl.
  assert (S n * W <= K * W) by (apply Nat.mul_le_mono_r; lia). lia.
Qed.

Lemma column_length W K (t : tensor) c : length (column W K t c) = K.
Proof. unfold column. rewrite length_map, length_seq. reflexivity. Qed.

Lemma list_ext (x y : list R) :
  length x = length y ->
  (forall n, n < length x -> nth n x szero = nth n y szero) -> x = y.
Proof.
  revert y; induction x as [|a x IH]; intros [|b y] Hl E; try discriminate; [reflexivity|].
  f_equal.
  - apply (E 0). cbn. lia.
  - apply IH; [cbn in Hl; lia|]. intros n Hn. apply (E (S n)). cbn. lia.
Qed.

(** A row of a well-formed matrix, element by element. *)
Lemma row_as_map W K (t : tensor) n :
  length (data t) = K * W -> n < K ->
  row W t n = map (fun k => entry W t n k) (seq 0 W).
Proof.
  intros Hl Hn. apply list_ext.
  - rewrite (row_length W K t n Hl Hn), length_map, length_seq. reflexivity.
  - rewrite (row_length W K t n Hl Hn). intros k Hk.
    rewrite entry_row by exact Hk.
    rewrite (nth_indep _ szero (entry W t n 0)) by (rewrite length_map, length_seq; exact Hk).
    rewrite (map_nth (fun k => entry W t n k)), seq_nth by exact Hk. reflexivity.
Qed.

Lemma columns_uniform (n : nat) (rs : list (list R)) :
  Forall (fun c => length c = length rs) (columns n rs).
Proof.
  unfold columns. apply Forall_map, Forall_forall. intros j _.
  apply length_map.
Qed.

Lemma columns_length (n : nat) (rs : list (list R)) : length (columns n rs) = n.
Proof. unfold columns. rewrite length_map, length_seq. reflexivity. Qed.

(** The transpose of a [P x Q] matrix: its rows are the columns of the
    matrix. *)
Lemma permute10_entries P Q (t : tensor) :
  size t = [P; Q] ->
  exists y, permute10 t = Ok y /\ has_shape [Q; P] y
    /\ (forall q, q < Q -> row P y q = column Q P t q)
    /\ (forall q p, q < Q -> p < P -> entry P y q p = entry Q t p q).
Proof.
  intros Hs. unfold permute10, rows. rewrite Hs. cbn [nth].
  eexists. split; [reflexivity|].
  pose proof (columns_uniform Q (chunks P Q (data t))) as Hu.
  rewrite chunks_length in Hu.
  assert (Hrow : forall q, q < Q ->
            row P (mkT [Q; P] (concat (columns Q (chunks P Q (data t))))) q
            = column Q P t q).
  { intros q Hq. unfold row. cbn [data].
    rewrite <- (nth_chunks Q P q) by exact Hq.
    rewrite <- (columns_length Q (chunks P Q (data t))) at 1.
    rewrite (chunks_concat P) by exact Hu.
    apply columns_nth, Hq. }
  split; [|split; [exact Hrow|]].
  - split; [reflexivity|]. unfold wf. cbn [size data numel fold_right].
    rewrite (length_concat_uniform P) by exact Hu.
    rewrite columns_length. lia.
  - intros q p Hq Hp. rewrite <- entry_row by exact Hp.
    rewrite (Hrow q Hq). apply nth_column, Hp.
Qed.

Lemma t_matrix P Q (t : tensor) : size t = [P; Q] -> t_ t = permute10 t.
Proof. intros Hs. unfold t_. rewrite Hs. reflexivity. Qed.

(** [mm] entry by entry. *)
Lemma mm_entries P Q W (x E : tensor) :
  size x = [P; Q] -> size E = [Q; W] ->
  exists y, mm x E = Ok y /\ has_shape [P; W] y
    /\ forall n c, n < P -> c < W ->
         entry W y n c = dot (row Q x n) (column W Q E c).
Proof.
  intros Sx SE. rewrite (mm_matrix P Q W x E Sx SE).
  eexists. split; [reflexivity|]. split.
  - split; [reflexivity|]. unfold wf. cbn [size data numel fold_right].
    rewrite matprod_length. lia.
  - intros n c Hn Hc. unfold entry at 1. cbn [data].
    apply matprod_entry; assumption.
Qed.

(** Column [c] of the transpose is row [c]. *)
Lemma column_of_rows P Q (t y : tensor) q :
  has_shape [P; Q] t -> q < P ->
  (forall k p, k < Q -> p < P -> entry P y k p = entry Q t p k) ->
  column P Q y q = row Q t q.
Proof.
  intros [Hs Hw] Hq E. unfold wf in Hw. rewrite Hs in Hw. cbn in Hw.
  rewrite (row_as_map Q P t q) by lia.
  unfold column. apply map_ext_in. intros k Hk. apply in_seq in Hk.
  apply E; lia.
Qed.

End MatrixEntries.

(** ** [LinearFunction]: the forward pass *)

Section LinearForward.
Context {R : Type} {SR : Scalar R}.
Local Abbreviation tensor := (@tensor R).

Lemma list_eqb_nat_refl (s : list nat) : list_eqb Nat.eqb s s = true.
Proof. apply list_eqb_refl, Nat.eqb_refl. Qed.

Lemma iadd_same s (out e : tensor) :
  has_shape s out -> has_shape s e -> iadd out e = Ok (ew sadd out e).
Proof.
  intros Ho He. unfold iadd, add. rewrite (pointwise_shaped sadd s out e Ho He).
  cbn [bind ew size]. rewrite list_eqb_nat_refl. reflexivity.
Qed.

Lemma repeated_rows_length (K W : nat) (d : list R) :
  length d = W -> length (concat (repeat d K)) = K * W.
Proof. intros <-. apply length_concat_repeat. Qed.

(** [output += bias.unsqueeze(0).expand_as(output)] on a matrix. *)
Lemma bias_added_matrix K W (out b : tensor) :
  has_shape [K; W] out -> has_shape [W] b ->
  (e <- expand_as (unsqueeze0 b) out ;; iadd out e)
  = Ok (mkT [K; W] (map2 sadd (data out) (concat (repeat (data b) K)))).
Proof.
  intros Ho [Sb Wb]. pose proof Ho as [So Wo].
  assert (Lb : length (data b) = W) by (unfold wf in Wb; rewrite Wb, Sb; cbn; lia).
  unfold expand_as, dim, unsqueeze0. rewrite Sb, So.
  cbn [size data length Nat.leb pad Nat.sub repeat app expandable andb].
  rewrite (Nat.eqb_refl W), (Nat.eqb_refl 1), orb_true_r.
  cbn [orb andb bind]. rewrite (expand_vector_rows K W _ Lb).
  rewrite (iadd_same [K; W]); [unfold ew; rewrite So; reflexivity | exact Ho |].
  split; [reflexivity|]. unfold wf. cbn [size data numel fold_right].
  rewrite (repeated_rows_length K W _ Lb). lia.
Qed.

(** The same statement on a rank-3 output. *)
Lemma bias_added_batched B S W (out b : tensor) :
  has_shape [B; S; W] out -> has_shape [W] b ->
  (e <- expand_as (unsqueeze0 b) out ;; iadd out e)
  = Ok (mkT [B; S; W] (map2 sadd (data out) (concat (repeat (data b) (B * S))))).
Proof.
  intros Ho [Sb Wb]. pose proof Ho as [So Wo].
  assert (Lb : length (data b) = W) by (unfold wf in Wb; rewrite Wb, Sb; cbn; lia).
  unfold expand_as, dim, unsqueeze0. rewrite Sb, So.
  cbn [size data length Nat.leb pad Nat.sub repeat app expandable andb].
  rewrite (Nat.eqb_refl W), !(Nat.eqb_refl 1), !orb_true_r.
  cbn [orb andb bind]. rewrite (expand_vector_batched B S W _ Lb).
  rewrite (iadd_same [B; S; W]); [unfold ew; rewrite So; reflexivity | exact Ho |].
  split; [reflexivity|]. unfold wf. cbn [size data numel fold_right].
  rewrite (repeated_rows_length (B * S) W _ Lb). lia.
Qed.

Lemma bias_entry K W (out b : tensor) n c :
  length (data out) = K * W -> length (data b) = W -> n < K -> c < W ->
  nth (n * W + c) (map2 sadd (data out) (concat (repeat (data b) K))) szero
  = sadd (entry W out n c) (nth c (data b) szero).
Proof.
  intros Lo Lb Hn Hc. pose proof (index_bound n K W c Hn Hc) as Hi.
  rewrite nth_map2 by (rewrite ?(repeated_rows_length K W _ Lb); lia).
  rewrite (nth_repeated_rows K W n c _ Lb Hn Hc). reflexivity.
Qed.

Lemma map2_shaped_length (n : nat) (x y : list R) :
  length x = n -> length y = n -> length (map2 sadd x y) = n.
Proof. intros Hx Hy. rewrite map2_length, Hx, Hy. apply Nat.min_id. Qed.

(** The product [x . w^T] followed by the optional bias, for [K] rows. *)
Lemma linear_output K In Out (out w x : tensor) bias s :
  has_shape s out -> numel s = K * Out ->
  (forall b, has_shape [Out] b ->
     (e <- expand_as (unsqueeze0 b) out ;; iadd out e)
     = Ok (mkT s (map2 sadd (data out) (concat (repeat (data b) K))))) ->
  bias_shaped Out bias ->
  (forall n o, n < K -> o < Out -> entry Out out n o = dot (row In x n) (row In w o)) ->
  exists y,
    match bias with
    | Some b => e <- expand_as (unsqueeze0 b) out ;; iadd out e
    | None => Ok out
    end = Ok y
    /\ has_shape s y
    /\ forall n o, n < K -> o < Out ->
         entry Out y n o = plus_bias bias o (dot (row In x n) (row In w o)).
Proof.
  intros Ho Hn Hadd Hb E. destruct bias as [b|]; cbn [bias_shaped plus_bias] in *.
  - rewrite (Hadd b Hb). eexists. split; [reflexivity|].
    destruct Ho as [So Wo]. unfold wf in Wo. rewrite So, Hn in Wo.
    destruct Hb as [Sb Wb]. unfold wf in Wb. rewrite Sb in Wb. cbn in Wb.
    split.
    + split; [reflexivity|]. unfold wf. cbn [size data]. rewrite Hn.
      apply map2_shaped_length; [exact Wo|].
      apply repeated_rows_length. lia.
    + intros n o Hk Ho'. unfold entry at 1. cbn [data].
      rewrite bias_entry by (assumption || lia).
      rewrite E by assumption. reflexivity.
  - exists out. split; [reflexivity|]. split; [exact Ho | exact E].
Qed.

End LinearForward.

Section MatmulEntries.
Context {R : Type} {SR : Scalar R}.
Local Abbreviation tensor := (@tensor R).

Lemma chunks_chunks (B S Q : nat) (d : list R) :
  length d = B * (S * Q) ->
  concat (map (chunks S Q) (chunks B (S * Q) d)) = chunks (B * S) Q d.
Proof.
  revert d; induction B as [|B IH]; intros d Hl; [reflexivity|].
  cbn [chunks map concat]. rewrite IH by (rewrite length_skipn; lia).
  rewrite <- (firstn_skipn (S * Q) d) at 3.
  change (Datatypes.S B * S) with (S + B * S).
  rewrite chunks_app by (rewrite length_firstn; lia). reflexivity.
Qed.

Lemma combine_repeat {A B0 C : Type} (f : A * B0 -> C) (l : list A) (y : B0) :
  map f (combine l (repeat y (length l))) = map (fun x => f (x, y)) l.
Proof. induction l as [|x l IH]; [reflexivity|]. cbn. f_equal. exact IH. Qed.

Lemma bshape_one_r (B : nat) : bshape [B] [1] = Some [B].
Proof. cbn. destruct (B =? 1) eqn:E; reflexivity. Qed.

Lemma repeat_uniform (d : list R) (K W : nat) :
  length d = W -> Forall (fun c => length c = W) (repeat d K).
Proof.
  intros Hl. apply Forall_forall. intros y Hy. apply repeat_spec in Hy. subst y. exact Hl.
Qed.

Lemma chunks_repeat (d : list R) (K W : nat) :
  length d = W -> chunks K W (concat (repeat d K)) = repeat d K.
Proof.
  intros Hl. rewrite <- (repeat_length d K) at 1.
  apply chunks_concat, repeat_uniform, Hl.
Qed.

Lemma matprod_batches Q W S (bs : list (list R)) (E' E : tensor) :
  data E' = data E ->
  concat (map (fun xb => matprod Q W (chunks S Q xb) E') bs)
  = matprod Q W (concat (map (chunks S Q) bs)) E.
Proof.
  intros HE. unfold matprod. rewrite HE.
  induction bs as [|xb bs IH]; [reflexivity|].
  cbn [map concat]. rewrite IH, map_app, concat_app. reflexivity.
Qed.

(** A batch of matrices times one matrix: every row of the batch is
    multiplied by the matrix. *)
Lemma matmul_nd_batched B S Q W (x E : tensor) :
  has_shape [B; S; Q] x -> has_shape [Q; W] E ->
  matmul_nd x E = Ok (mkT [B; S; W] (matprod Q W (chunks (B * S) Q (data x)) E)).
Proof.
  intros [Sx Wx] [SE WE]. unfold wf in Wx, WE. rewrite Sx in Wx. rewrite SE in WE.
  cbn [numel fold_right] in Wx, WE.
  unfold matmul_nd, dim. rewrite Sx, SE.
  cbn [length Nat.eqb rev app Nat.max pad Nat.sub repeat].
  rewrite bshape_one_r, Nat.eqb_refl. cbn [app numel fold_right].
  rewrite (expand_data_id [B; S * Q]) by (cbn; lia).
  rewrite (expand_vector_rows B (Q * W)) by lia.
  rewrite Nat.mul_1_r.
  rewrite (chunks_repeat (data E) B (Q * W)) by lia.
  replace (repeat (data E) B)
    with (repeat (data E) (length (chunks B (S * Q) (data x))))
    by (rewrite chunks_length; reflexivity).
  rewrite (combine_repeat
             (fun xy => matprod Q W (chunks S Q (fst xy)) (mkT [Q; W] (snd xy)))).
  cbn [fst snd]. f_equal. f_equal.
  rewrite (matprod_batches Q W S _ (mkT [Q; W] (data E)) E) by reflexivity.
  rewrite chunks_chunks by lia. reflexivity.
Qed.

Lemma matmul_nd_batched_entries B S Q W (x E : tensor) :
  has_shape [B; S; Q] x -> has_shape [Q; W] E ->
  exists y, matmul_nd x E = Ok y /\ has_shape [B; S; W] y
    /\ forall n c, n < B * S -> c < W ->
         entry W y n c = dot (row Q x n) (column W Q E c).
Proof.
  intros Hx HE. rewrite (matmul_nd_batched B S Q W x E Hx HE).
  eexists. split; [reflexivity|]. split.
  - split; [reflexivity|]. unfold wf. cbn [size data numel fold_right].
    rewrite matprod_length. lia.
  - intros n c Hn Hc. unfold entry at 1. cbn [data].
    apply matprod_entry; assumption.
Qed.

End MatmulEntries.

Section LinearForwardTheorem.
Context {R : Type} {SR : Scalar R}.
Local Abbreviation tensor := (@tensor R).

(** [x . w^T]: the rows of the weight are the columns of its transpose. *)
Lemma transposed_weight In Out (w : tensor) :
  has_shape [Out; In] w ->
  exists wt, t_ w = Ok wt /\ has_shape [In; Out] wt
    /\ forall o, o < Out -> column Out In wt o = row In w o.
Proof.
  intros Hw. pose proof Hw as [Sw _]. rewrite (t_matrix Out In w Sw).
  destruct (permute10_entries Out In w Sw) as (wt & -> & Hwt & _ & E).
  exists wt. split; [reflexivity|]. split; [exact Hwt|].
  intros o Ho. apply (column_of_rows Out In w wt o Hw Ho).
  intros k p Hk Hp. apply E; assumption.
Qed.

(** X13. For a well-formed input of rank 2 or 3 with last axis [In], a
    well-formed weight of shape [Out, In] and an optional bias of length
    [Out], [LinearFunction.forward] saves its three arguments in the
    context and returns the tensor of the input's shape with last axis
    [Out] whose element [n, o] is the dot product of row [n] of the input
    and row [o] of the weight, with element [o] of the bias added behind
    it. *)
Theorem linear_forward_output ctx pre In Out (x w : tensor) bias :
  length pre = 1 \/ length pre = 2 ->
  has_shape (pre ++ [In]) x -> has_shape [Out; In] w -> bias_shaped Out bias ->
  exists y,
    LinearFunction.forward ctx x w bias
    = (LinearFunction.mkCtx (LinearFunction.needs_input_grad ctx) (Some (x, w, bias)),
       Ok y)
    /\ has_shape (pre ++ [Out]) y
    /\ forall n o, n < numel pre -> o < Out ->
         entry Out y n o = plus_bias bias o (dot (row In x n) (row In w o)).
Proof.
  intros Hp Hx Hw Hb.
  destruct (transposed_weight In Out w Hw) as (wt & Et & Hwt & Ecol).
  unfold LinearFunction.forward, LinearFunction.save_for_backward, dim.
  rewrite (proj1 Hx), Et. cbn [bind].
  destruct pre as [|B [|S [|? ?]]]; cbn [length] in Hp; try lia;
    cbn [app length Nat.eqb numel fold_right] in *.
  - destruct (mm_entries B In Out x wt (proj1 Hx) (proj1 Hwt)) as (out & -> & Ho & E).
    cbn [bind].
    destruct (linear_output B In Out out w x bias [B; Out] Ho) as (y & -> & Hy & Ey);
      [cbn; lia | intros b Hb'; apply bias_added_matrix; assumption | exact Hb | |].
    + intros n o Hn Ho'. rewrite E, Ecol by assumption. reflexivity.
    + exists y. split; [reflexivity|]. split; [exact Hy|].
      intros n o Hn Ho'. apply Ey; lia.
  - destruct (matmul_nd_batched_entries B S In Out x wt Hx Hwt) as (out & -> & Ho & E).
    cbn [bind].
    destruct (linear_output (B * S) In Out out w x bias [B; S; Out] Ho) as (y & -> & Hy & Ey);
      [cbn; lia | intros b Hb'; apply bias_added_batched; assumption | exact Hb | |].
    + intros n o Hn Ho'. rewrite E, Ecol by assumption. reflexivity.
    + exists y. split; [reflexivity|]. split; [exact Hy|].
      intros n o Hn Ho'. apply Ey; lia.
Qed.

End LinearForwardTheorem.

(** The theorem at a batch of two sequences of two inputs. *)
Lemma linear_forward_output_witness :
  exists y,
    LinearFunction.forward (LinearFunction.mkCtx (LinearFunction.mkNeeds true true true) None)
      (mkT [2; 2; 3] [1; 2; 3; 4; 5; 6; 7; 8; 9; 10; 11; 12]%Z)
      (mkT [2; 3] [1; 0; 2; 0; 1; 1]%Z) (Some (mkT [2] [100; 200]%Z))
    = (LinearFunction.mkCtx (LinearFunction.mkNeeds true true true)
         (Some (mkT [2; 2; 3] [1; 2; 3; 4; 5; 6; 7; 8; 9; 10; 11; 12]%Z,
                mkT [2; 3] [1; 0; 2; 0; 1; 1]%Z, Some (mkT [2] [100; 200]%Z))),
       Ok y)
    /\ has_shape [2; 2; 2] y
    /\ forall n o, n < 4 -> o < 2 ->
         entry 2 y n o
         = plus_bias (Some (mkT [2] [100; 200]%Z)) o
             (dot (row 3 (mkT [2; 2; 3] [1; 2; 3; 4; 5; 6; 7; 8; 9; 10; 11; 12]%Z) n)
                  (row 3 (mkT [2; 3] [1; 0; 2; 0; 1; 1]%Z) o)).
Proof.
  apply (linear_forward_output
           (LinearFunction.mkCtx (LinearFunction.mkNeeds true true true) None)
           [2; 2] 3 2 _ _ (Some (mkT [2] [100; 200]%Z))).
  - right. reflexivity.
  - split; reflexivity.
  - split; reflexivity.
  - split; reflexivity.
Defined.

(** ** Reductions and batched products *)

Section Reductions.
Context {R : Type} {SR : Scalar R}.
Local Abbreviation tensor := (@tensor R).

(** [sum(0)] of a matrix: the sums of its columns. *)
Lemma sum0_matrix B W (t : tensor) :
  has_shape [B; W] t ->
  has_shape [W] (sum0 t)
  /\ forall c, c < W ->
       nth c (data (sum0 t)) szero
       = fold_left sadd (map (fun b => entry W t b c) (seq 0 B)) szero.
Proof.
  intros [Hs Hw]. unfold wf in Hw. rewrite Hs in Hw. cbn [numel fold_right] in Hw.
  unfold sum0. rewrite Hs. cbn [numel fold_right data size]. rewrite Nat.mul_1_r.
  split.
  - split; [reflexivity|]. unfold wf. cbn [size data numel fold_right].
    rewrite (fold_map2_length W); [lia| |apply repeat_length].
    apply chunks_Forall. lia.
  - intros c Hc. apply nth_sum0_rows; [lia | exact Hc].
Qed.

(** [sum(0)] of a batch of matrices: the sum of the matrices. *)
Lemma sum0_batched B P W (t : tensor) :
  has_shape [B; P; W] t ->
  has_shape [P; W] (sum0 t)
  /\ forall p c, p < P -> c < W ->
       entry W (sum0 t) p c
       = fold_left sadd (map (fun b => entry W t (b * P + p) c) (seq 0 B)) szero.
Proof.
  intros [Hs Hw]. unfold wf in Hw. rewrite Hs in Hw. cbn [numel fold_right] in Hw.
  unfold sum0. rewrite Hs. cbn [numel fold_right data size]. rewrite Nat.mul_1_r.
  split.
  - split; [reflexivity|]. unfold wf. cbn [size data numel fold_right].
    rewrite (fold_map2_length (P * W)); [lia| |apply repeat_length].
    apply chunks_Forall. lia.
  - intros p c Hp Hc. unfold entry at 1. cbn [data].
    rewrite nth_sum0_rows; [|lia|apply index_bound; assumption].
    f_equal. apply map_ext. intros b. unfold entry. f_equal. lia.
Qed.

(** [sum(1)] of a batch of matrices: the column sums of every matrix. *)
Lemma sum1_batched B S W (t : tensor) :
  has_shape [B; S; W] t ->
  exists y, sum1 t = Ok y /\ has_shape [B; W] y
    /\ forall b c, b < B -> c < W ->
         entry W y b c
         = fold_left sadd (map (fun s => entry W t (b * S + s) c) (seq 0 S)) szero.
Proof.
  intros [Hs Hw]. unfold wf in Hw. rewrite Hs in Hw. cbn [numel fold_right] in Hw.
  unfold sum1. rewrite Hs. cbn [numel fold_right]. rewrite Nat.mul_1_r.
  eexists. split; [reflexivity|].
  assert (Hu : Forall (fun c => length c = W)
                 (map (fun c => fold_left (map2 sadd) (chunks S W c) (repeat szero W))
                      (chunks B (S * W) (data t)))).
  { apply Forall_map.
    eapply Forall_impl; [|apply (chunks_Forall B (S * W) (data t)); lia].
    intros c Hc. cbv beta in Hc.
    apply fold_map2_length; [|apply repeat_length].
    apply chunks_Forall. exact Hc. }
  split.
  - split; [reflexivity|]. unfold wf. cbn [size data numel fold_right].
    rewrite (length_concat_uniform W) by exact Hu.
    rewrite length_map, chunks_length. lia.
  - intros b c Hb Hc. unfold entry at 1. cbn [data].
    rewrite (nth_concat_uniform W);
      [|exact Hu|rewrite length_map, chunks_length; exact Hb|exact Hc].
    rewrite (nth_map_in _ _ _ []) by (rewrite chunks_length; exact Hb).
    rewrite nth_chunks by exact Hb.
    rewrite nth_sum0_rows; [| |exact Hc].
    2: { rewrite length_firstn, length_skipn.
         assert (Datatypes.S b * (S * W) <= B * (S * W))
           by (apply Nat.mul_le_mono_r; lia). lia. }
    f_equal. apply map_ext_in. intros s Hs'. apply in_seq in Hs'.
    rewrite nth_slice by (apply index_bound; lia).
    unfold entry. f_equal. lia.
Qed.

(** [squeeze(0)] of a vector: a vector of length 1 becomes a scalar. *)
Lemma squeeze0_vector W (t : tensor) :
  size t = [W] ->
  size (squeeze0 t) = (if W =? 1 then [] else [W]) /\ data (squeeze0 t) = data t.
Proof.
  intros Hs. unfold squeeze0. rewrite Hs.
  destruct W as [|[|W]]; cbn [Nat.eqb size data]; split; (reflexivity || exact Hs).
Qed.

Lemma batch_row m n (t : tensor) b p :
  p < m -> row n (batch m n t b) p = row n t (b * m + p).
Proof.
  intros Hp. unfold row, batch. cbn [data].
  assert (Hle : p * n + n <= m * n)
    by (assert (Datatypes.S p * n <= m * n) by (apply Nat.mul_le_mono_r; lia); lia).
  rewrite skipn_firstn_comm, skipn_skipn.
  rewrite firstn_firstn.
  replace (Nat.min n (m * n - p * n)) with n by lia.
  f_equal. f_equal. lia.
Qed.

End Reductions.

Section BatchedProducts.
Context {R : Type} {SR : Scalar R}.
Local Abbreviation tensor := (@tensor R).

Lemma nth_uniform_concat (K n b : nat) (ls : list (list R)) :
  Forall (fun c => length c = n) ls -> length ls = K -> b < K ->
  firstn n (skipn (b * n) (concat ls)) = nth b ls [].
Proof.
  intros Hu Hl Hb. rewrite <- (nth_chunks K n b) by exact Hb.
  rewrite <- Hl, (chunks_concat n ls Hu). reflexivity.
Qed.

(** [permute(0, 2, 1)]: every matrix of the batch is transposed. *)
Lemma permute021_batches B M N (g : tensor) :
  has_shape [B; M; N] g ->
  exists gt, permute021 g = Ok gt /\ has_shape [B; N; M] gt
    /\ forall b, b < B -> permute10 (batch M N g b) = Ok (batch N M gt b).
Proof.
  intros [Hs Hw]. unfold permute021. rewrite Hs.
  eexists. split; [reflexivity|].
  assert (Hu : Forall (fun c => length c = N * M)
                 (map (fun c => concat (columns N (chunks M N c)))
                      (chunks B (M * N) (data g)))).
  { apply Forall_map, Forall_forall. intros c _.
    pose proof (columns_uniform N (chunks M N c)) as Hc.
    rewrite chunks_length in Hc.
    rewrite (length_concat_uniform M) by exact Hc.
    rewrite columns_length. reflexivity. }
  split.
  - split; [reflexivity|]. unfold wf. cbn [size data numel fold_right].
    rewrite (length_concat_uniform (N * M)) by exact Hu.
    rewrite length_map, chunks_length. lia.
  - intros b Hb. unfold permute10, rows, batch. cbn [size data nth]. do 2 f_equal.
    rewrite (nth_uniform_concat B (N * M) b _ Hu)
      by (rewrite ?length_map, ?chunks_length; (reflexivity || exact Hb)).
    rewrite (nth_map_in _ _ _ []) by (rewrite chunks_length; exact Hb).
    rewrite nth_chunks by exact Hb. reflexivity.
Qed.

(** Two batches of matrices: the products of the matrices of equal index. *)
Lemma matmul_nd_pairs B P Q W (a b : tensor) :
  has_shape [B; P; Q] a -> has_shape [B; Q; W] b ->
  exists y, matmul_nd a b = Ok y /\ has_shape [B; P; W] y
    /\ forall k p c, k < B -> p < P -> c < W ->
         entry W y (k * P + p) c
         = dot (row Q (batch P Q a k) p) (column W Q (batch Q W b k) c).
Proof.
  intros [Sa Wa] [Sb Wb]. unfold wf in Wa, Wb. rewrite Sa in Wa. rewrite Sb in Wb.
  cbn [numel fold_right] in Wa, Wb.
  unfold matmul_nd, dim. rewrite Sa, Sb.
  cbn [length Nat.eqb rev app Nat.max pad Nat.sub repeat].
  rewrite bshape_refl, Nat.eqb_refl. cbn [app numel fold_right].
  rewrite (expand_data_id [B; P * Q]) by (cbn; lia).
  rewrite (expand_data_id [B; Q * W]) by (cbn; lia).
  rewrite Nat.mul_1_r.
  eexists. split; [reflexivity|].
  set (F := fun xy : list R * list R =>
              matprod Q W (chunks P Q (fst xy)) (mkT [Q; W] (snd xy))).
  assert (Hu : Forall (fun c => length c = P * W)
                 (map F (combine (chunks B (P * Q) (data a)) (chunks B (Q * W) (data b))))).
  { apply Forall_map, Forall_forall. intros xy _. unfold F.
    apply (matprod_length P Q W (mkT [] (fst xy))). }
  assert (Hlen : length (map F (combine (chunks B (P * Q) (data a))
                                        (chunks B (Q * W) (data b)))) = B)
    by (rewrite length_map, length_combine, !chunks_length; apply Nat.min_id).
  split.
  - split; [reflexivity|]. unfold wf. cbn [size data numel fold_right].
    rewrite (length_concat_uniform (P * W)) by exact Hu. rewrite Hlen. lia.
  - intros k p c Hk Hp Hc. unfold entry at 1. cbn [data].
    replace ((k * P + p) * W + c) with (k * (P * W) + (p * W + c)) by lia.
    rewrite (nth_concat_uniform (P * W));
      [|exact Hu|rewrite Hlen; exact Hk|apply index_bound; assumption].
    rewrite (nth_map_in _ _ _ ([], [])) by (rewrite length_map in Hlen; lia).
    rewrite combine_nth by (rewrite !chunks_length; reflexivity).
    rewrite !nth_chunks by exact Hk. unfold F. cbn [fst snd].
    apply (matprod_entry P Q W p c (batch P Q a k) (batch Q W b k)); assumption.
Qed.

End BatchedProducts.

(** ** [LinearFunction]: the backward pass *)

Section LinearBackward.
Context {R : Type} {SR : Scalar R}.
Local Abbreviation tensor := (@tensor R).

Import LinearFunction.

(** The gradient of the bias from a column reduction [s] of the incoming
    gradient. *)
Lemma squeezed_sum K Out (s : tensor) :
  has_shape [K; Out] s ->
  size (squeeze0 (sum0 s)) = (if Out =? 1 then [] else [Out])
  /\ forall o, o < Out ->
       nth o (data (squeeze0 (sum0 s))) szero
       = fold_left sadd (map (fun b => entry Out s b o) (seq 0 K)) szero.
Proof.
  intros Hs. destruct (sum0_matrix K Out s Hs) as [[Ss _] E].
  destruct (squeeze0_vector Out (sum0 s) Ss) as [Sq Dq].
  split; [exact Sq|]. intros o Ho. rewrite Dq. apply E, Ho.
Qed.

(** [backward] after a forward call on a batch of [B] sequences of length
    [S]. *)
Lemma linear_backward_sequence ctx B S In Out (x w : tensor) bias (g : tensor) :
  saved_tensors ctx = Some (x, w, bias) ->
  has_shape [B; S; In] x -> has_shape [Out; In] w -> has_shape [B; S; Out] g ->
  exists gi gw gb,
    backward ctx g
    = Ok (mkGrads (if need0 (needs_input_grad ctx) then Some gi else None)
                  (if need1 (needs_input_grad ctx) then Some gw else None)
                  (if is_tensor bias && need2 (needs_input_grad ctx)
                   then Some gb else None))
    /\ has_shape [S; In] gi
    /\ (forall s i, s < S -> i < In ->
          entry In gi s i
          = fold_left sadd
              (map (fun b => dot (row Out g (b * S + s)) (column In Out w i)) (seq 0 B))
              szero)
    /\ has_shape [Out; In] gw
    /\ (forall o i, o < Out -> i < In ->
          entry In gw o i
          = fold_left sadd
              (map (fun b => dot (column Out S (batch S Out g b) o)
                                 (column In S (batch S In x b) i)) (seq 0 B))
              szero)
    /\ size gb = (if Out =? 1 then [] else [Out])
    /\ (forall o, o < Out ->
          nth o (data gb) szero
          = fold_left sadd
              (map (fun b => fold_left sadd
                               (map (fun s => entry Out g (b * S + s) o) (seq 0 S)) szero)
                   (seq 0 B))
              szero).
Proof.
  intros Hsaved Hx Hw Hg.
  destruct (matmul_nd_batched_entries B S Out In g w Hg Hw) as (p1 & E1 & Hp1 & Ep1).
  destruct (permute021_batches B S Out g Hg) as (gt & Egt & Hgt & Ebatch).
  destruct (matmul_nd_pairs B Out S In gt x Hgt Hx) as (p2 & E2 & Hp2 & Ep2).
  destruct (sum1_batched B S Out g Hg) as (s1 & Es1 & Hs1 & Ees1).
  destruct (sum0_batched B S In p1 Hp1) as [Hgi Egi].
  destruct (sum0_batched B Out In p2 Hp2) as [Hgw Egw].
  destruct (squeezed_sum B Out s1 Hs1) as [Sgb Egb].
  exists (sum0 p1), (sum0 p2), (squeeze0 (sum0 s1)).
  split.
  { unfold backward. rewrite Hsaved. unfold dim. rewrite (proj1 Hx). cbn [length Nat.eqb].
    rewrite E1, Egt, Es1. cbn [bind]. rewrite E2. cbn [bind].
    destruct (need0 (needs_input_grad ctx)), (need1 (needs_input_grad ctx)),
      (is_tensor bias && need2 (needs_input_grad ctx)); reflexivity. }
  split; [exact Hgi|]. split.
  { intros s i Hs Hi. rewrite (Egi s i Hs Hi). f_equal.
    apply map_ext_in. intros b Hb. apply in_seq in Hb.
    apply Ep1; [apply index_bound; lia | exact Hi]. }
  split; [exact Hgw|]. split.
  { intros o i Ho Hi. rewrite (Egw o i Ho Hi). f_equal.
    apply map_ext_in. intros b Hb. apply in_seq in Hb.
    rewrite Ep2 by (lia || assumption). f_equal.
    assert (Hbt : size (batch S Out g b) = [S; Out]) by reflexivity.
    destruct (permute10_entries S Out (batch S Out g b) Hbt) as (y & Ey & _ & Erow & _).
    rewrite (Ebatch b) in Ey by lia. injection Ey as <-.
    apply Erow, Ho. }
  split; [exact Sgb|].
  intros o Ho. rewrite (Egb o Ho). f_equal.
  apply map_ext_in. intros b Hb. apply in_seq in Hb.
  apply Ees1; [lia | exact Ho].
Qed.

(** X14. On a context saved from a well-formed input of shape [B, In]
    and a well-formed weight of shape [Out, In], with a well-formed
    gradient [g] of shape [B, Out], [LinearFunction.backward] returns, in
    the slots its flags open: as the gradient of the input the [B x In]
    product of [g] and the weight; as the gradient of the weight the
    [Out x In] product of the transpose of [g] and the input; and as the
    gradient of the bias the sums of the columns of [g], a vector of length
    [Out], or a scalar when [Out] is 1. *)
Theorem linear_backward_matrix ctx B In Out (x w : tensor) bias (g : tensor) :
  saved_tensors ctx = Some (x, w, bias) ->
  has_shape [B; In] x -> has_shape [Out; In] w -> has_shape [B; Out] g ->
  exists gi gw gb,
    backward ctx g
    = Ok (mkGrads (if need0 (needs_input_grad ctx) then Some gi else None)
                  (if need1 (needs_input_grad ctx) then Some gw else None)
                  (if is_tensor bias && need2 (needs_input_grad ctx)
                   then Some gb else None))
    /\ has_shape [B; In] gi
    /\ (forall b i, b < B -> i < In ->
          entry In gi b i = dot (row Out g b) (column In Out w i))
    /\ has_shape [Out; In] gw
    /\ (forall o i, o < Out -> i < In ->
          entry In gw o i = dot (column Out B g o) (column In B x i))
    /\ size gb = (if Out =? 1 then [] else [Out])
    /\ (forall o, o < Out ->
          nth o (data gb) szero
          = fold_left sadd (map (fun b => entry Out g b o) (seq 0 B)) szero).
Proof.
  intros Hsaved Hx Hw Hg.
  destruct (mm_entries B Out In g w (proj1 Hg) (proj1 Hw)) as (gi & E1 & Hgi & Egi).
  destruct (permute10_entries B Out g (proj1 Hg)) as (gt & Egt & Hgt & Erow & _).
  destruct (mm_entries Out B In gt x (proj1 Hgt) (proj1 Hx)) as (gw & E2 & Hgw & Egw).
  destruct (squeezed_sum B Out g Hg) as [Sgb Egb].
  exists gi, gw, (squeeze0 (sum0 g)).
  split.
  { unfold backward. rewrite Hsaved. unfold dim. rewrite (proj1 Hx). cbn [length Nat.eqb].
    rewrite E1, (t_matrix B Out g (proj1 Hg)), Egt. cbn [bind]. rewrite E2. cbn [bind].
    destruct (need0 (needs_input_grad ctx)), (need1 (needs_input_grad ctx)),
      (is_tensor bias && need2 (needs_input_grad ctx)); reflexivity. }
  split; [exact Hgi|]. split; [exact Egi|]. split; [exact Hgw|]. split.
  { intros o i Ho Hi. rewrite (Egw o i Ho Hi), (Erow o Ho). reflexivity. }
  split; [exact Sgb | exact Egb].
Qed.


(** X15. On a context saved from a rank-3 input with a bias, with the
    flag of the bias set, [LinearFunction.backward] returns as the
    gradient of the bias the incoming gradient summed over the batch axis
    and the sequence axis: a vector of length [Out] (a scalar when [Out]
    is 1) whose element [o] is the sum of the elements [b, s, o]. *)
Theorem linear_backward_sequence_bias ctx B S In Out (x w b g : tensor) :
  saved_tensors ctx = Some (x, w, Some b) ->
  need2 (needs_input_grad ctx) = true ->
  has_shape [B; S; In] x -> has_shape [Out; In] w -> has_shape [B; S; Out] g ->
  exists grads gb,
    backward ctx g = Ok grads
    /\ grad_bias grads = Some gb
    /\ size gb = (if Out =? 1 then [] else [Out])
    /\ forall o, o < Out ->
         nth o (data gb) szero
         = fold_left sadd
             (map (fun b => fold_left sadd
                              (map (fun s => entry Out g (b * S + s) o) (seq 0 S)) szero)
                  (seq 0 B))
             szero.
Proof.
  intros Hsaved Hneed Hx Hw Hg.
  destruct (linear_backward_sequence ctx B S In Out x w (Some b) g Hsaved Hx Hw Hg)
    as (gi & gw & gb & E & _ & _ & _ & _ & Sgb & Egb).
  rewrite Hneed in E. cbn [is_tensor andb] in E.
  eexists. exists gb. split; [exact E|]. split; [reflexivity|].
  split; assumption.
Qed.

(** X16. On a context saved from a rank-3 input of shape [B, S, In], with
    the flag of the input set, the gradient of the input that
    [LinearFunction.backward] returns has not the shape of the input: it is
    the [S x In] matrix of the products of the incoming gradient and the
    weight summed over the batch axis. *)
Theorem linear_backward_sequence_input ctx B S In Out (x w : tensor) bias (g : tensor) :
  saved_tensors ctx = Some (x, w, bias) ->
  need0 (needs_input_grad ctx) = true ->
  has_shape [B; S; In] x -> has_shape [Out; In] w -> has_shape [B; S; Out] g ->
  exists grads gi,
    backward ctx g = Ok grads
    /\ grad_input grads = Some gi
    /\ has_shape [S; In] gi
    /\ size gi <> size x
    /\ forall s i, s < S -> i < In ->
         entry In gi s i
         = fold_left sadd
             (map (fun b => dot (row Out g (b * S + s)) (column In Out w i)) (seq 0 B))
             szero.
Proof.
  intros Hsaved Hneed Hx Hw Hg.
  destruct (linear_backward_sequence ctx B S In Out x w bias g Hsaved Hx Hw Hg)
    as (gi & gw & gb & E & Hgi & Egi & _).
  rewrite Hneed in E.
  eexists. exists gi. split; [exact E|]. split; [reflexivity|].
  split; [exact Hgi|]. split; [|exact Egi].
  rewrite (proj1 Hgi), (proj1 Hx). discriminate.
Qed.

(** X17. On a context saved from a rank-3 input, with the flag of the
    weight set, the gradient of the weight that [LinearFunction.backward]
    returns is the [Out x In] matrix whose element [o, i] sums, over the
    batches, the dot product of column [o] of the gradient and column [i]
    of the input of that batch. *)
Theorem linear_backward_sequence_weight ctx B S In Out (x w : tensor) bias (g : tensor) :
  saved_tensors ctx = Some (x, w, bias) ->
  need1 (needs_input_grad ctx) = true ->
  has_shape [B; S; In] x -> has_shape [Out; In] w -> has_shape [B; S; Out] g ->
  exists grads gw,
    backward ctx g = Ok grads
    /\ grad_weight grads = Some gw
    /\ has_shape [Out; In] gw
    /\ forall o i, o < Out -> i < In ->
         entry In gw o i
         = fold_left sadd
             (map (fun b => dot (column Out S (batch S Out g b) o)
                                (column In S (batch S In x b) i)) (seq 0 B))
             szero.
Proof.
  intros Hsaved Hneed Hx Hw Hg.
  destruct (linear_backward_sequence ctx B S In Out x w bias g Hsaved Hx Hw Hg)
    as (gi & gw & gb & E & _ & _ & Hgw & Egw & _).
  rewrite Hneed in E.
  eexists. exists gw. split; [exact E|]. split; [reflexivity|].
  split; assumption.
Qed.

(** X18. Whenever [LinearFunction.backward] returns, the gradients of the
    input and of the weight are tensors exactly when their flags are set,
    and the gradient of the bias is a tensor exactly when the forward call
    had a bias and its flag is set; the other slots are [None]. *)
Theorem linear_backward_gated ctx (x w : tensor) bias (g : tensor) grads :
  saved_tensors ctx = Some (x, w, bias) ->
  backward ctx g = Ok grads ->
  is_tensor (grad_input grads)
    = need0 (needs_input_grad ctx)
  /\ is_tensor (grad_weight grads)
    = need1 (needs_input_grad ctx)
  /\ is_tensor (grad_bias grads)
    = is_tensor bias && need2 (needs_input_grad ctx).
Proof.
  intros Hsaved. unfold backward. rewrite Hsaved.
  destruct (need0 (needs_input_grad ctx)),
    (need1 (needs_input_grad ctx)),
    (is_tensor bias && need2 (needs_input_grad ctx));
    destruct (dim x =? 3);
    repeat match goal with
    | |- context [bind ?m _] =>
        lazymatch m with
        | bind _ _ => fail
        | if _ then _ else _ => fail
        | Ok _ => cbn [bind]
        | _ => destruct m; cbn [bind]
        end
    end;
    intros E; inversion E; subst; cbn; auto.
Qed.

End LinearBackward.

(** ** Products with a matrix of four by four blocks *)

Section BlockProducts.
Context {R : Type} {SR : Scalar R}.
Local Abbreviation tensor := (@tensor R).

Lemma component_uniform pre F q (x : tensor) :
  has_shape (pre ++ [4 * F]) x -> q < 4 ->
  Forall (fun c => length c = F)
    (map (slice (q * F) F) (chunks (numel pre) (4 * F) (data x))).
Proof.
  intros [Hs Hw] Hq. apply Forall_map.
  eapply Forall_impl; [|apply (rows_length pre (4 * F) x Hs Hw)].
  intros c Hc. apply slice_length. rewrite Hc. apply offset_bound, Hq.
Qed.

(** Row [n] of a component is a quarter of row [n] of the tensor. *)
Lemma component_row pre F q (x : tensor) n :
  has_shape (pre ++ [4 * F]) x -> q < 4 -> n < numel pre ->
  row F (component pre F q x) n = slice (q * F) F (row (4 * F) x n).
Proof.
  intros Hx Hq Hn. unfold row, component. cbn [data].
  rewrite (nth_uniform_concat (numel pre) F n)
    by (try apply component_uniform; rewrite ?length_map, ?chunks_length; auto).
  rewrite (nth_map_in _ _ _ []) by (rewrite chunks_length; exact Hn).
  rewrite nth_chunks by exact Hn. reflexivity.
Qed.

Lemma row_quarters pre F (x : tensor) n :
  has_shape (pre ++ [4 * F]) x -> n < numel pre ->
  row (4 * F) x n
  = row F (component pre F 0 x) n ++ row F (component pre F 1 x) n
    ++ row F (component pre F 2 x) n ++ row F (component pre F 3 x) n.
Proof.
  intros Hx Hn. rewrite !(component_row pre F _ x n Hx) by (lia || exact Hn).
  unfold slice. cbn [Nat.mul]. rewrite !Nat.add_0_r.
  symmetry. replace (F + F) with (2 * F) by lia.
  replace (F + 2 * F) with (3 * F) by lia. replace (F + 0) with F by lia.
  apply quarters.
  apply (row_length (4 * F) (numel pre)); [|exact Hn].
  apply (rows_of_wf x pre (4 * F)); apply Hx.
Qed.

Lemma component_row_length pre F q (x : tensor) n :
  has_shape (pre ++ [4 * F]) x -> q < 4 -> n < numel pre ->
  length (row F (component pre F q x) n) = F.
Proof.
  intros Hx Hq Hn. apply (row_length F (numel pre)); [|exact Hn].
  pose proof (component_wf pre F q x (proj1 Hx) (proj2 Hx) Hq) as Hw.
  unfold wf in Hw. rewrite Hw. cbn [component size].
  rewrite numel_app. cbn. lia.
Qed.

Lemma map_seq_offset {A : Type} (f : nat -> A) (a n : nat) :
  map f (seq a n) = map (fun k => f (a + k)) (seq 0 n).
Proof.
  revert a; induction n as [|n IH]; intros a; [reflexivity|].
  cbn [seq map]. rewrite Nat.add_0_r. f_equal.
  rewrite IH, <- seq_shift, map_map. apply map_ext. intros k. f_equal. lia.
Qed.

(** A column of a matrix of four block rows is the four columns of its
    blocks, one above the other. *)
Lemma column_blocks F G W (E : tensor) (blk : nat -> tensor) c g :
  (forall p f, p < 4 -> f < F -> entry W E (p * F + f) c = entry G (blk p) f g) ->
  column W (4 * F) E c
  = column G F (blk 0) g ++ column G F (blk 1) g
    ++ column G F (blk 2) g ++ column G F (blk 3) g.
Proof.
  intros HE. unfold column.
  replace (4 * F) with (F + (F + (F + F))) by lia.
  rewrite !seq_app, !map_app. cbn [Nat.add].
  rewrite (map_seq_offset _ F), (map_seq_offset _ (F + F)), (map_seq_offset _ (F + F + F)).
  f_equal; [|f_equal; [|f_equal]]; apply map_ext_in; intros f Hf; apply in_seq in Hf.
  - apply (HE 0); lia.
  - rewrite <- (HE 1) by lia. f_equal. lia.
  - rewrite <- (HE 2) by lia. f_equal. lia.
  - rewrite <- (HE 3) by lia. f_equal. lia.
Qed.

Lemma column_neg F G (w : tensor) g :
  has_shape [F; G] w -> g < G ->
  column G F (neg w) g = map sneg (column G F w g).
Proof.
  intros [Hs Hw] Hg. unfold wf in Hw. rewrite Hs in Hw. cbn in Hw.
  unfold column. rewrite map_map. apply map_ext_in. intros f Hf. apply in_seq in Hf.
  unfold entry, neg. cbn [data].
  apply nth_map_default.
  assert (f * G + g < F * G) by (apply index_bound; lia). lia.
Qed.

(** The matrix [cat_kernels] builds, by blocks. *)
Lemma encoding_blocks F G (r i j k : tensor) :
  has_shape [F; G] r -> has_shape [F; G] i ->
  has_shape [F; G] j -> has_shape [F; G] k ->
  exists E,
    cat_kernels r i j k = Ok E
    /\ code_encoding r i j k = Ok E
    /\ has_shape [4 * F; 4 * G] E
    /\ forall p q f g, p < 4 -> q < 4 -> f < F -> g < G ->
         entry (4 * G) E (p * F + f) (q * G + g)
         = entry G (block (code_blocks r i j k) p q r) f g.
Proof.
  intros Hr Hi Hj Hk.
  destruct (cat_kernels_code_encoding F G r i j k Hr Hi Hj Hk) as (E & HE & HC & SE).
  exists E. repeat (split; [assumption|]).
  pose proof (neg_shaped [F; G] i Hi) as Hni.
  pose proof (neg_shaped [F; G] j Hj) as Hnj.
  pose proof (neg_shaped [F; G] k Hk) as Hnk.
  destruct (stack_rows_entries F G r i j k (neg i) r k (neg j)
              (neg j) (neg k) r i (neg k) j (neg i) r) as (E' & HE' & _ & Hent).
  - repeat (apply Forall_cons; [assumption|]). apply Forall_nil.
  - unfold code_encoding, stack_table, code_blocks in HC. cbn [nth] in HC.
    assert (E' = E) by congruence. subst E'.
    exact Hent.
Qed.

End BlockProducts.

Section RingProducts.
Context {R : Type} {SR : Scalar R} {RR : ScalarRing R SR}.
Local Abbreviation tensor := (@tensor R).

Add Ring scalar_products : (@scalar_ring R SR RR).

Lemma fold_sadd_acc (l : list R) (a : R) :
  fold_left sadd l a = sadd a (fold_left sadd l szero).
Proof.
  revert a; induction l as [|x l IH]; intros a; cbn [fold_left]; [ring|].
  rewrite (IH (sadd a x)), (IH (sadd szero x)). ring.
Qed.

Lemma dot_app (x1 x2 y1 y2 : list R) :
  length x1 = length y1 ->
  dot (x1 ++ x2) (y1 ++ y2) = sadd (dot x1 y1) (dot x2 y2).
Proof.
  intros Hl. unfold dot. rewrite map2_app by exact Hl.
  rewrite fold_left_app. apply fold_sadd_acc.
Qed.

Lemma dot_neg_r (x y : list R) : dot x (map sneg y) = sneg (dot x y).
Proof.
  unfold dot, map2. revert y. induction x as [|a x IH]; intros [|b y]; cbn; try ring.
  rewrite fold_sadd_acc, (fold_sadd_acc _ (sadd szero (smul a b))).
  fold (map2 smul x (map sneg y)). fold (map2 smul x y).
  change (fold_left sadd (map2 smul x (map sneg y)) szero) with (dot x (map sneg y)).
  change (fold_left sadd (map2 smul x y) szero) with (dot x y).
  unfold dot, map2 in IH. unfold dot, map2. rewrite IH. ring.
Qed.

Lemma dot_neg_l (x y : list R) : dot (map sneg x) y = sneg (dot x y).
Proof.
  unfold dot, map2. revert y. induction x as [|a x IH]; intros [|b y]; cbn; try ring.
  rewrite fold_sadd_acc, (fold_sadd_acc _ (sadd szero (smul a b))).
  rewrite IH. ring.
Qed.

(** The dot product of a row and a column cut in four blocks. *)
Lemma dot_blocks (x0 x1 x2 x3 y0 y1 y2 y3 : list R) :
  length x0 = length y0 -> length x1 = length y1 -> length x2 = length y2 ->
  dot (x0 ++ x1 ++ x2 ++ x3) (y0 ++ y1 ++ y2 ++ y3)
  = sadd (sadd (sadd (dot x0 y0) (dot x1 y1)) (dot x2 y2)) (dot x3 y3).
Proof.
  intros H0 H1 H2. rewrite !dot_app by assumption. ring.
Qed.

End RingProducts.

Section ForwardProduct.
Context {R : Type} {SR : Scalar R} {RR : ScalarRing R SR}.
Local Abbreviation tensor := (@tensor R).

Add Ring scalar_forward : (@scalar_ring R SR RR).

(** Element [n, q G + g] of [x . E], for [E] made of four block rows
    [blk 0], ..., [blk 3] in its block column [q]. *)
Lemma encoded_entry pre F G (x E : tensor) (blk : nat -> tensor) n c g :
  has_shape (pre ++ [4 * F]) x -> n < numel pre ->
  (forall p f, p < 4 -> f < F -> entry (4 * G) E (p * F + f) c = entry G (blk p) f g) ->
  dot (row (4 * F) x n) (column (4 * G) (4 * F) E c)
  = sadd (sadd (sadd (mdot F G (component pre F 0 x) (blk 0) n g)
                     (mdot F G (component pre F 1 x) (blk 1) n g))
               (mdot F G (component pre F 2 x) (blk 2) n g))
         (mdot F G (component pre F 3 x) (blk 3) n g).
Proof.
  intros Hx Hn HE.
  rewrite (row_quarters pre F x n Hx Hn), (column_blocks F G (4 * G) E blk c g HE).
  apply dot_blocks;
    rewrite (component_row_length pre F _ x n Hx) by (lia || exact Hn);
    symmetry; apply column_length.
Qed.

Lemma mdot_neg F G (x w : tensor) n g :
  has_shape [F; G] w -> g < G ->
  mdot F G x (neg w) n g = sneg (mdot F G x w n g).
Proof.
  intros Hw Hg. unfold mdot. rewrite (column_neg F G w g Hw Hg). apply dot_neg_r.
Qed.

(** X9. Over a commutative ring of scalars, [forward] is the Hamilton
    product of the quaternion weight matrix and the input: with [x_r],
    [x_i], [x_j], [x_k] the components of a well-formed input of rank 2 or
    3 and [a . w] the matrix product, the four components of the output are
    [x_r.r - x_i.i - x_j.j - x_k.k], [x_i.r + x_r.i + x_k.j - x_j.k],
    [x_j.r - x_k.i + x_r.j + x_i.k] and [x_k.r + x_j.i - x_i.j + x_r.k],
    each with its element of the bias. *)
Theorem forward_quaternion_product ctx pre F G (x r i j k : tensor) bias :
  (length pre = 1 \/ length pre = 2) ->
  has_shape (pre ++ [4 * F]) x ->
  has_shape [F; G] r -> has_shape [F; G] i ->
  has_shape [F; G] j -> has_shape [F; G] k ->
  bias_shaped (4 * G) bias ->
  exists y,
    snd (forward ctx x r i j k bias) = Ok y
    /\ has_shape (pre ++ [4 * G]) y
    /\ forall n g, n < numel pre -> g < G ->
         let m q w := mdot F G (component pre F q x) w n g in
         let b c v := with_bias (length pre) bias c v in
         entry (4 * G) y n g
           = b g (ssub (ssub (ssub (m 0 r) (m 1 i)) (m 2 j)) (m 3 k))
         /\ entry (4 * G) y n (G + g)
           = b (G + g) (ssub (sadd (sadd (m 1 r) (m 0 i)) (m 3 j)) (m 2 k))
         /\ entry (4 * G) y n (2 * G + g)
           = b (2 * G + g) (sadd (sadd (ssub (m 2 r) (m 3 i)) (m 0 j)) (m 1 k))
         /\ entry (4 * G) y n (3 * G + g)
           = b (3 * G + g) (sadd (ssub (sadd (m 3 r) (m 2 i)) (m 1 j)) (m 0 k)).
Proof.
  intros Hp Hx Hr Hi Hj Hk Hb.
  destruct (encoding_blocks F G r i j k Hr Hi Hj Hk) as (E & HE & _ & SE & HB).
  assert (Hq : quaternion_shape pre F x) by (split; [apply Hx | exact Hp]).
  rewrite forward_unfold.
  rewrite (check_input_ok x (quaternion_shape_valid pre F x Hq)), HE. cbn [bind].
  assert (Hy : exists y, apply_encoding x E bias = Ok y
             /\ has_shape (pre ++ [4 * G]) y
             /\ forall n c, n < numel pre -> c < 4 * G ->
                  entry (4 * G) y n c
                  = with_bias (length pre) bias c
                      (dot (row (4 * F) x n) (column (4 * G) (4 * F) E c))).
  { destruct pre as [|B [|S [|? ?]]]; cbn [length] in Hp; try lia.
    - destruct (apply_encoding_matrix B (4 * F) (4 * G) x E bias Hx SE Hb)
        as (y & Ey & Sy & Hy).
      exists y. repeat (split; [assumption|]).
      intros n c Hn Hc. apply Hy; [cbn in Hn; lia | exact Hc].
    - destruct (apply_encoding_batched B S (4 * F) (4 * G) x E bias Hx SE Hb)
        as (y & Ey & Sy & Hy).
      exists y. repeat (split; [assumption|]).
      intros n c Hn Hc. apply Hy; [cbn in Hn; lia | exact Hc]. }
  destruct Hy as (y & Ey & Sy & Hy).
  exists y. split; [exact Ey|]. split; [exact Sy|].
  intros n g Hn Hg. cbv zeta.
  assert (Hcol : forall q, q < 4 ->
            dot (row (4 * F) x n) (column (4 * G) (4 * F) E (q * G + g))
            = sadd (sadd (sadd
                (mdot F G (component pre F 0 x) (block (code_blocks r i j k) 0 q r) n g)
                (mdot F G (component pre F 1 x) (block (code_blocks r i j k) 1 q r) n g))
                (mdot F G (component pre F 2 x) (block (code_blocks r i j k) 2 q r) n g))
                (mdot F G (component pre F 3 x) (block (code_blocks r i j k) 3 q r) n g)).
  { intros q Hq4.
    apply (encoded_entry pre F G x E (fun p => block (code_blocks r i j k) p q r));
      [exact Hx | exact Hn |].
    intros p f Hp4 Hf. apply HB; assumption. }
  assert (HG : g < 4 * G /\ G + g < 4 * G /\ 2 * G + g < 4 * G /\ 3 * G + g < 4 * G) by lia.
  destruct HG as (G0 & G1 & G2 & G3).
  rewrite (Hy n g Hn G0), (Hy n (G + g) Hn G1), (Hy n (2 * G + g) Hn G2),
    (Hy n (3 * G + g) Hn G3).
  pose proof (Hcol 0) as C0. pose proof (Hcol 1) as C1.
  pose proof (Hcol 2) as C2. pose proof (Hcol 3) as C3.
  cbn [block code_blocks nth] in C0, C1, C2, C3.
  replace (0 * G + g) with g in C0 by lia.
  replace (1 * G + g) with (G + g) in C1 by lia.
  rewrite C0, C1, C2, C3 by lia.
  rewrite !(mdot_neg F G) by assumption.
  repeat split; f_equal; ring.
Qed.

End ForwardProduct.

(** ** The gradients of [backward], entry by entry *)

Section BackwardEntries.
Context {R : Type} {SR : Scalar R}.
Local Abbreviation tensor := (@tensor R).

(** The first [len] rows of a matrix. *)
Lemma narrow_rows_entries M N len (t : tensor) :
  has_shape [M; N] t -> len <= M ->
  exists y, narrow t 0 0 len = Ok y /\ has_shape [len; N] y
    /\ forall r c, r < len -> c < N -> entry N y r c = entry N t r c.
Proof.
  intros [Hs Hw] Hle. unfold wf in Hw. rewrite Hs in Hw. cbn [numel fold_right] in Hw.
  pose proof (narrow_axis t [] [N] M 0 len Hs) as E. cbn [length app Nat.add] in E.
  rewrite E by exact Hle. clear E.
  cbn [numel fold_right]. rewrite !Nat.mul_1_r, Nat.mul_0_l.
  rewrite (chunks_one (M * N)) by lia. cbn [map concat skipn]. rewrite app_nil_r.
  assert (Hmul : len * N <= M * N) by (apply Nat.mul_le_mono_r; exact Hle).
  eexists. split; [reflexivity|]. split.
  - split; [reflexivity|]. unfold wf. cbn [size data numel fold_right].
    rewrite length_firstn. lia.
  - intros r c Hr Hc. unfold entry. cbn [data].
    pose proof (index_bound r len N c Hr Hc) as Hi.
    rewrite nth_firstn. destruct (Nat.ltb_spec (r * N + c) (len * N)); [reflexivity|lia].
Qed.

(** [len] columns of a matrix, from column [start]. *)
Lemma narrow_cols_entries M N start len (t : tensor) :
  has_shape [M; N] t -> start + len <= N ->
  exists y, narrow t 1 start len = Ok y /\ has_shape [M; len] y
    /\ forall r c, r < M -> c < len -> entry len y r c = entry N t r (start + c).
Proof.
  intros [Hs Hw] Hle. unfold wf in Hw. rewrite Hs in Hw. cbn [numel fold_right] in Hw.
  pose proof (narrow_last t [M] N start len Hs Hle) as E. cbn [length app] in E.
  rewrite E. clear E. cbn [numel fold_right]. rewrite Nat.mul_1_r.
  eexists. split; [reflexivity|]. split.
  - split; [reflexivity|]. unfold wf. cbn [size data numel fold_right].
    rewrite (length_concat_uniform len), length_map, chunks_length; [lia|].
    apply Forall_map.
    eapply Forall_impl; [|apply (chunks_Forall M N (data t)); lia].
    intros c Hc. cbv beta in Hc. rewrite length_firstn, length_skipn. lia.
  - intros r c Hr Hc. unfold entry. cbn [data].
    apply nth_sliced_rows; (assumption || lia).
Qed.

(** The four weight gradients, entry by entry: products of a column of the
    gradient matrix and a column of the input matrix. *)
Lemma weight_gradients_entries B F G (grad_mat input_mat r : tensor) :
  has_shape [4 * B; 4 * G] grad_mat -> has_shape [4 * B; 4 * F] input_mat ->
  size r = [F; G] ->
  exists g0 g1 g2 g3,
    weight_gradients grad_mat input_mat r = Ok (g0, g1, g2, g3)
    /\ Forall (has_shape [F; G]) [g0; g1; g2; g3]
    /\ forall q f g, q < 4 -> f < F -> g < G ->
         entry G (nth q [g0; g1; g2; g3] g0) f g
         = dot (column (4 * G) (4 * B) grad_mat (q * G + g))
               (column (4 * F) (4 * B) input_mat f).
Proof.
  intros Hg Hi Hr. unfold weight_gradients. rewrite Hr. cbn [nth].
  destruct (permute10_entries _ _ grad_mat (proj1 Hg)) as (gt & -> & Hgt & Erow & _).
  cbn [bind].
  destruct (mm_entries _ _ _ gt input_mat (proj1 Hgt) (proj1 Hi)) as (p & -> & Hp & Ep).
  cbn [bind].
  destruct (permute10_entries _ _ p (proj1 Hp)) as (gw & -> & Hgw & _ & Egw).
  cbn [bind].
  destruct (narrow_rows_entries _ _ F gw Hgw) as (top & -> & Htop & Etop); [lia|].
  cbn [bind].
  destruct (narrow_cols_entries _ _ 0 G top Htop) as (g0 & -> & H0 & E0); [lia|].
  destruct (narrow_cols_entries _ _ G G top Htop) as (g1 & -> & H1 & E1); [lia|].
  destruct (narrow_cols_entries _ _ (G * 2) G top Htop) as (g2 & -> & H2 & E2); [lia|].
  destruct (narrow_cols_entries _ _ (G * 3) G top Htop) as (g3 & -> & H3 & E3); [lia|].
  cbn [bind].
  exists g0, g1, g2, g3. split; [reflexivity|]. split.
  { repeat (apply Forall_cons; [assumption|]). apply Forall_nil. }
  assert (Hall : forall c f, c < 4 * G -> f < F ->
            entry (4 * G) top f c
            = dot (column (4 * G) (4 * B) grad_mat c)
                  (column (4 * F) (4 * B) input_mat f)).
  { intros c f Hc Hf. rewrite Etop by assumption.
    rewrite Egw by lia. rewrite Ep by lia. rewrite Erow by exact Hc. reflexivity. }
  intros q f g Hq Hf Hg'.
  destruct q as [|[|[|[|q]]]]; try lia; cbn [nth].
  - rewrite E0 by assumption. apply Hall; lia.
  - rewrite E1 by assumption. rewrite <- Hall by lia. f_equal. lia.
  - rewrite E2 by assumption. rewrite <- Hall by lia. f_equal. lia.
  - rewrite E3 by assumption. rewrite <- Hall by lia. f_equal. lia.
Qed.

(** The two matrices [backward] builds are encodings of the components of
    the saved input and of the incoming gradient. *)
Lemma input_encoding_components B F (x : tensor) :
  has_shape [B; 4 * F] x ->
  input_encoding x
  = cat_kernels (component [B] F 0 x) (component [B] F 1 x)
                (component [B] F 2 x) (component [B] F 3 x).
Proof.
  intros Hx. unfold input_encoding, cat_kernels.
  destruct (getters_matrix B F x Hx) as (-> & -> & -> & ->). reflexivity.
Qed.

Lemma grad_encoding_components B G (g : tensor) :
  has_shape [B; 4 * G] g ->
  grad_encoding g
  = code_encoding (component [B] G 0 g) (component [B] G 1 g)
                  (component [B] G 2 g) (component [B] G 3 g).
Proof.
  intros Hg. unfold grad_encoding, code_encoding, stack_table, code_blocks, stack_rows.
  destruct (getters_matrix B G g Hg) as (-> & -> & -> & ->). reflexivity.
Qed.

End BackwardEntries.

Section BackwardProducts.
Context {R : Type} {SR : Scalar R} {RR : ScalarRing R SR}.
Local Abbreviation tensor := (@tensor R).

Add Ring scalar_backward : (@scalar_ring R SR RR).

Ltac shaped :=
  repeat first
    [ assumption
    | apply has_shape_component; [|lia] ].

(** A row of a matrix of four block columns is the four rows of its
    blocks, side by side. *)
Lemma row_blocks K F G (E : tensor) (blk : nat -> tensor) n f :
  length (data E) = K * (4 * G) -> n < K -> f < F ->
  (forall q, q < 4 -> has_shape [F; G] (blk q)) ->
  (forall q g, q < 4 -> g < G -> entry (4 * G) E n (q * G + g) = entry G (blk q) f g) ->
  row (4 * G) E n
  = row G (blk 0) f ++ row G (blk 1) f ++ row G (blk 2) f ++ row G (blk 3) f.
Proof.
  intros HL Hn Hf Hblk HE.
  assert (Hrow : forall q, q < 4 ->
            row G (blk q) f = map (fun g => entry G (blk q) f g) (seq 0 G)).
  { intros q Hq. apply (row_as_map G F); [|exact Hf].
    destruct (Hblk q Hq) as [Hs Hw]. unfold wf in Hw. rewrite Hw, Hs. cbn. lia. }
  rewrite (row_as_map (4 * G) K E n HL Hn), !Hrow by lia.
  replace (seq 0 (4 * G)) with (seq 0 (G + (G + (G + G)))) by (f_equal; lia).
  rewrite !seq_app, !map_app. cbn [Nat.add].
  rewrite (map_seq_offset _ G), (map_seq_offset _ (G + G)), (map_seq_offset _ (G + G + G)).
  f_equal; [|f_equal; [|f_equal]]; apply map_ext_in; intros g Hg; apply in_seq in Hg.
  - apply (HE 0); lia.
  - rewrite <- (HE 1) by lia. f_equal. lia.
  - rewrite <- (HE 2) by lia. f_equal. lia.
  - rewrite <- (HE 3) by lia. f_equal. lia.
Qed.

Lemma row_neg G (w : tensor) f : row G (neg w) f = map sneg (row G w f).
Proof. unfold row, neg. cbn [data]. rewrite skipn_map, firstn_map. reflexivity. Qed.

Lemma rdot_neg G (a w : tensor) n f : rdot G a (neg w) n f = sneg (rdot G a w n f).
Proof. unfold rdot. rewrite row_neg. apply dot_neg_r. Qed.

Lemma cdot_neg_l K G F (a b : tensor) g f :
  has_shape [K; G] a -> g < G ->
  cdot K G F (neg a) b g f = sneg (cdot K G F a b g f).
Proof.
  intros Ha Hg. unfold cdot. rewrite (column_neg K G a g Ha Hg). apply dot_neg_l.
Qed.

Lemma cdot_neg_r K G F (a b : tensor) g f :
  has_shape [K; F] b -> f < F ->
  cdot K G F a (neg b) g f = sneg (cdot K G F a b g f).
Proof.
  intros Hb Hf. unfold cdot. rewrite (column_neg K F b f Hb Hf). apply dot_neg_r.
Qed.

(** X11. Over a commutative ring of scalars, on a context saved from a
    well-formed rank-2 input with the flag of [r_weight] set, the four
    weight gradients of [backward] are [F x G] matrices: with [g_a] and
    [x_b] the components of the incoming gradient and of the saved input,
    and [<g_a, x_b>] the dot product over the batch of column [c] of [g_a]
    and column [f] of [x_b], element [f, c] is
    [<g_r,x_r> + <g_i,x_i> + <g_j,x_j> + <g_k,x_k>] for [r_weight],
    [<g_i,x_r> - <g_r,x_i> + <g_k,x_j> - <g_j,x_k>] for [i_weight],
    [<g_j,x_r> - <g_k,x_i> - <g_r,x_j> + <g_i,x_k>] for [j_weight] and
    [<g_k,x_r> + <g_j,x_i> - <g_i,x_j> - <g_r,x_k>] for [k_weight]. *)
Theorem backward_weight_products ctx B F G (x r i j k : tensor) bias (g : tensor) :
  saved_tensors ctx = Some (x, r, i, j, k, bias) ->
  need1 (needs_input_grad ctx) = true ->
  has_shape [B; 4 * F] x ->
  has_shape [F; G] r -> has_shape [F; G] i ->
  has_shape [F; G] j -> has_shape [F; G] k ->
  has_shape [B; 4 * G] g ->
  exists grads wr wi wj wk,
    backward ctx g = Ok grads
    /\ grad_weight_r grads = Some wr /\ grad_weight_i grads = Some wi
    /\ grad_weight_j grads = Some wj /\ grad_weight_k grads = Some wk
    /\ Forall (has_shape [F; G]) [wr; wi; wj; wk]
    /\ forall f c, f < F -> c < G ->
         let p a b := cdot B G F (component [B] G a g) (component [B] F b x) c f in
         entry G wr f c = sadd (sadd (sadd (p 0 0) (p 1 1)) (p 2 2)) (p 3 3)
         /\ entry G wi f c = ssub (sadd (ssub (p 1 0) (p 0 1)) (p 3 2)) (p 2 3)
         /\ entry G wj f c = sadd (ssub (ssub (p 2 0) (p 3 1)) (p 0 2)) (p 1 3)
         /\ entry G wk f c = ssub (ssub (sadd (p 3 0) (p 2 1)) (p 1 2)) (p 0 3).
Proof.
  intros Hsaved Hneed Hx Hr Hi Hj Hk Hg.
  change (has_shape ([B] ++ [4 * F]) x) in Hx.
  change (has_shape ([B] ++ [4 * G]) g) in Hg.
  assert (X0 : has_shape [B; F] (component [B] F 0 x)) by (apply (has_shape_component [B]); [assumption|lia]).
  assert (X1 : has_shape [B; F] (component [B] F 1 x)) by (apply (has_shape_component [B]); [assumption|lia]).
  assert (X2 : has_shape [B; F] (component [B] F 2 x)) by (apply (has_shape_component [B]); [assumption|lia]).
  assert (X3 : has_shape [B; F] (component [B] F 3 x)) by (apply (has_shape_component [B]); [assumption|lia]).
  assert (G0 : has_shape [B; G] (component [B] G 0 g)) by (apply (has_shape_component [B]); [assumption|lia]).
  assert (G1 : has_shape [B; G] (component [B] G 1 g)) by (apply (has_shape_component [B]); [assumption|lia]).
  assert (G2 : has_shape [B; G] (component [B] G 2 g)) by (apply (has_shape_component [B]); [assumption|lia]).
  assert (G3 : has_shape [B; G] (component [B] G 3 g)) by (apply (has_shape_component [B]); [assumption|lia]).
  destruct (cat_kernels_ok F G r i j k (proj1 Hr) (proj1 Hi) (proj1 Hj) (proj1 Hk))
    as (E & HE & SE).
  destruct (permute10_ok E _ _ SE) as (ET & HET & SET).
  destruct (mm_ok g ET _ _ _ (proj1 Hg) SET) as (gi & Hgi & Sgi).
  destruct (encoding_blocks B F _ _ _ _ X0 X1 X2 X3) as (im & Him & _ & Sim & Bim).
  destruct (encoding_blocks B G _ _ _ _ G0 G1 G2 G3) as (gm & _ & Hgm & Sgm & Bgm).
  destruct (weight_gradients_entries B F G gm im r Sgm Sim (proj1 Hr))
    as (wr & wi & wj & wk & Hw & Sw & Ew).
  exists (mkGrads (if need0 (needs_input_grad ctx) then Some gi else None)
                  (Some wr) (Some wi) (Some wj) (Some wk)
                  (if need5 (needs_input_grad ctx)
                   then Some (squeeze0 (sum0 g)) else None)).
  exists wr, wi, wj, wk. split.
  { rewrite backward_unfold, Hsaved, HE. cbn [bind]. rewrite HET. cbn [bind].
    rewrite (input_encoding_components B F x Hx), Him. cbn [bind].
    rewrite (grad_encoding_components B G g Hg), Hgm. cbn [bind].
    rewrite Hneed, Hgi, Hw. cbn [bind].
    destruct (need0 (needs_input_grad ctx)), (need5 (needs_input_grad ctx)); reflexivity. }
  repeat (split; [reflexivity|]). split; [exact Sw|].
  intros f c Hf Hc. cbv zeta.
  assert (Hcol : forall q, q < 4 ->
            dot (column (4 * G) (4 * B) gm (q * G + c)) (column (4 * F) (4 * B) im f)
            = sadd (sadd (sadd
                (cdot B G F (block (code_blocks (component [B] G 0 g) (component [B] G 1 g)
                                      (component [B] G 2 g) (component [B] G 3 g)) 0 q
                               (component [B] G 0 g))
                            (component [B] F 0 x) c f)
                (cdot B G F (block (code_blocks (component [B] G 0 g) (component [B] G 1 g)
                                      (component [B] G 2 g) (component [B] G 3 g)) 1 q
                               (component [B] G 0 g))
                            (neg (component [B] F 1 x)) c f))
                (cdot B G F (block (code_blocks (component [B] G 0 g) (component [B] G 1 g)
                                      (component [B] G 2 g) (component [B] G 3 g)) 2 q
                               (component [B] G 0 g))
                            (neg (component [B] F 2 x)) c f))
                (cdot B G F (block (code_blocks (component [B] G 0 g) (component [B] G 1 g)
                                      (component [B] G 2 g) (component [B] G 3 g)) 3 q
                               (component [B] G 0 g))
                            (neg (component [B] F 3 x)) c f)).
  { intros q Hq.
    rewrite (column_blocks B G (4 * G) gm
               (fun p => block (code_blocks (component [B] G 0 g) (component [B] G 1 g)
                                  (component [B] G 2 g) (component [B] G 3 g)) p q
                           (component [B] G 0 g)) (q * G + c) c)
      by (intros p b Hp Hb; apply Bgm; assumption).
    rewrite (column_blocks B F (4 * F) im
               (fun p => block (code_blocks (component [B] F 0 x) (component [B] F 1 x)
                                  (component [B] F 2 x) (component [B] F 3 x)) p 0
                           (component [B] F 0 x)) f f)
      by (intros p b Hp Hb; rewrite <- (Bim p 0 b f) by (assumption || lia);
          f_equal; lia).
    cbn [block code_blocks nth].
    apply dot_blocks; rewrite !column_length; reflexivity. }
  pose proof (Ew 0 f c) as E0. pose proof (Ew 1 f c) as E1.
  pose proof (Ew 2 f c) as E2. pose proof (Ew 3 f c) as E3.
  cbn [nth] in E0, E1, E2, E3.
  rewrite E0, E1, E2, E3 by lia.
  rewrite !Hcol by lia. cbn [block code_blocks nth].
  rewrite ?(cdot_neg_r B G F) by assumption.
  rewrite ?(cdot_neg_l B G F) by assumption.
  repeat split; ring.
Qed.

End BackwardProducts.

Section BackwardInput.
Context {R : Type} {SR : Scalar R} {RR : ScalarRing R SR}.
Local Abbreviation tensor := (@tensor R).

Add Ring scalar_backward_input : (@scalar_ring R SR RR).

Lemma code_blocks_shaped F G (r i j k : tensor) p q :
  has_shape [F; G] r -> has_shape [F; G] i ->
  has_shape [F; G] j -> has_shape [F; G] k ->
  p < 4 -> q < 4 ->
  has_shape [F; G] (block (code_blocks r i j k) p q r).
Proof.
  intros Hr Hi Hj Hk Hp Hq.
  pose proof (neg_shaped [F; G] i Hi). pose proof (neg_shaped [F; G] j Hj).
  pose proof (neg_shaped [F; G] k Hk).
  destruct p as [|[|[|[|p]]]]; try lia;
    destruct q as [|[|[|[|q]]]]; try lia; cbn [block code_blocks nth]; assumption.
Qed.

(** X10. Over a commutative ring of scalars, on a context saved from a
    well-formed rank-2 input with the flag of the input set, the gradient
    of the input that [backward] returns is the product of the incoming
    gradient and the conjugate of the quaternion weight: with [g_a] the
    components of the gradient and [a . w^T] the product with the
    transpose, its four components are
    [g_r.r^T + g_i.i^T + g_j.j^T + g_k.k^T],
    [g_i.r^T - g_r.i^T + g_j.k^T - g_k.j^T],
    [g_j.r^T - g_r.j^T - g_i.k^T + g_k.i^T] and
    [g_k.r^T - g_r.k^T + g_i.j^T - g_j.i^T]. *)
Theorem backward_input_product ctx B F G (x r i j k : tensor) bias (g : tensor) :
  saved_tensors ctx = Some (x, r, i, j, k, bias) ->
  need0 (needs_input_grad ctx) = true ->
  has_shape [B; 4 * F] x ->
  has_shape [F; G] r -> has_shape [F; G] i ->
  has_shape [F; G] j -> has_shape [F; G] k ->
  has_shape [B; 4 * G] g ->
  exists grads gi,
    backward ctx g = Ok grads
    /\ grad_input grads = Some gi
    /\ has_shape [B; 4 * F] gi
    /\ forall n f, n < B -> f < F ->
         let t a w := rdot G (component [B] G a g) w n f in
         entry (4 * F) gi n f
           = sadd (sadd (sadd (t 0 r) (t 1 i)) (t 2 j)) (t 3 k)
         /\ entry (4 * F) gi n (F + f)
           = ssub (sadd (ssub (t 1 r) (t 0 i)) (t 2 k)) (t 3 j)
         /\ entry (4 * F) gi n (2 * F + f)
           = sadd (ssub (ssub (t 2 r) (t 0 j)) (t 1 k)) (t 3 i)
         /\ entry (4 * F) gi n (3 * F + f)
           = ssub (sadd (ssub (t 3 r) (t 0 k)) (t 1 j)) (t 2 i).
Proof.
  intros Hsaved Hneed Hx Hr Hi Hj Hk Hg.
  destruct (backward_matrix ctx B F G x r i j k bias g Hsaved (proj1 Hx)
              (proj1 Hr) (proj1 Hi) (proj1 Hj) (proj1 Hk) (proj1 Hg))
    as (E & ET & gi & gwr & gwi & gwj & gwk & HE & HET & Hgi & _ & _ & _ & _ & _ & Hb).
  rewrite Hneed in Hb.
  eexists. exists gi. split; [exact Hb|]. split; [reflexivity|].
  destruct (encoding_blocks F G r i j k Hr Hi Hj Hk) as (E' & HE' & _ & SE & HB).
  assert (E' = E) by congruence. subst E'.
  destruct (permute10_entries _ _ E (proj1 SE)) as (ET' & HET' & SET & _ & EET).
  assert (ET' = ET) by congruence. subst ET'.
  destruct (mm_entries B (4 * G) (4 * F) g ET (proj1 Hg) (proj1 SET))
    as (gi' & Hgi' & Sgi & Egi).
  assert (gi' = gi) by congruence. subst gi'.
  split; [exact Sgi|].
  intros n f Hn Hf. cbv zeta.
  change (has_shape ([B] ++ [4 * G]) g) in Hg.
  assert (Hn' : n < numel [B]) by (cbn; lia).
  assert (LE : length (data E) = 4 * F * (4 * G))
    by (destruct SE as [Hs Hw]; unfold wf in Hw; rewrite Hw, Hs; cbn; lia).
  assert (Hrow : forall p, p < 4 ->
            entry (4 * F) gi n (p * F + f)
            = sadd (sadd (sadd
                (rdot G (component [B] G 0 g) (block (code_blocks r i j k) p 0 r) n f)
                (rdot G (component [B] G 1 g) (block (code_blocks r i j k) p 1 r) n f))
                (rdot G (component [B] G 2 g) (block (code_blocks r i j k) p 2 r) n f))
                (rdot G (component [B] G 3 g) (block (code_blocks r i j k) p 3 r) n f)).
  { intros p Hp.
    assert (Hc : p * F + f < 4 * F)
      by (assert (p * F + F <= 4 * F) by (apply offset_bound, Hp); lia).
    rewrite (Egi n (p * F + f) Hn Hc).
    rewrite (column_of_rows (4 * F) (4 * G) E ET (p * F + f) SE Hc)
      by (intros c q Hc' Hq'; apply EET; assumption).
    rewrite (row_quarters [B] G g n Hg Hn').
    rewrite (row_blocks (4 * F) F G E (fun q => block (code_blocks r i j k) p q r)
               (p * F + f) f LE Hc Hf).
    - apply dot_blocks;
        rewrite (component_row_length [B] G _ g n Hg) by (lia || exact Hn');
        symmetry; apply (row_length G F); try exact Hf;
        match goal with
        | |- length (data (block _ _ ?q _)) = _ =>
            destruct (code_blocks_shaped F G r i j k p q Hr Hi Hj Hk Hp) as [Hs Hw];
              [lia | unfold wf in Hw; rewrite Hw, Hs; cbn; lia]
        end.
    - intros q Hq. apply code_blocks_shaped; assumption.
    - intros q c Hq Hc'. apply HB; assumption. }
  pose proof (Hrow 0) as R0. pose proof (Hrow 1) as R1.
  pose proof (Hrow 2) as R2. pose proof (Hrow 3) as R3.
  cbn [block code_blocks nth] in R0, R1, R2, R3.
  replace (0 * F + f) with f in R0 by lia.
  replace (1 * F + f) with (F + f) in R1 by lia.
  rewrite R0, R1, R2, R3 by lia.
  rewrite !rdot_neg.
  repeat split; ring.
Qed.

End BackwardInput.

(** ** The initialisers *)

Section NormalisationLoops.
Context {R : Type} {SR : Scalar R} {GR : Generator R}.
Local Abbreviation tensor := (@tensor R).

Lemma uniform_length low high n st : length (fst (uniform low high n st)) = n.
Proof.
  revert st; induction n as [|n IH]; intros st; cbn [uniform]; [reflexivity|].
  destruct (random_sample st) as [u st1].
  specialize (IH st1). destruct (uniform low high n st1) as [rest st2].
  cbn [fst length] in *. lia.
Qed.

Lemma div_at_length i norm (v : list R) : length (div_at i norm v) = length v.
Proof.
  revert i; induction v as [|x v IH]; intros [|i]; cbn; auto.
Qed.

Lemma nth_div_at i norm (v : list R) idx :
  idx < length v ->
  nth idx (div_at i norm v) szero
  = if idx =? i then sdiv (nth idx v szero) norm else nth idx v szero.
Proof.
  revert i idx; induction v as [|x v IH]; intros i idx Hl; cbn in Hl; [lia|].
  destruct i as [|i], idx as [|idx]; cbn [div_at nth Nat.eqb]; try reflexivity.
  apply IH. lia.
Qed.

Lemma nth_map_seq (f : nat -> R) n idx :
  idx < n -> nth idx (map f (seq 0 n)) szero = f idx.
Proof.
  intros Hl.
  rewrite (nth_indep _ szero (f 0)) by (rewrite length_map, length_seq; exact Hl).
  rewrite (map_nth f), seq_nth by exact Hl. reflexivity.
Qed.

Lemma normalised_length norm m (u : list R) : length (normalised norm m u) = length u.
Proof. unfold normalised. rewrite length_map, length_seq. reflexivity. Qed.

Lemma nth_normalised norm m (u : list R) idx :
  idx < length u ->
  nth idx (normalised norm m u) szero
  = if idx <? m then sdiv (nth idx u szero) (norm idx) else nth idx u szero.
Proof.
  intros Hl. unfold normalised. rewrite nth_map_seq by exact Hl. reflexivity.
Qed.

(** One round of a loop: position [m] is divided, the others are kept. *)
Lemma normalised_step norm m (u : list R) :
  m < length u ->
  div_at m (norm m) (normalised norm m u) = normalised norm (S m) u.
Proof.
  intros Hm. apply list_ext.
  - rewrite div_at_length, !normalised_length. reflexivity.
  - rewrite div_at_length, normalised_length. intros idx Hidx.
    rewrite nth_div_at by (rewrite normalised_length; exact Hidx).
    rewrite !nth_normalised by exact Hidx.
    destruct (Nat.eqb_spec idx m) as [->|Hne].
    + rewrite Nat.ltb_irrefl. rewrite (proj2 (Nat.ltb_lt m (S m))) by lia. reflexivity.
    + destruct (Nat.ltb_spec idx m), (Nat.ltb_spec idx (S m)); try lia; reflexivity.
Qed.

Lemma normalised_zero norm (u : list R) : normalised norm 0 u = u.
Proof.
  apply list_ext.
  - apply normalised_length.
  - rewrite normalised_length. intros idx Hidx.
    rewrite nth_normalised by exact Hidx. reflexivity.
Qed.

(** The loop of [unitary_init]: round [i] reads only position [i], which no
    earlier round has written. *)
Lemma unitary_loop n (v_r v_i v_j v_k : list R) m :
  length v_r = n -> length v_i = n -> length v_j = n -> length v_k = n -> m <= n ->
  let norm idx := unit_norm (nth idx v_r szero) (nth idx v_i szero)
                            (nth idx v_j szero) (nth idx v_k szero) in
  fold_left
    (fun '(a, b, c, d) i =>
       let norm :=
         sadd (ssqrt (sadd (sadd (sadd (square (nth i a szero)) (square (nth i b szero)))
                                 (square (nth i c szero)))
                           (square (nth i d szero))))
              literal_1e_4 in
       (div_at i norm a, div_at i norm b, div_at i norm c, div_at i norm d))
    (seq 0 m) (v_r, v_i, v_j, v_k)
  = (normalised norm m v_r, normalised norm m v_i,
     normalised norm m v_j, normalised norm m v_k).
Proof.
  intros Lr Li Lj Lk Hm norm. induction m as [|m IH].
  - cbn [seq fold_left]. rewrite !normalised_zero. reflexivity.
  - rewrite seq_S, fold_left_app, IH by lia. cbn [fold_left Nat.add].
    rewrite !nth_normalised by lia. rewrite Nat.ltb_irrefl.
    change (sadd (ssqrt (sadd (sadd (sadd (square (nth m v_r szero))
                                          (square (nth m v_i szero)))
                                    (square (nth m v_j szero)))
                              (square (nth m v_k szero))))
                 literal_1e_4) with (norm m).
    rewrite !normalised_step by lia. reflexivity.
Qed.

(** The loop of [quaternion_init], on three arrays. *)
Lemma quaternion_loop n (v_i v_j v_k : list R) m :
  length v_i = n -> length v_j = n -> length v_k = n -> m <= n ->
  let norm idx := imaginary_norm (nth idx v_i szero) (nth idx v_j szero)
                                 (nth idx v_k szero) in
  fold_left
    (fun '(b, c, d) i =>
       let norm :=
         sadd (ssqrt (sadd (sadd (square (nth i b szero)) (square (nth i c szero)))
                           (square (nth i d szero))))
              literal_1e_4 in
       (div_at i norm b, div_at i norm c, div_at i norm d))
    (seq 0 m) (v_i, v_j, v_k)
  = (normalised norm m v_i, normalised norm m v_j, normalised norm m v_k).
Proof.
  intros Li Lj Lk Hm norm. induction m as [|m IH].
  - cbn [seq fold_left]. rewrite !normalised_zero. reflexivity.
  - rewrite seq_S, fold_left_app, IH by lia. cbn [fold_left Nat.add].
    rewrite !nth_normalised by lia. rewrite Nat.ltb_irrefl.
    change (sadd (ssqrt (sadd (sadd (square (nth m v_i szero))
                                    (square (nth m v_j szero)))
                              (square (nth m v_k szero))))
                 literal_1e_4) with (norm m).
    rewrite !normalised_step by lia. reflexivity.
Qed.

End NormalisationLoops.

Section InitialiserTheorems.
Context {R : Type} {SR : Scalar R} {GR : Generator R}.
Variables (scos ssin : R -> R) (spi : R).
Local Abbreviation tensor := (@tensor R).

Lemma kernel_shaped (a b : nat) (v : list R) :
  length v = a * b -> has_shape [a; b] (mkT [a; b] v).
Proof.
  intros Hl. split; [reflexivity|]. unfold wf. cbn [size data numel fold_right]. lia.
Qed.

Lemma nth_scaled (v : list R) (s : R) idx :
  idx < length v ->
  nth idx (map (fun x => smul x s) v) szero = smul (nth idx v szero) s.
Proof. intros Hl. apply (nth_map_default (fun x => smul x s) v idx szero szero Hl). Qed.

Lemma scale_of_valid criterion in_features out_features :
  valid_criterion criterion ->
  (if String.eqb criterion "glorot"%string then
     Ok (sdiv sone (ssqrt (sof_Z (Z.of_nat (2 * (in_features + out_features))))))
   else if String.eqb criterion "he"%string then
     Ok (sdiv sone (ssqrt (sof_Z (Z.of_nat (2 * in_features)))))
   else Raise (ValueError criterion))
  = Ok (scale criterion in_features out_features).
Proof. intros [-> | ->]; reflexivity. Qed.

(** X19. With a valid criterion, [unitary_init] draws four arrays of
    [in_features * out_features] samples from the global [np.random], one
    after the other, and returns four well-formed blocks of shape
    [in_features, out_features]: element [idx] of each is its draw divided
    by the norm of the quadruple of draws at [idx] plus [0.0001], times
    the scale of the criterion.  The state returned is the one after the
    four arrays. *)
Theorem unitary_init_normalises in_features out_features rng criterion np_random :
  valid_criterion criterion ->
  let n := in_features * out_features in
  let '(u_r, st1) := uniform szero sone n np_random in
  let '(u_i, st2) := uniform szero sone n st1 in
  let '(u_j, st3) := uniform szero sone n st2 in
  let '(u_k, st4) := uniform szero sone n st3 in
  exists w_r w_i w_j w_k,
    unitary_init in_features out_features rng criterion np_random
    = (Ok (w_r, w_i, w_j, w_k), st4)
    /\ Forall (has_shape [in_features; out_features]) [w_r; w_i; w_j; w_k]
    /\ forall idx, idx < n ->
         let d := unit_norm (nth idx u_r szero) (nth idx u_i szero)
                            (nth idx u_j szero) (nth idx u_k szero) in
         let s := scale criterion in_features out_features in
         nth idx (data w_r) szero = smul (sdiv (nth idx u_r szero) d) s
         /\ nth idx (data w_i) szero = smul (sdiv (nth idx u_i szero) d) s
         /\ nth idx (data w_j) szero = smul (sdiv (nth idx u_j szero) d) s
         /\ nth idx (data w_k) szero = smul (sdiv (nth idx u_k szero) d) s.
Proof.
  intros Hv n. unfold unitary_init.
  rewrite (scale_of_valid criterion in_features out_features Hv).
  cbn [numel fold_right]. rewrite Nat.mul_1_r. fold n.
  pose proof (uniform_length szero sone n np_random) as Lr.
  destruct (uniform szero sone n np_random) as [u_r st1]. cbn [fst] in Lr.
  pose proof (uniform_length szero sone n st1) as Li.
  destruct (uniform szero sone n st1) as [u_i st2]. cbn [fst] in Li.
  pose proof (uniform_length szero sone n st2) as Lj.
  destruct (uniform szero sone n st2) as [u_j st3]. cbn [fst] in Lj.
  pose proof (uniform_length szero sone n st3) as Lk.
  destruct (uniform szero sone n st3) as [u_k st4]. cbn [fst] in Lk.
  pose proof (unitary_loop n u_r u_i u_j u_k n Lr Li Lj Lk (le_n n)) as Hloop.
  cbv zeta in Hloop. rewrite Hloop. clear Hloop.
  do 4 eexists. split; [reflexivity|]. split.
  { repeat (apply Forall_cons;
            [apply kernel_shaped; rewrite length_map, normalised_length; assumption|]).
    apply Forall_nil. }
  intros idx Hidx. cbv zeta. cbn [data].
  rewrite !nth_scaled by (rewrite normalised_length; lia).
  rewrite !nth_normalised by lia.
  rewrite (proj2 (Nat.ltb_lt idx n) Hidx). repeat split; reflexivity.
Qed.

(** X20. With a valid criterion, [quaternion_init] returns four
    well-formed blocks of shape [in_features, out_features].  The real
    block is [modulus * cos phase], both drawn from [RandomState(123)]: it
    is the same at every call.  The three imaginary blocks are
    [modulus * v * sin phase] for the three arrays [v] drawn from the
    global [np.random] and divided, position by position, by the norm of
    their triple plus [0.0001]. *)
Theorem quaternion_init_polar in_features out_features rng criterion np_random :
  valid_criterion criterion ->
  let n := in_features * out_features in
  let s := scale criterion in_features out_features in
  let '(u_i, st1) := uniform szero sone n np_random in
  let '(u_j, st2) := uniform szero sone n st1 in
  let '(u_k, st3) := uniform szero sone n st2 in
  let '(modulus, rng1) := uniform (sneg s) s n (seeded 123) in
  let '(phase, _) := uniform (sneg spi) spi n rng1 in
  exists w_r w_i w_j w_k,
    quaternion_init scos ssin spi in_features out_features rng criterion np_random
    = (Ok (w_r, w_i, w_j, w_k), st3)
    /\ Forall (has_shape [in_features; out_features]) [w_r; w_i; w_j; w_k]
    /\ forall idx, idx < n ->
         let d := imaginary_norm (nth idx u_i szero) (nth idx u_j szero)
                                 (nth idx u_k szero) in
         let m := nth idx modulus szero in
         let p := nth idx phase szero in
         nth idx (data w_r) szero = smul m (scos p)
         /\ nth idx (data w_i) szero = smul (smul m (sdiv (nth idx u_i szero) d)) (ssin p)
         /\ nth idx (data w_j) szero = smul (smul m (sdiv (nth idx u_j szero) d)) (ssin p)
         /\ nth idx (data w_k) szero = smul (smul m (sdiv (nth idx u_k szero) d)) (ssin p).
Proof.
  intros Hv n s. unfold quaternion_init.
  rewrite (scale_of_valid criterion in_features out_features Hv). fold s.
  cbn [numel fold_right]. rewrite Nat.mul_1_r. fold n.
  pose proof (uniform_length szero sone n np_random) as Li.
  destruct (uniform szero sone n np_random) as [u_i st1]. cbn [fst] in Li.
  pose proof (uniform_length szero sone n st1) as Lj.
  destruct (uniform szero sone n st1) as [u_j st2]. cbn [fst] in Lj.
  pose proof (uniform_length szero sone n st2) as Lk.
  destruct (uniform szero sone n st2) as [u_k st3]. cbn [fst] in Lk.
  pose proof (quaternion_loop n u_i u_j u_k n Li Lj Lk (le_n n)) as Hloop.
  cbv zeta in Hloop. rewrite Hloop. clear Hloop.
  pose proof (uniform_length (sneg s) s n (seeded 123)) as Lm.
  destruct (uniform (sneg s) s n (seeded 123)) as [modulus rng1]. cbn [fst] in Lm.
  pose proof (uniform_length (sneg spi) spi n rng1) as Lp.
  destruct (uniform (sneg spi) spi n rng1) as [phase rng2]. cbn [fst] in Lp.
  do 4 eexists. split; [reflexivity|]. split.
  { repeat (apply Forall_cons;
            [apply kernel_shaped;
             rewrite ?map2_length, ?length_map, ?normalised_length; lia|]).
    apply Forall_nil. }
  intros idx Hidx. cbv zeta. cbn [data].
  rewrite !nth_map2
    by (rewrite ?map2_length, ?length_map, ?normalised_length; lia).
  rewrite !(nth_map_default _ phase idx szero szero) by lia.
  rewrite !nth_normalised by lia.
  rewrite (proj2 (Nat.ltb_lt idx n) Hidx). repeat split; reflexivity.
Qed.

End InitialiserTheorems.

Lemma list_eqb_nat_eq (a b : list nat) : list_eqb Nat.eqb a b = true <-> a = b.
Proof.
  revert b; induction a as [|x a IH]; intros [|y b]; cbn; split; intros H;
    try discriminate; try reflexivity.
  - apply andb_true_iff in H. destruct H as [Hx Ha].
    apply Nat.eqb_eq in Hx. apply IH in Ha. congruence.
  - injection H as -> ->. rewrite Nat.eqb_refl. cbn. apply IH. reflexivity.
Qed.

(** ** [affect_init] and the dropout helpers *)

Section AffectInit.
Context {R W : Type} {SR : Scalar R} {GR : Generator R} {C : TypeAs R W}.
Variables (scos ssin : R -> R) (spi : R).

(** X22. When the four weights do not have one size, or are not matrices,
    [affect_init] raises without calling the initialiser and without
    drawing a sample: the ValueError that carries the four sizes when they
    differ, the exception that carries the rank when they agree. *)
Theorem affect_init_rejects (r i j k : @tensor W) init_func rng criterion np_random :
  size r <> size i \/ size r <> size j \/ size r <> size k \/ dim r <> 2 ->
  exists e,
    affect_init r i j k init_func rng criterion np_random = (Throw e, np_random)
    /\ (size r = size i -> size r = size j -> size r = size k ->
        e = MatrixError (dim r))
    /\ (size r <> size i \/ size r <> size j \/ size r <> size k ->
        e = SizeError (size r) (size i) (size j) (size k)).
Proof.
  intros H. unfold affect_init.
  destruct (list_eqb Nat.eqb (size r) (size i)) eqn:Ei;
    [destruct (list_eqb Nat.eqb (size r) (size j)) eqn:Ej;
       [destruct (list_eqb Nat.eqb (size r) (size k)) eqn:Ek|]|]; cbn [negb orb].
  - apply list_eqb_nat_eq in Ei, Ej, Ek.
    destruct (Nat.eqb_spec (dim r) 2) as [Hd|Hd]; cbn [negb].
    + exfalso. destruct H as [H|[H|[H|H]]]; congruence.
    + eexists. split; [reflexivity|]. split; [reflexivity|].
      intros [H'|[H'|H']]; congruence.
  - eexists. split; [reflexivity|]. split; [|reflexivity].
    intros _ _ Hk. apply list_eqb_nat_eq in Hk. congruence.
  - eexists. split; [reflexivity|]. split; [|reflexivity].
    intros _ Hj _. apply list_eqb_nat_eq in Hj. congruence.
  - eexists. split; [reflexivity|]. split; [|reflexivity].
    intros Hi _ _. apply list_eqb_nat_eq in Hi. congruence.
Qed.

Lemma affect_init_accepts F G (r i j k : @tensor W) init_func rng criterion np_random :
  size r = [F; G] -> size i = [F; G] -> size j = [F; G] -> size k = [F; G] ->
  affect_init r i j k init_func rng criterion np_random
  = match init_func F G rng criterion np_random with
    | (Raise e, st) => (Throw (Earlier e), st)
    | (Ok (b_r, b_i, b_j, b_k), st) =>
        (Return (type_as b_r r, type_as b_i i, type_as b_j j, type_as b_k k), st)
    end.
Proof.
  intros Hr Hi Hj Hk. unfold affect_init, dim. rewrite Hr, Hi, Hj, Hk.
  rewrite (proj2 (list_eqb_nat_eq [F; G] [F; G]) eq_refl). reflexivity.
Qed.

(** [type_as] keeps the shape, and a well-formed tensor well formed. *)
Lemma type_as_shaped s (b : @tensor R) (w : @tensor W) :
  has_shape s b -> has_shape s (type_as b w).
Proof.
  intros [Hs Hw]. split; [exact Hs|].
  unfold wf, type_as in *. cbn [data size]. rewrite length_map. exact Hw.
Qed.

(** X23. On four weights of one shape [F, G] and a valid criterion,
    [affect_init] with either initialiser of the module replaces the data
    of the weights by the four blocks the initialiser returns for [F] and
    [G], each converted element by element to the element type of its
    weight ([type_as]); the new data are well formed and of the shape of
    the weights, and the global [np.random] is left as the initialiser
    leaves it. *)
Theorem affect_init_keeps_shapes F G (r i j k : @tensor W) rng criterion np_random :
  size r = [F; G] -> size i = [F; G] -> size j = [F; G] -> size k = [F; G] ->
  valid_criterion criterion ->
  (exists b_r b_i b_j b_k,
     fst (unitary_init F G rng criterion np_random) = Ok (b_r, b_i, b_j, b_k)
     /\ affect_init r i j k unitary_init rng criterion np_random
        = (Return (type_as b_r r, type_as b_i i, type_as b_j j, type_as b_k k),
           snd (unitary_init F G rng criterion np_random))
     /\ Forall (fun w => has_shape [F; G] w)
          [type_as b_r r; type_as b_i i; type_as b_j j; type_as b_k k]
     /\ data (type_as b_r r) = map convert (data b_r)
     /\ data (type_as b_i i) = map convert (data b_i)
     /\ data (type_as b_j j) = map convert (data b_j)
     /\ data (type_as b_k k) = map convert (data b_k))
  /\ (exists b_r b_i b_j b_k,
        fst (quaternion_init scos ssin spi F G rng criterion np_random)
        = Ok (b_r, b_i, b_j, b_k)
        /\ affect_init r i j k (quaternion_init scos ssin spi) rng criterion np_random
           = (Return (type_as b_r r, type_as b_i i, type_as b_j j, type_as b_k k),
              snd (quaternion_init scos ssin spi F G rng criterion np_random))
        /\ Forall (fun w => has_shape [F; G] w)
             [type_as b_r r; type_as b_i i; type_as b_j j; type_as b_k k]
        /\ data (type_as b_r r) = map convert (data b_r)
        /\ data (type_as b_i i) = map convert (data b_i)
        /\ data (type_as b_j j) = map convert (data b_j)
        /\ data (type_as b_k k) = map convert (data b_k)).
Proof.
  intros Hr Hi Hj Hk Hv. split.
  - rewrite (affect_init_accepts F G r i j k _ rng criterion np_random Hr Hi Hj Hk).
    pose proof (unitary_init_normalises F G rng criterion np_random Hv) as H.
    cbv zeta in H.
    destruct (uniform szero sone (F * G) np_random) as [u_r st1].
    destruct (uniform szero sone (F * G) st1) as [u_i st2].
    destruct (uniform szero sone (F * G) st2) as [u_j st3].
    destruct (uniform szero sone (F * G) st3) as [u_k st4].
    destruct H as (b_r & b_i & b_j & b_k & -> & Hs & _).
    exists b_r, b_i, b_j, b_k. cbn [fst snd].
    split; [reflexivity|]. split; [reflexivity|].
    split; [|repeat split; reflexivity].
    inversion Hs as [|? ? S0 Hs1]; subst. inversion Hs1 as [|? ? S1 Hs2]; subst.
    inversion Hs2 as [|? ? S2 Hs3]; subst. inversion Hs3 as [|? ? S3 _]; subst.
    repeat (apply Forall_cons; [apply type_as_shaped; assumption|]). apply Forall_nil.
  - rewrite (affect_init_accepts F G r i j k _ rng criterion np_random Hr Hi Hj Hk).
    pose proof (quaternion_init_polar scos ssin spi F G rng criterion np_random Hv) as H.
    cbv zeta in H.
    destruct (uniform szero sone (F * G) np_random) as [u_i st1].
    destruct (uniform szero sone (F * G) st1) as [u_j st2].
    destruct (uniform szero sone (F * G) st2) as [u_k st3].
    destruct (uniform (sneg (scale criterion F G)) (scale criterion F G) (F * G)
                (seeded 123)) as [modulus rng1].
    destruct (uniform (sneg spi) spi (F * G) rng1) as [phase rng2].
    destruct H as (b_r & b_i & b_j & b_k & -> & Hs & _).
    exists b_r, b_i, b_j, b_k. cbn [fst snd].
    split; [reflexivity|]. split; [reflexivity|].
    split; [|repeat split; reflexivity].
    inversion Hs as [|? ? S0 Hs1]; subst. inversion Hs1 as [|? ? S1 Hs2]; subst.
    inversion Hs2 as [|? ? S2 Hs3]; subst. inversion Hs3 as [|? ? S3 _]; subst.
    repeat (apply Forall_cons; [apply type_as_shaped; assumption|]). apply Forall_nil.
Qed.

End AffectInit.

Section DropoutHelpers.
Context {R : Type} {SR : Scalar R} {GR : Generator R} {BR : @Binomial R GR}.
Local Abbreviation tensor := (@tensor R).

(** X24. With [do_dropout] set, [apply_quaternion_dropout] never returns:
    whatever the input, the probability, the dropout type and the
    operation, the call ends in an exception.  Where the dropout type is
    valid for the input and [create_dropout_mask] returns a mask, the
    exception is the NameError of the undefined [apply_complex_mask], and
    the generator has been advanced by the draw of the mask. *)
Theorem apply_quaternion_dropout_raises (input : tensor) dropout_p rng
    dropout_type operation :
  (exists e rng',
     apply_quaternion_dropout input dropout_p rng true dropout_type operation
     = (Throw e, rng'))
  /\ (forall mask rng',
        dropout_type = "regular"%string
        \/ dropout_type = "quaternion"%string /\ 2 <= length (size input) ->
        create_dropout_mask dropout_p (mask_shape dropout_type (size input)) rng operation
        = (Return mask, rng') ->
        apply_quaternion_dropout input dropout_p rng true dropout_type operation
        = (Throw (NameError "apply_complex_mask"%string), rng')).
Proof.
  split.
  - unfold apply_quaternion_dropout, create_dropout_mask.
    destruct (String.eqb dropout_type "quaternion"%string).
    + destruct (size input) as [|s0 [|s1 rest]]; try (do 2 eexists; reflexivity).
      destruct (String.eqb operation "linear"%string); [|do 2 eexists; reflexivity].
      destruct (binomial _ _ _) as [[mask|] rng']; do 2 eexists; reflexivity.
    + destruct (String.eqb dropout_type "regular"%string); cbn [negb];
        [|do 2 eexists; reflexivity].
      destruct (String.eqb operation "linear"%string); [|do 2 eexists; reflexivity].
      destruct (binomial _ _ _) as [[mask|] rng']; do 2 eexists; reflexivity.
  - intros mask rng' Ht Hm. unfold apply_quaternion_dropout.
    unfold mask_shape in Hm.
    destruct Ht as [-> | [-> Hd]]; cbn [String.eqb Ascii.eqb Bool.eqb negb] in *.
    + rewrite Hm. reflexivity.
    + destruct (size input) as [|s0 [|s1 rest]]; cbn [length] in Hd; try lia.
      rewrite Hm. reflexivity.
Qed.

(** X25. With [do_dropout] unset, whenever [apply_quaternion_dropout]
    returns, it returns its input unchanged, the operation is ['linear'],
    the dropout type is ['quaternion'] or ['regular'], and the generator
    has nevertheless been advanced by the draw of a mask (of the input's
    shape, its second axis divided by 4 for ['quaternion']). *)
Theorem apply_quaternion_dropout_off (input : tensor) dropout_p rng
    dropout_type operation y rng' :
  apply_quaternion_dropout input dropout_p rng false dropout_type operation
  = (Return y, rng') ->
  y = input
  /\ rng' = snd (binomial (ssub sone dropout_p)
                          (numel (mask_shape dropout_type (size input))) rng)
  /\ operation = "linear"%string
  /\ (dropout_type = "quaternion"%string \/ dropout_type = "regular"%string).
Proof.
  unfold apply_quaternion_dropout, create_dropout_mask, mask_shape.
  destruct (String.eqb_spec dropout_type "quaternion"%string) as [Hq|Hq].
  - destruct (size input) as [|s0 [|s1 rest]]; try discriminate.
    destruct (String.eqb_spec operation "linear"%string) as [Ho|Ho]; [|discriminate].
    destruct (binomial _ _ _) as [[mask|] st]; [|discriminate].
    intros E. injection E as <- <-. auto.
  - destruct (String.eqb_spec dropout_type "regular"%string) as [Hr|Hr]; cbn [negb];
      [|discriminate].
    destruct (String.eqb_spec operation "linear"%string) as [Ho|Ho]; [|discriminate].
    destruct (binomial _ _ _) as [[mask|] st]; [|discriminate].
    intros E. injection E as <- <-. auto.
Qed.

(** X26. For the dropout type ['quaternion'], [apply_quaternion_mask]
    stops at the undefined [get_real], whatever the input and the mask.
    It returns a tensor only for the dropout type ['regular'], and then it
    is the element-wise product of the input and the mask. *)
Theorem apply_quaternion_mask_regular_only (input mask : tensor) operation :
  apply_quaternion_mask input mask "quaternion"%string operation
  = Throw (NameError "get_real"%string)
  /\ forall dropout_type y,
       apply_quaternion_mask input mask dropout_type operation = Return y ->
       dropout_type = "regular"%string /\ mul input mask = Ok y.
Proof.
  split; [reflexivity|]. intros dropout_type y.
  unfold apply_quaternion_mask.
  destruct (String.eqb_spec dropout_type "quaternion"%string) as [Hq|Hq]; [discriminate|].
  destruct (String.eqb_spec dropout_type "regular"%string) as [Hr|Hr]; [|discriminate].
  destruct (mul input mask) as [p|e]; cbn [lift]; [|discriminate].
  intros E. injection E as <-. auto.
Qed.

End DropoutHelpers.

(** ** The further theorems at concrete inputs *)

(** X1 at three single quaternions. *)
Lemma hamilton_product_assoc_witness :
  exists ab bc y : @tensor Z,
    hamilton_product sample_q0 sample_q1 = Ok ab
    /\ hamilton_product sample_q1 sample_q2 = Ok bc
    /\ hamilton_product ab sample_q2 = Ok y
    /\ hamilton_product sample_q0 bc = Ok y.
Proof.
  apply (hamilton_product_assoc (RR := Z_ring) 1 1); split; reflexivity.
Defined.

(** X2 at a single quaternion. *)
Lemma hamilton_product_identity_left_witness :
  hamilton_product (identity_quaternion 1 1) sample_q0 = Ok sample_q0.
Proof.
  apply (hamilton_product_identity_left (RR := Z_ring) 1 1). split; reflexivity.
Defined.

(** X3 at two single quaternions. *)
Lemma hamilton_product_modulus_witness :
  exists p : @tensor Z,
    hamilton_product sample_q0 sample_q1 = Ok p
    /\ get_modulus sample_q0 true = Ok (sqrt (squares 1 1 sample_q0))
    /\ get_modulus sample_q1 true = Ok (sqrt (squares 1 1 sample_q1))
    /\ get_modulus p true
       = Ok (sqrt (ew smul (squares 1 1 sample_q0) (squares 1 1 sample_q1))).
Proof.
  apply (hamilton_product_modulus (RR := Z_ring) 1 1); split; reflexivity.
Defined.

(** X4 over the integers, for single quaternions. *)
Lemma hamilton_product_commutes_in_real_part_only_witness :
  (forall q0 q1 : @tensor Z,
     has_shape [1; 4 * 1] q0 -> has_shape [1; 4 * 1] q1 ->
     exists p01 p10,
       hamilton_product q0 q1 = Ok p01 /\ hamilton_product q1 q0 = Ok p10
       /\ component [1] 1 0 p01 = component [1] 1 0 p10)
  /\ (exists q0 q1 : @tensor Z,
        has_shape [1; 4 * 1] q0 /\ has_shape [1; 4 * 1] q1
        /\ hamilton_product q0 q1 <> hamilton_product q1 q0).
Proof.
  destruct (hamilton_product_commutes_in_real_part_only (RR := Z_ring) 1 1) as [H1 H2].
  split; [exact H1|]. apply H2; [lia | lia | discriminate].
Defined.

(** X6 at a batch of two quaternions. *)
Lemma get_modulus_entries_witness :
  exists v m : @tensor Z,
    get_modulus sample_matrix true = Ok v
    /\ has_shape [2; 1] v
    /\ (forall b h, b < 2 -> h < 1 ->
          entry 1 v b h = ssqrt (spec_quad 1 sample_matrix b h))
    /\ get_modulus sample_matrix false = Ok m
    /\ has_shape [1] m
    /\ (forall h, h < 1 ->
          nth h (data m) szero
          = ssqrt (fold_left sadd (map (fun b => spec_quad 1 sample_matrix b h) (seq 0 2))
                             szero)).
Proof.
  apply (get_modulus_entries 2 1 sample_matrix). split; reflexivity.
Defined.

(** X7 at one sequence of two quaternions. *)
Lemma get_normalized_sequence_divisor_witness :
  exists y : @tensor Z,
    get_normalized sample_sequence 0%Z = Ok y
    /\ has_shape [1; 2; 4 * 1] y
    /\ forall b s c, b < 1 -> s < 2 -> c < 4 * 1 ->
         entry (4 * 1) y (b * 2 + s) c
         = sdiv (entry (4 * 1) sample_sequence (b * 2 + s) c)
                (sadd (ssqrt (fold_left sadd
                                (map (fun b' => spec_quad 1 sample_sequence (b' * 2 + s)
                                                  (c mod 1))
                                     (seq 0 1)) szero))
                      0%Z).
Proof.
  apply (get_normalized_sequence_divisor 1 2 1 sample_sequence 0%Z). split; reflexivity.
Defined.

(** X9 at a batch of two quaternions and the weight
    [1 + 10 i + 100 j + 1000 k]. *)
Lemma forward_quaternion_product_witness :
  exists y : @tensor Z,
    snd (forward (mkCtx all_needed None) sample_matrix
           (mkT [1; 1] [1%Z]) (mkT [1; 1] [10%Z])
           (mkT [1; 1] [100%Z]) (mkT [1; 1] [1000%Z]) None) = Ok y
    /\ has_shape ([2] ++ [4 * 1]) y
    /\ forall n g, n < numel [2] -> g < 1 ->
         let m q w := mdot 1 1 (component [2] 1 q sample_matrix) w n g in
         let b c v := with_bias (length [2]) (@None (@tensor Z)) c v in
         entry (4 * 1) y n g
           = b g (ssub (ssub (ssub (m 0 (mkT [1; 1] [1%Z])) (m 1 (mkT [1; 1] [10%Z])))
                             (m 2 (mkT [1; 1] [100%Z]))) (m 3 (mkT [1; 1] [1000%Z])))
         /\ entry (4 * 1) y n (1 + g)
           = b (1 + g)
               (ssub (sadd (sadd (m 1 (mkT [1; 1] [1%Z])) (m 0 (mkT [1; 1] [10%Z])))
                           (m 3 (mkT [1; 1] [100%Z]))) (m 2 (mkT [1; 1] [1000%Z])))
         /\ entry (4 * 1) y n (2 * 1 + g)
           = b (2 * 1 + g)
               (sadd (sadd (ssub (m 2 (mkT [1; 1] [1%Z])) (m 3 (mkT [1; 1] [10%Z])))
                           (m 0 (mkT [1; 1] [100%Z]))) (m 1 (mkT [1; 1] [1000%Z])))
         /\ entry (4 * 1) y n (3 * 1 + g)
           = b (3 * 1 + g)
               (sadd (ssub (sadd (m 3 (mkT [1; 1] [1%Z])) (m 2 (mkT [1; 1] [10%Z])))
                           (m 1 (mkT [1; 1] [100%Z]))) (m 0 (mkT [1; 1] [1000%Z]))).
Proof.
  apply (forward_quaternion_product (RR := Z_ring) (mkCtx all_needed None) [2] 1 1
           sample_matrix (mkT [1; 1] [1%Z]) (mkT [1; 1] [10%Z])
           (mkT [1; 1] [100%Z]) (mkT [1; 1] [1000%Z]) None);
    try (split; reflexivity).
  left. reflexivity.
Defined.

(** X10 on the context saved from a batch of two quaternions. *)
Lemma backward_input_product_witness :
  exists grads gi,
    backward (saved_after_forward all_needed sample_matrix) sample_matrix = Ok grads
    /\ grad_input grads = Some gi
    /\ has_shape [2; 4 * 1] gi
    /\ forall n f, n < 2 -> f < 1 ->
         let t a w := rdot 1 (component [2] 1 a sample_matrix) w n f in
         entry (4 * 1) gi n f
           = sadd (sadd (sadd (t 0 (mkT [1; 1] [1%Z])) (t 1 (mkT [1; 1] [10%Z])))
                        (t 2 (mkT [1; 1] [100%Z]))) (t 3 (mkT [1; 1] [1000%Z]))
         /\ entry (4 * 1) gi n (1 + f)
           = ssub (sadd (ssub (t 1 (mkT [1; 1] [1%Z])) (t 0 (mkT [1; 1] [10%Z])))
                        (t 2 (mkT [1; 1] [1000%Z]))) (t 3 (mkT [1; 1] [100%Z]))
         /\ entry (4 * 1) gi n (2 * 1 + f)
           = sadd (ssub (ssub (t 2 (mkT [1; 1] [1%Z])) (t 0 (mkT [1; 1] [100%Z])))
                        (t 1 (mkT [1; 1] [1000%Z]))) (t 3 (mkT [1; 1] [10%Z]))
         /\ entry (4 * 1) gi n (3 * 1 + f)
           = ssub (sadd (ssub (t 3 (mkT [1; 1] [1%Z])) (t 0 (mkT [1; 1] [1000%Z])))
                        (t 1 (mkT [1; 1] [100%Z]))) (t 2 (mkT [1; 1] [10%Z])).
Proof.
  apply (backward_input_product (RR := Z_ring)
           (saved_after_forward all_needed sample_matrix) 2 1 1 sample_matrix
           (mkT [1; 1] [1%Z]) (mkT [1; 1] [10%Z]) (mkT [1; 1] [100%Z])
           (mkT [1; 1] [1000%Z]) None sample_matrix);
    try reflexivity; split; reflexivity.
Defined.

(** X11 on the same context. *)
Lemma backward_weight_products_witness :
  exists grads wr wi wj wk,
    backward (saved_after_forward all_needed sample_matrix) sample_matrix = Ok grads
    /\ grad_weight_r grads = Some wr /\ grad_weight_i grads = Some wi
    /\ grad_weight_j grads = Some wj /\ grad_weight_k grads = Some wk
    /\ Forall (has_shape [1; 1]) [wr; wi; wj; wk]
    /\ forall f c, f < 1 -> c < 1 ->
         let p a b := cdot 2 1 1 (component [2] 1 a sample_matrix)
                           (component [2] 1 b sample_matrix) c f in
         entry 1 wr f c = sadd (sadd (sadd (p 0 0) (p 1 1)) (p 2 2)) (p 3 3)
         /\ entry 1 wi f c = ssub (sadd (ssub (p 1 0) (p 0 1)) (p 3 2)) (p 2 3)
         /\ entry 1 wj f c = sadd (ssub (ssub (p 2 0) (p 3 1)) (p 0 2)) (p 1 3)
         /\ entry 1 wk f c = ssub (ssub (sadd (p 3 0) (p 2 1)) (p 1 2)) (p 0 3).
Proof.
  apply (backward_weight_products (RR := Z_ring)
           (saved_after_forward all_needed sample_matrix) 2 1 1 sample_matrix
           (mkT [1; 1] [1%Z]) (mkT [1; 1] [10%Z]) (mkT [1; 1] [100%Z])
           (mkT [1; 1] [1000%Z]) None sample_matrix);
    try reflexivity; split; reflexivity.
Defined.

(** X12 on the same context. *)
Lemma backward_grad_bias_matrix_witness :
  exists grads gb,
    backward (saved_after_forward all_needed sample_matrix) sample_matrix = Ok grads
    /\ grad_bias grads = Some gb
    /\ size gb = [4 * 1]
    /\ forall c, c < 4 * 1 ->
         nth c (data gb) szero
         = fold_left sadd (map (fun b => entry (4 * 1) sample_matrix b c) (seq 0 2)) szero.
Proof.
  apply (backward_grad_bias_matrix (saved_after_forward all_needed sample_matrix) 2 1 1
           sample_matrix (mkT [1; 1] [1%Z]) (mkT [1; 1] [10%Z]) (mkT [1; 1] [100%Z])
           (mkT [1; 1] [1000%Z]) None sample_matrix);
    try reflexivity. split; reflexivity.
Defined.

(** X14 on the context saved from a matrix of two inputs. *)
Lemma linear_backward_matrix_witness :
  exists gi gw gb,
    LinearFunction.backward
      (linear_context (LinearFunction.mkNeeds true true true) sample_rows)
      sample_grad_rows
    = Ok (LinearFunction.mkGrads (Some gi) (Some gw) (Some gb))
    /\ has_shape [2; 3] gi
    /\ (forall b i, b < 2 -> i < 3 ->
          entry 3 gi b i = dot (row 2 sample_grad_rows b) (column 3 2 sample_weight i))
    /\ has_shape [2; 3] gw
    /\ (forall o i, o < 2 -> i < 3 ->
          entry 3 gw o i
          = dot (column 2 2 sample_grad_rows o) (column 3 2 sample_rows i))
    /\ size gb = [2]
    /\ (forall o, o < 2 ->
          nth o (data gb) szero
          = fold_left sadd (map (fun b => entry 2 sample_grad_rows b o) (seq 0 2)) szero).
Proof.
  apply (linear_backward_matrix
           (linear_context (LinearFunction.mkNeeds true true true) sample_rows)
           2 3 2 sample_rows sample_weight (Some sample_bias) sample_grad_rows);
    try reflexivity; split; reflexivity.
Defined.

(** X15 on the context saved from a batch of two sequences. *)
Lemma linear_backward_sequence_bias_witness :
  exists grads gb,
    LinearFunction.backward
      (linear_context (LinearFunction.mkNeeds false false true) sample_inputs)
      sample_grads = Ok grads
    /\ LinearFunction.grad_bias grads = Some gb
    /\ size gb = [2]
    /\ forall o, o < 2 ->
         nth o (data gb) szero
         = fold_left sadd
             (map (fun b => fold_left sadd
                              (map (fun s => entry 2 sample_grads (b * 2 + s) o) (seq 0 2))
                              szero)
                  (seq 0 2))
             szero.
Proof.
  apply (linear_backward_sequence_bias
           (linear_context (LinearFunction.mkNeeds false false true) sample_inputs)
           2 2 3 2 sample_inputs sample_weight sample_bias sample_grads);
    try reflexivity; split; reflexivity.
Defined.

(** X16 on such a context. *)
Lemma linear_backward_sequence_input_witness :
  exists grads gi,
    LinearFunction.backward
      (linear_context (LinearFunction.mkNeeds true false false) sample_inputs)
      sample_grads = Ok grads
    /\ LinearFunction.grad_input grads = Some gi
    /\ has_shape [2; 3] gi
    /\ size gi <> size sample_inputs
    /\ forall s i, s < 2 -> i < 3 ->
         entry 3 gi s i
         = fold_left sadd
             (map (fun b => dot (row 2 sample_grads (b * 2 + s)) (column 3 2 sample_weight i))
                  (seq 0 2))
             szero.
Proof.
  apply (linear_backward_sequence_input
           (linear_context (LinearFunction.mkNeeds true false false) sample_inputs)
           2 2 3 2 sample_inputs sample_weight (Some sample_bias) sample_grads);
    try reflexivity; split; reflexivity.
Defined.

(** X17 on such a context. *)
Lemma linear_backward_sequence_weight_witness :
  exists grads gw,
    LinearFunction.backward
      (linear_context (LinearFunction.mkNeeds false true false) sample_inputs)
      sample_grads = Ok grads
    /\ LinearFunction.grad_weight grads = Some gw
    /\ has_shape [2; 3] gw
    /\ forall o i, o < 2 -> i < 3 ->
         entry 3 gw o i
         = fold_left sadd
             (map (fun b => dot (column 2 2 (batch 2 2 sample_grads b) o)
                                (column 3 2 (batch 2 3 sample_inputs b) i)) (seq 0 2))
             szero.
Proof.
  apply (linear_backward_sequence_weight
           (linear_context (LinearFunction.mkNeeds false true false) sample_inputs)
           2 2 3 2 sample_inputs sample_weight (Some sample_bias) sample_grads);
    try reflexivity; split; reflexivity.
Defined.

(** X18 on a matrix context with the flag of the weight unset. *)
Lemma linear_backward_gated_witness :
  is_tensor (LinearFunction.grad_input
               (LinearFunction.mkGrads (Some (mkT [2; 3] [1; 2; 4; 3; 4; 10]%Z)) None
                                       (Some (mkT [2] [4; 6]%Z))))
    = LinearFunction.need0
        (LinearFunction.needs_input_grad
           (linear_context (LinearFunction.mkNeeds true false true) sample_rows))
  /\ is_tensor (LinearFunction.grad_weight
                  (LinearFunction.mkGrads (Some (mkT [2; 3] [1; 2; 4; 3; 4; 10]%Z)) None
                                          (Some (mkT [2] [4; 6]%Z))))
    = LinearFunction.need1
        (LinearFunction.needs_input_grad
           (linear_context (LinearFunction.mkNeeds true false true) sample_rows))
  /\ is_tensor (LinearFunction.grad_bias
                  (LinearFunction.mkGrads (Some (mkT [2; 3] [1; 2; 4; 3; 4; 10]%Z)) None
                                          (Some (mkT [2] [4; 6]%Z))))
    = is_tensor (Some sample_bias)
      && LinearFunction.need2
           (LinearFunction.needs_input_grad
              (linear_context (LinearFunction.mkNeeds true false true) sample_rows)).
Proof.
  apply (linear_backward_gated
           (linear_context (LinearFunction.mkNeeds true false true) sample_rows)
           sample_rows sample_weight (Some sample_bias) sample_grad_rows);
    reflexivity.
Defined.

(** X19 for one weight, with the stand-in generator. *)
Lemma unitary_init_normalises_witness :
  let n := 1 * 1 in
  let '(u_r, st1) := uniform szero sone n (seeded 1) in
  let '(u_i, st2) := uniform szero sone n st1 in
  let '(u_j, st3) := uniform szero sone n st2 in
  let '(u_k, st4) := uniform szero sone n st3 in
  exists w_r w_i w_j w_k : @tensor float,
    unitary_init 1 1 (seeded 5) "glorot"%string (seeded 1)
    = (Ok (w_r, w_i, w_j, w_k), st4)
    /\ Forall (has_shape [1; 1]) [w_r; w_i; w_j; w_k]
    /\ forall idx, idx < n ->
         let d := unit_norm (nth idx u_r szero) (nth idx u_i szero)
                            (nth idx u_j szero) (nth idx u_k szero) in
         let s := scale "glorot"%string 1 1 in
         nth idx (data w_r) szero = smul (sdiv (nth idx u_r szero) d) s
         /\ nth idx (data w_i) szero = smul (sdiv (nth idx u_i szero) d) s
         /\ nth idx (data w_j) szero = smul (sdiv (nth idx u_j szero) d) s
         /\ nth idx (data w_k) szero = smul (sdiv (nth idx u_k szero) d) s.
Proof.
  apply (unitary_init_normalises (GR := lcg) 1 1 (seeded 5) "glorot"%string (seeded 1)).
  left. reflexivity.
Defined.

(** X20 for one weight, the identity standing for the cosine and the
    sine. *)
Lemma quaternion_init_polar_witness :
  let n := 1 * 1 in
  let s := scale "he"%string 1 1 in
  let '(u_i, st1) := uniform szero sone n (seeded 1) in
  let '(u_j, st2) := uniform szero sone n st1 in
  let '(u_k, st3) := uniform szero sone n st2 in
  let '(modulus, rng1) := uniform (sneg s) s n (seeded 123) in
  let '(phase, _) := uniform (sneg 3%float) 3%float n rng1 in
  exists w_r w_i w_j w_k : @tensor float,
    quaternion_init (fun x => x) (fun x => x) 3%float 1 1 (seeded 5) "he"%string (seeded 1)
    = (Ok (w_r, w_i, w_j, w_k), st3)
    /\ Forall (has_shape [1; 1]) [w_r; w_i; w_j; w_k]
    /\ forall idx, idx < n ->
         let d := imaginary_norm (nth idx u_i szero) (nth idx u_j szero)
                                 (nth idx u_k szero) in
         let m := nth idx modulus szero in
         let p := nth idx phase szero in
         nth idx (data w_r) szero = smul m p
         /\ nth idx (data w_i) szero = smul (smul m (sdiv (nth idx u_i szero) d)) p
         /\ nth idx (data w_j) szero = smul (smul m (sdiv (nth idx u_j szero) d)) p
         /\ nth idx (data w_k) szero = smul (smul m (sdiv (nth idx u_k szero) d)) p.
Proof.
  apply (quaternion_init_polar (GR := lcg) (fun x => x) (fun x => x) 3%float
           1 1 (seeded 5) "he"%string (seeded 1)).
  right. reflexivity.
Defined.

(** X21 at the criterion ['uniform']. *)
Lemma invalid_criterion_raises_witness :
  unitary_init 1 1 (seeded 5) "uniform"%string (seeded 1)
    = (Raise (ValueError "uniform"%string), seeded 1)
  /\ quaternion_init (fun x : float => x) (fun x => x) 3%float
       1 1 (seeded 5) "uniform"%string (seeded 1)
    = (Raise (ValueError "uniform"%string), seeded 1).
Proof.
  apply (invalid_criterion_raises (GR := lcg) (fun x => x) (fun x => x) 3%float
           1 1 (seeded 5) "uniform"%string (seeded 1)); reflexivity.
Defined.

(** X22 at a real weight of another size than the imaginary ones. *)
Lemma affect_init_rejects_witness :
  exists e,
    affect_init (C := same_type float)
      (mkT [1; 2] [0; 0]%float) (mkT [2; 1] [0; 0]%float)
      (mkT [2; 1] [0; 0]%float) (mkT [2; 1] [0; 0]%float)
      unitary_init (seeded 5) "glorot"%string (seeded 1)
    = (Throw e, seeded 1)
    /\ (size (mkT [1; 2] [0; 0]%float) = size (mkT [2; 1] [0; 0]%float) ->
        size (mkT [1; 2] [0; 0]%float) = size (mkT [2; 1] [0; 0]%float) ->
        size (mkT [1; 2] [0; 0]%float) = size (mkT [2; 1] [0; 0]%float) ->
        e = MatrixError (dim (mkT [1; 2] [0; 0]%float)))
    /\ (size (mkT [1; 2] [0; 0]%float) <> size (mkT [2; 1] [0; 0]%float)
        \/ size (mkT [1; 2] [0; 0]%float) <> size (mkT [2; 1] [0; 0]%float)
        \/ size (mkT [1; 2] [0; 0]%float) <> size (mkT [2; 1] [0; 0]%float) ->
        e = SizeError (size (mkT [1; 2] [0; 0]%float)) (size (mkT [2; 1] [0; 0]%float))
              (size (mkT [2; 1] [0; 0]%float)) (size (mkT [2; 1] [0; 0]%float))).
Proof.
  apply (affect_init_rejects (GR := lcg) (C := same_type float)).
  left. discriminate.
Defined.

(** X23 at four 1 x 1 weights of the element type of the arrays. *)
Lemma affect_init_keeps_shapes_witness :
  let w := mkT [1; 1] [0%float] in
  let C := same_type float in
  (exists b_r b_i b_j b_k,
     fst (unitary_init 1 1 (seeded 5) "glorot"%string (seeded 1))
     = Ok (b_r, b_i, b_j, b_k)
     /\ affect_init w w w w unitary_init (seeded 5) "glorot"%string (seeded 1)
        = (Return (type_as b_r w, type_as b_i w, type_as b_j w, type_as b_k w),
           snd (unitary_init 1 1 (seeded 5) "glorot"%string (seeded 1)))
     /\ Forall (fun t => has_shape [1; 1] t)
          [type_as b_r w; type_as b_i w; type_as b_j w; type_as b_k w]
     /\ data (type_as b_r w) = map convert (data b_r)
     /\ data (type_as b_i w) = map convert (data b_i)
     /\ data (type_as b_j w) = map convert (data b_j)
     /\ data (type_as b_k w) = map convert (data b_k))
  /\ (exists b_r b_i b_j b_k,
        fst (quaternion_init (fun x => x) (fun x => x) 3%float
               1 1 (seeded 5) "glorot"%string (seeded 1))
        = Ok (b_r, b_i, b_j, b_k)
        /\ affect_init w w w w (quaternion_init (fun x => x) (fun x => x) 3%float)
             (seeded 5) "glorot"%string (seeded 1)
           = (Return (type_as b_r w, type_as b_i w, type_as b_j w, type_as b_k w),
              snd (quaternion_init (fun x => x) (fun x => x) 3%float
                     1 1 (seeded 5) "glorot"%string (seeded 1)))
        /\ Forall (fun t => has_shape [1; 1] t)
             [type_as b_r w; type_as b_i w; type_as b_j w; type_as b_k w]
        /\ data (type_as b_r w) = map convert (data b_r)
        /\ data (type_as b_i w) = map convert (data b_i)
        /\ data (type_as b_j w) = map convert (data b_j)
        /\ data (type_as b_k w) = map convert (data b_k)).
Proof.
  apply (affect_init_keeps_shapes (GR := lcg) (C := same_type float)
           (fun x => x) (fun x => x) 3%float 1 1);
    try reflexivity.
  left. reflexivity.
Defined.

(** With [torch.FloatTensor] weights the data stored are the blocks of the
    initialiser rounded to binary32, not the blocks themselves. *)
Example affect_init_float32_rounds :
  exists b_r b_i b_j b_k w_r w_i w_j w_k,
    fst (unitary_init 1 1 (seeded 5) "glorot"%string (seeded 1))
    = Ok (b_r, b_i, b_j, b_k)
    /\ fst (affect_init (C := to_float32)
              (mkT [1; 1] [0%float]) (mkT [1; 1] [0%float])
              (mkT [1; 1] [0%float]) (mkT [1; 1] [0%float])
              unitary_init (seeded 5) "glorot"%string (seeded 1))
       = Return (w_r, w_i, w_j, w_k)
    /\ data w_r = map float32_of (data b_r)
    /\ data w_r <> data b_r.
Proof.
  do 8 eexists. split; [vm_compute; reflexivity|].
  split; [vm_compute; reflexivity|]. split; [vm_compute; reflexivity|].
  intros Heq.
  assert (Hbit : forall a b : list float, a = b ->
            Prim2SF (nth 0 a 0%float) = Prim2SF (nth 0 b 0%float))
    by (intros a b ->; reflexivity).
  apply Hbit in Heq. vm_compute in Heq. discriminate Heq.
Qed.

(** X25 at one quaternion, with the stand-in generator. *)
Lemma apply_quaternion_dropout_off_witness :
  mkT [1; 4] [1; 2; 3; 4]%float = mkT [1; 4] [1; 2; 3; 4]%float
  /\ snd (apply_quaternion_dropout (mkT [1; 4] [1; 2; 3; 4]%float) 0.5%float
            (seeded 1) false "quaternion"%string "linear"%string)
     = snd (binomial (ssub sone 0.5%float)
                     (numel (mask_shape "quaternion"%string
                               (size (mkT [1; 4] [1; 2; 3; 4]%float))))
                     (seeded 1))
  /\ "linear"%string = "linear"%string
  /\ ("quaternion"%string = "quaternion"%string
      \/ "quaternion"%string = "regular"%string).
Proof.
  apply (apply_quaternion_dropout_off (BR := coin) (mkT [1; 4] [1; 2; 3; 4]%float)
           0.5%float (seeded 1) "quaternion"%string "linear"%string).
  vm_compute. reflexivity.
Defined.

(** X26 at one quaternion and a mask that keeps its first and third
    elements. *)
Lemma apply_quaternion_mask_regular_only_witness :
  "regular"%string = "regular"%string
  /\ mul sample_q0 (mkT [1; 4] [1; 0; 1; 0]%Z) = Ok (mkT [1; 4] [1; 0; 3; 0]%Z).
Proof.
  apply (proj2 (apply_quaternion_mask_regular_only sample_q0
                  (mkT [1; 4] [1; 0; 1; 0]%Z) "linear"%string)
               "regular"%string).
  reflexivity.
Defined.

(** X24 at one quaternion, with the dropout of whole quaternions. *)
Lemma apply_quaternion_dropout_raises_witness :
  exists rng',
    apply_quaternion_dropout (mkT [1; 4] [1; 2; 3; 4]%float) 0.5%float
      (seeded 1) true "quaternion"%string "linear"%string
    = (Throw (NameError "apply_complex_mask"%string), rng').
Proof.
  eexists.
  eapply (proj2 (apply_quaternion_dropout_raises (BR := coin)
                   (mkT [1; 4] [1; 2; 3; 4]%float) 0.5%float (seeded 1)
                   "quaternion"%string "linear"%string)).
  - right. split; [reflexivity | cbn; lia].
  - vm_compute. reflexivity.
Defined.

